(** * Invoice clearing wizard: allocation engine and clearing-amount planner

    A shallow embedding of
    [account_invoice_clearing/wizards/account_invoice_clearing_wizard.py]
    and the properties of its allocation algorithm.

    Amounts.  The source computes on Python floats holding Odoo Monetary
    values.  Here an amount is an exact integer counted in a fixed base
    unit (a subdivision of the currency unit); the currency's [rounding]
    is a positive number of base units.  Float representation error is
    outside the model.  A Monetary field holds a value rounded to the
    currency, that is a multiple of [rounding] (predicate [monetary]).

    Records.  An Odoo record is a Rocq record carrying its database id;
    a recordset is a list of records in its iteration order.  An unset
    [Char] field ([False]) is the empty string: both are falsy, and the
    code below only tests these fields for truth. *)

From Stdlib Require Import ZArith List Bool Lia String Ascii.
From Stdlib Require Import Sorted Permutation.
Import ListNotations.

Local Open Scope string_scope.
Local Open Scope list_scope.
Local Open Scope Z_scope.

(* ================================================================= *)
(** ** The rounding service ([odoo.tools.float_utils]) *)

Module FloatUtils.

(** Modelled from the spec: the rounding service [round(amount, precision)],
    "standard half-up rounding consistent with the currency's configured
    precision".  The result is the multiple of [precision_rounding]
    nearest to [value], a tie going away from zero. *)
Definition float_round (value precision_rounding : Z) : Z :=
  Z.sgn value *
  (precision_rounding *
   ((2 * Z.abs value + precision_rounding) / (2 * precision_rounding))).

(** Modelled from the spec: the rounding service [is_zero(amount, precision)]:
    the amount rounds to less than one rounding step. *)
Definition float_is_zero (value precision_rounding : Z) : bool :=
  Z.abs (float_round value precision_rounding) <? precision_rounding.

End FloatUtils.

(** A value of a Monetary field: a multiple of the currency rounding. *)
Definition monetary (rounding value : Z) : Prop := (rounding | value).

(* ================================================================= *)
(** ** Python string helpers *)

Module Str.

(** [str.isspace] on the code points below 256. *)
Definition isspace (c : ascii) : bool :=
  let n := nat_of_ascii c in
  ((9 <=? n) && (n <=? 13) || (28 <=? n) && (n <=? 32)
   || (n =? 133) || (n =? 160))%nat.

Fixpoint lstrip (s : string) : string :=
  match s with
  | EmptyString => EmptyString
  | String c s' => if isspace c then lstrip s' else s
  end.

Fixpoint rstrip (s : string) : string :=
  match s with
  | EmptyString => EmptyString
  | String c s' =>
      match rstrip s' with
      | EmptyString => if isspace c then EmptyString else String c EmptyString
      | r => String c r
      end
  end.

(** [str.strip] *)
Definition strip (s : string) : string := lstrip (rstrip s).

(** [sep.join(parts)] *)
Fixpoint join (sep : string) (parts : list string) : string :=
  match parts with
  | [] => EmptyString
  | [p] => p
  | p :: ps => String.append p (String.append sep (join sep ps))
  end.

(** Python truth value of a string. *)
Definition truthy (s : string) : bool :=
  match s with EmptyString => false | _ => true end.

End Str.

(* ================================================================= *)
(** ** Data model *)

(** [res.currency] *)
Module Currency.
Record t := { id : Z; rounding : Z }.

(** [currency.round(amount)] *)
Definition round (self : t) (amount : Z) : Z :=
  FloatUtils.float_round amount (rounding self).
End Currency.

(** [account.move] *)
Module Move.
Record t := { id : Z; name : string }.
End Move.

(** [account.move.line] *)
Module MoveLine.
Record t := {
  id : Z;
  move_id : Move.t;
  name : string;
  amount_residual : Z;
  account_id : Z
}.

(** Records are compared (and hashed) by id. *)
Definition eqb (a b : t) : bool := id a =? id b.
End MoveLine.

(** Exceptions raised by the constraints. *)
Inductive exn := ValidationError (msg : string).

Inductive result (A : Type) :=
| Ok (a : A)
| Raise (e : exn).
Arguments Ok {A} a.
Arguments Raise {A} e.

(** [collections.OrderedDict] keyed by move lines: the entries in insertion
    order, one per key. *)
Module OrderedDict.

Definition t := list (MoveLine.t * Z).

(** [d[k]]; the engine only looks up keys it is iterating over, so the
    [KeyError] of an absent key is never reached: it reads as [0]. *)
Fixpoint get (d : t) (k : MoveLine.t) : Z :=
  match d with
  | [] => 0
  | (k', v) :: d' => if MoveLine.eqb k' k then v else get d' k
  end.

(** [d[k] = v]: an existing key keeps its place, a new key goes last. *)
Fixpoint set (d : t) (k : MoveLine.t) (v : Z) : t :=
  match d with
  | [] => [(k, v)]
  | (k', v') :: d' =>
      if MoveLine.eqb k' k then (k', v) :: d' else (k', v') :: set d' k v
  end.

(** The keys in iteration order. *)
Definition keys (d : t) : list MoveLine.t := map fst d.

(** Whether [d] has a key with the id of [k]. *)
Definition has (d : t) (k : MoveLine.t) : Prop :=
  In (MoveLine.id k) (map MoveLine.id (keys d)).

End OrderedDict.

(* ================================================================= *)
(** ** [account.invoice.clearing.lines.wizard]: a clearing candidate *)

Module Lines.

Record t := {
  sequence : Z;
  move_line_id : MoveLine.t;
  amount_to_clear : Z
}.

(** Related field [move_line_id.amount_residual]. *)
Definition amount_residual (self : t) : Z :=
  MoveLine.amount_residual (move_line_id self).

(** [line.amount_to_clear = v] *)
Definition set_amount_to_clear (self : t) (v : Z) : t :=
  {| sequence := sequence self;
     move_line_id := move_line_id self;
     amount_to_clear := v |}.

(** The constraint on [amount_to_clear] (lines 647-654), over a recordset:
    the first record beyond its residual raises. *)
Fixpoint _check_amount_to_clear (self : list t) : result unit :=
  match self with
  | [] => Ok tt
  | record :: rest =>
      if Z.abs (amount_to_clear record) >? Z.abs (amount_residual record)
      then Raise (ValidationError
                    "Amount to clear cannot be greater than residual amount.")
      else _check_amount_to_clear rest
  end.

End Lines.

(* ================================================================= *)
(** ** [account.invoice.clearing.wizard] *)

(** The values of one journal item of a clearing move. *)
Record line_val := {
  lv_name : string;
  debit : Z;
  credit : Z;
  lv_account_id : Z;
  partner_id : Z;
  currency_id : Z;
  move_line_id_to_reconcile : Z
}.

(** The values of one clearing move; [line_ids] holds the values of the
    [(0, 0, line)] commands in order. *)
Record move_val := {
  mv_currency_id : Z;
  move_type : string;
  mv_journal_id : Z;
  mv_date : string;
  ref : string;
  mv_line_ids : list line_val;
  related_to_move : string
}.

(** [itertools.groupby]: the maximal runs of consecutive items with equal
    keys, each with its key. *)
Fixpoint groupby (move_lines : list MoveLine.t)
  : list (Move.t * list MoveLine.t) :=
  match move_lines with
  | [] => []
  | ml :: rest =>
      match groupby rest with
      | (move, group) :: groups =>
          if Move.id (MoveLine.move_id ml) =? Move.id move
          then (MoveLine.move_id ml, ml :: group) :: groups
          else (MoveLine.move_id ml, [ml]) :: (move, group) :: groups
      | [] => [(MoveLine.move_id ml, [ml])]
      end
  end.

Module Wizard.

Record t := {
  move_name : string;
  move_line_prefix : string;
  move_line_ids : list MoveLine.t;
  line_ids : list Lines.t;
  company_currency_id : Currency.t;
  commercial_partner_id : Z;
  journal_id : Z;
  date : string;
  (** [self.env.context.get("preview")] *)
  preview : bool
}.

Definition set_line_ids (self : t) (lines : list Lines.t) : t :=
  {| move_name := move_name self;
     move_line_prefix := move_line_prefix self;
     move_line_ids := move_line_ids self;
     line_ids := lines;
     company_currency_id := company_currency_id self;
     commercial_partner_id := commercial_partner_id self;
     journal_id := journal_id self;
     date := date self;
     preview := preview self |}.

Definition sum (l : list Z) : Z := fold_right Z.add 0 l.

(** The computed field [amount_to_clear] ([_compute_amount_to_clear], lines
    200-205); it is not stored, so every read computes it. *)
Definition amount_to_clear (self : t) : Z :=
  let residual_amount := sum (map MoveLine.amount_residual (move_line_ids self)) in
  let amount_cleared := sum (map Lines.amount_to_clear (line_ids self)) in
  residual_amount + amount_cleared.

(* --------------------------------------------------------------- *)
(** *** The allocation engine: [_get_move_dict_vals] (lines 409-517) and its
    local helpers [fiz], [get_debit_credit], [get_amount_to_use],
    [build_line_name] and [get_clear_sign_modifier] *)

Definition fiz (self : t) (amount : Z) : bool :=
  FloatUtils.float_is_zero amount (Currency.rounding (company_currency_id self)).

Definition get_debit_credit (self : t) (amount : Z) : Z * Z :=
  if amount >? 0 then (amount, 0)
  else (0, if fiz self amount then 0 else - amount).

Definition get_amount_to_use (self : t) (amount_to_fill avaiable_amount : Z) : Z :=
  let amount := Z.max amount_to_fill avaiable_amount in
  let amount :=
    if amount_to_fill >? 0 then Z.min amount_to_fill avaiable_amount
    else amount in
  Currency.round (company_currency_id self) amount.

(** The move name and line prefix in force: the placeholders in a preview. *)
Definition names (self : t) : string * string :=
  if preview self then ("<Move Name>", "<Move Line Prefix>")
  else (move_name self, move_line_prefix self).

Definition build_line_name (self : t) (move_line : MoveLine.t) : string :=
  let move_line_prefix := snd (names self) in
  let ref := Move.name (MoveLine.move_id move_line) in
  let txts := [move_line_prefix; ref; MoveLine.name move_line] in
  let txts :=
    if String.eqb ref (MoveLine.name move_line)
    then [move_line_prefix; ref]
    else txts in
  Str.join " - " (map Str.strip (filter Str.truthy txts)).

Definition get_clear_sign_modifier (a b : Z) : Z :=
  let different_sign := (a <? 0) && (b >? 0) || (a >? 0) && (b <? 0) in
  if different_sign then -1 else 1.

(** The availability ledger (lines 441-443): the move lines of the clearing
    lines with a non-zero amount, in order, each with that amount. *)
Fixpoint fill_availability (d : OrderedDict.t) (lines : list Lines.t)
  : OrderedDict.t :=
  match lines with
  | [] => d
  | cl :: rest =>
      if Lines.amount_to_clear cl =? 0 then fill_availability d rest
      else fill_availability
             (OrderedDict.set d (Lines.move_line_id cl) (Lines.amount_to_clear cl))
             rest
  end.

Definition clear_lines_availability (self : t) : OrderedDict.t :=
  fill_availability [] (line_ids self).

(** The variables of the loop over the ledger, for one source line.
    [used_log] is a ghost variable: the clearing line and the
    [used_amount] of every transfer, in order. *)
Record loop_state := {
  ml_amount_residual : Z;
  cl_balance : Z;
  availability : OrderedDict.t;
  related_move_line_vals : list line_val;
  used_log : list (Z * Z)
}.

Definition clear_sign (st : loop_state) (cl_move_line : MoveLine.t) : Z :=
  get_clear_sign_modifier
    (ml_amount_residual st)
    (OrderedDict.get (availability st) cl_move_line).

Definition used_amount (self : t) (st : loop_state) (cl_move_line : MoveLine.t) : Z :=
  get_amount_to_use self
    (ml_amount_residual st)
    (clear_sign st cl_move_line * OrderedDict.get (availability st) cl_move_line).

(** One transfer: the loop body below its two guards (lines 460-487). *)
Definition clear_step (self : t) (st : loop_state) (cl_move_line : MoveLine.t)
  : loop_state :=
  let clear_sign := clear_sign st cl_move_line in
  let used_amount := used_amount self st cl_move_line in
  let '(cl_debit, cl_credit) := get_debit_credit self used_amount in
  {| cl_balance := cl_balance st + clear_sign * used_amount;
     ml_amount_residual := ml_amount_residual st - used_amount;
     availability :=
       OrderedDict.set (availability st) cl_move_line
         (OrderedDict.get (availability st) cl_move_line + used_amount);
     related_move_line_vals :=
       related_move_line_vals st ++
       [ {| lv_name := build_line_name self cl_move_line;
            debit := cl_debit;
            credit := cl_credit;
            lv_account_id := MoveLine.account_id cl_move_line;
            partner_id := commercial_partner_id self;
            currency_id := Currency.id (company_currency_id self);
            move_line_id_to_reconcile := MoveLine.id cl_move_line |} ];
     used_log := used_log st ++ [(MoveLine.id cl_move_line, used_amount)] |}.

(** [for cl_move_line in clear_lines_availability: ...] (lines 452-487): the
    keys are those of the ledger when the loop starts, the amounts are read
    from and written to the ledger of the state. *)
Fixpoint clear_loop (self : t) (keys : list MoveLine.t) (st : loop_state)
  : loop_state :=
  match keys with
  | [] => st
  | cl_move_line :: keys' =>
      if fiz self (ml_amount_residual st) then st
      else if fiz self (OrderedDict.get (availability st) cl_move_line)
      then clear_loop self keys' st
      else clear_loop self keys' (clear_step self st cl_move_line)
  end.

(** The loop over the ledger for the source line [move_line], from
    [ml_amount_residual, cl_balance = move_line.amount_residual, 0.0]
    (lines 449-452). *)
Definition clear_move_line (self : t) (avail : OrderedDict.t)
           (move_line : MoveLine.t) : loop_state :=
  clear_loop self (OrderedDict.keys avail)
    {| ml_amount_residual := MoveLine.amount_residual move_line;
       cl_balance := 0;
       availability := avail;
       related_move_line_vals := [];
       used_log := [] |}.

(** The journal items one source line adds to [line_vals], given the final
    state of its loop (lines 488-502): none when its debit and credit are
    both zero, else its own item and then [related_move_line_vals]. *)
Definition move_line_vals (self : t) (move_line : MoveLine.t) (st : loop_state)
  : list line_val :=
  let '(ml_debit, ml_credit) := get_debit_credit self (cl_balance st) in
  if fiz self ml_debit && fiz self ml_credit then []
  else {| lv_name := build_line_name self move_line;
          debit := ml_debit;
          credit := ml_credit;
          lv_account_id := MoveLine.account_id move_line;
          partner_id := commercial_partner_id self;
          currency_id := Currency.id (company_currency_id self);
          move_line_id_to_reconcile := MoveLine.id move_line |}
       :: related_move_line_vals st.

(** The ghost log of a run: per source line, in order, its transfers. *)
Definition run_log := list (MoveLine.t * list (Z * Z)).

(** [for move_line in move_lines: ...], threading the ledger, [line_vals]
    and the ghost log. *)
Fixpoint lines_loop (self : t) (move_lines : list MoveLine.t)
         (avail : OrderedDict.t) (line_vals : list line_val) (log : run_log)
  : OrderedDict.t * list line_val * run_log :=
  match move_lines with
  | [] => (avail, line_vals, log)
  | move_line :: rest =>
      let st := clear_move_line self avail move_line in
      lines_loop self rest (availability st)
        (line_vals ++ move_line_vals self move_line st)
        (log ++ [(move_line, used_log st)])
  end.

(** [for move, move_lines in groupby(...): ...] (lines 446-516), threading
    the ledger, [move_vals] and the ghost log; a document without journal
    items gives no move. *)
Fixpoint moves_loop (self : t) (groups : list (Move.t * list MoveLine.t))
         (avail : OrderedDict.t) (move_vals : list move_val) (log : run_log)
  : OrderedDict.t * list move_val * run_log :=
  match groups with
  | [] => (avail, move_vals, log)
  | (move, move_lines) :: rest =>
      let '(avail', line_vals, log') := lines_loop self move_lines avail [] log in
      match line_vals with
      | [] => moves_loop self rest avail' move_vals log'
      | _ =>
          moves_loop self rest avail'
            (move_vals ++
             [ {| mv_currency_id := Currency.id (company_currency_id self);
                  move_type := "entry";
                  mv_journal_id := journal_id self;
                  mv_date := date self;
                  ref := fst (names self);
                  mv_line_ids := line_vals;
                  related_to_move := Move.name move |} ])
            log'
      end
  end.

(** A whole run: the final ledger, the moves and the ghost log. *)
Definition run (self : t) : OrderedDict.t * list move_val * run_log :=
  moves_loop self (groupby (move_line_ids self))
    (clear_lines_availability self) [] [].

Definition _get_move_dict_vals (self : t) : list move_val :=
  snd (fst (run self)).

(* --------------------------------------------------------------- *)
(** *** The clearing-amount planner: [action_fill_amount_to_clear] (lines
    238-255) *)

(** [self.line_ids.filtered(lambda l: not l.amount_to_clear)]: the selected
    records, as their positions in [line_ids] counted from [pos]. *)
Fixpoint filtered_unset (lines : list Lines.t) (pos : nat) : list nat :=
  match lines with
  | [] => []
  | l :: rest =>
      if Lines.amount_to_clear l =? 0
      then pos :: filtered_unset rest (S pos)
      else filtered_unset rest (S pos)
  end.

(** Writing the record at position [i] of a recordset. *)
Fixpoint write (lines : list Lines.t) (i : nat) (line : Lines.t) : list Lines.t :=
  match lines, i with
  | [], _ => []
  | _ :: rest, O => line :: rest
  | l :: rest, S i' => l :: write rest i' line
  end.

Definition cmp_fnc (line : Lines.t) (a b : Z) : bool :=
  if Lines.amount_residual line <? 0 then a <=? b else a >=? b.

(** The loop body (lines 244-254): the line as written and the new local
    [amount_to_clear].  The currency of a clearing line is the company
    currency of its move line, which is the wizard's.  The value assigned is
    stored as it is; Odoo rounds a Monetary field on assignment, which
    leaves a Monetary value as it is. *)
Definition fill_body (self : t) (amount_to_clear : Z) (line : Lines.t)
  : Lines.t * Z :=
  if fiz self amount_to_clear
  then (Lines.set_amount_to_clear line 0, amount_to_clear)
  else if cmp_fnc line amount_to_clear (Lines.amount_residual line)
  then (Lines.set_amount_to_clear line (Lines.amount_residual line),
        amount_to_clear - Lines.amount_residual line)
  else (Lines.set_amount_to_clear line amount_to_clear, 0).

(** [for line in <selected>: ...] over the records at the positions
    [selected], threading the stored lines and the local [amount_to_clear]. *)
Fixpoint fill_loop (self : t) (selected : list nat) (lines : list Lines.t)
         (amount_to_clear : Z) : list Lines.t * Z :=
  match selected with
  | [] => (lines, amount_to_clear)
  | i :: rest =>
      match nth_error lines i with
      | Some line =>
          let '(line', amount_to_clear') := fill_body self amount_to_clear line in
          fill_loop self rest (write lines i line') amount_to_clear'
      | None => fill_loop self rest lines amount_to_clear
      end
  end.

(** The wizard after the action (the window action it returns reopens the
    same wizard). *)
Definition action_fill_amount_to_clear (self : t) : t :=
  let amount_to_clear := - amount_to_clear self in
  set_line_ids self
    (fst (fill_loop self (filtered_unset (line_ids self) 0) (line_ids self)
            amount_to_clear)).

End Wizard.

(* ================================================================= *)
(** ** The vocabulary of the specification *)

Module Spec.

(** The label rule as worded: the non-empty parts among the stripped
    [prefix], [document_reference] and [line_description], the description
    left out when it equals the reference, joined by [" - "]. *)
Definition build_line_name (prefix document_reference line_description : string)
  : string :=
  let parts :=
    if String.eqb document_reference line_description
    then [prefix; document_reference]
    else [prefix; document_reference; line_description] in
  Str.join " - " (filter Str.truthy (map Str.strip parts)).

(** The planner as worded, for one candidate: an assigned candidate is
    skipped; a zero target assigns [0]; otherwise the target is compared
    with the residual by a comparator chosen from the sign of an amount
    [selector target_total candidate] (less-or-equal when negative,
    greater-or-equal otherwise), and the candidate gets its whole residual
    when that fits, the remaining target when not.  The result is the
    candidate as assigned and the target left. *)
Definition assign (rounding : Z) (selector : Z -> Lines.t -> Z)
           (target_total : Z) (c : Lines.t) : Lines.t * Z :=
  if negb (Lines.amount_to_clear c =? 0) then (c, target_total)
  else if FloatUtils.float_is_zero target_total rounding
  then (Lines.set_amount_to_clear c 0, target_total)
  else
    let fits :=
      if selector target_total c <? 0
      then target_total <=? Lines.amount_residual c
      else target_total >=? Lines.amount_residual c in
    if fits
    then (Lines.set_amount_to_clear c (Lines.amount_residual c),
          target_total - Lines.amount_residual c)
    else (Lines.set_amount_to_clear c target_total, 0).

(** The planner as worded: walk the candidates in their order. *)
Fixpoint plan (rounding : Z) (selector : Z -> Lines.t -> Z) (target_total : Z)
         (candidates : list Lines.t) : list Lines.t * Z :=
  match candidates with
  | [] => ([], target_total)
  | c :: rest =>
      let '(c', t) := assign rounding selector target_total c in
      let '(rest', t') := plan rounding selector t rest in
      (c' :: rest', t')
  end.

(** The amounts the comparator of the planner can be chosen from.  On the
    source side: the residual of the source lines; the amount of the wizard
    still to clear, which is the opposite of the target; the target itself.
    On the clearing side: the residual of the candidate. *)
Definition source_amount (self : Wizard.t) : Z :=
  Wizard.sum (map MoveLine.amount_residual (Wizard.move_line_ids self)).

Definition by_source_residual (self : Wizard.t) (_ : Z) (_ : Lines.t) : Z :=
  source_amount self.

Definition by_amount_to_clear (target_total : Z) (_ : Lines.t) : Z :=
  - target_total.

Definition by_target (target_total : Z) (_ : Lines.t) : Z := target_total.

Definition by_candidate (_ : Z) (c : Lines.t) : Z := Lines.amount_residual c.

(** The net of a journal item, and the balance of a list of them. *)
Definition net (lv : line_val) : Z := debit lv - credit lv.

Definition balanced (lines : list line_val) : Prop :=
  Wizard.sum (map debit lines) = Wizard.sum (map credit lines).

(** The number of journal items of [lines] that reconcile the line [id]. *)
Definition lines_for (id : Z) (lines : list line_val) : nat :=
  List.length (filter (fun lv => move_line_id_to_reconcile lv =? id) lines).

(** The total of the [used_amount]s transferred against the clearing line
    [id] in a list of transfers, and in a whole run. *)
Definition used_against (id : Z) (transfers : list (Z * Z)) : Z :=
  Wizard.sum (map snd (filter (fun t => fst t =? id) transfers)).

Definition used_against_in_run (id : Z) (log : Wizard.run_log) : Z :=
  used_against id (List.concat (map snd log)).

(** The total of the [used_amount]s of one source line. *)
Definition used_total (transfers : list (Z * Z)) : Z :=
  Wizard.sum (map snd transfers).

(** The polarity of the source lines of a run, and the sides it puts the
    source residuals and the clearing amounts on. *)
Inductive polarity := SourceNegative | SourcePositive.

Definition source_side (p : polarity) (amount : Z) : Prop :=
  match p with SourceNegative => amount <= 0 | SourcePositive => 0 <= amount end.

Definition clearing_side (p : polarity) (amount : Z) : Prop :=
  match p with SourceNegative => 0 <= amount | SourcePositive => amount <= 0 end.

(** The amounts of a run are Monetary values of a currency with a positive
    rounding. *)
Definition monetary_run (self : Wizard.t) : Prop :=
  let r := Currency.rounding (Wizard.company_currency_id self) in
  0 < r /\
  Forall (fun ml => monetary r (MoveLine.amount_residual ml))
         (Wizard.move_line_ids self) /\
  Forall (fun cl => monetary r (Lines.amount_to_clear cl)) (Wizard.line_ids self).

(** The source residuals are on one side and the amounts to clear of the
    clearing lines on the other.  This is read on the amount a clearing
    line holds, not on the residual of its move line. *)
Definition opposite_polarity (p : polarity) (self : Wizard.t) : Prop :=
  Forall (fun ml => source_side p (MoveLine.amount_residual ml))
         (Wizard.move_line_ids self) /\
  Forall (fun cl => clearing_side p (Lines.amount_to_clear cl))
         (Wizard.line_ids self).

(** A valid allocation run. *)
Definition valid_run (p : polarity) (self : Wizard.t) : Prop :=
  monetary_run self /\ opposite_polarity p self.

(** No candidate is asked for more than its residual. *)
Definition within_residual (self : Wizard.t) : Prop :=
  Forall (fun cl => Z.abs (Lines.amount_to_clear cl) <= Z.abs (Lines.amount_residual cl))
         (Wizard.line_ids self).

(** Each move line is a candidate of the wizard once. *)
Definition distinct_candidates (self : Wizard.t) : Prop :=
  NoDup (map (fun cl => MoveLine.id (Lines.move_line_id cl)) (Wizard.line_ids self)).

End Spec.

(* ================================================================= *)
(** ** The claims as stated, and the invariants of the proofs *)

(** *** The label rule *)

Definition label_ref (move_line : MoveLine.t) : string :=
  Move.name (MoveLine.move_id move_line).

Definition label_parts (self : Wizard.t) (move_line : MoveLine.t) : list string :=
  [snd (Wizard.names self); label_ref move_line; MoveLine.name move_line].

(** A part that is not empty and holds white space only. *)
Definition blank (s : string) : bool :=
  Str.truthy s && negb (Str.truthy (Str.strip s)).

(** *** The planner *)

(** The total assigned to a list of candidates. *)
Definition amounts (lines : list Lines.t) : Z :=
  Wizard.sum (map Lines.amount_to_clear lines).

(** The targets a walk of the planner can reach from [t]: a target that is
    zero within tolerance never changes, a non-negative one stays
    non-negative. *)
Definition reaches (rounding t t' : Z) : Prop :=
  (FloatUtils.float_is_zero t rounding = true -> t' = t) /\ (0 <= t -> 0 <= t').

(** *** The loop over the ledger *)

(** [m] lies between [0] and [m0]. *)
Definition between (m0 m : Z) : Prop := 0 <= m <= m0 \/ m0 <= m <= 0.

(** The state of the loop holds Monetary values, and what was used so far
    is what the source residual went down by, without passing zero. *)
Definition monetary_state (r m0 : Z) (st : Wizard.loop_state) : Prop :=
  monetary r (Wizard.ml_amount_residual st)
  /\ monetary r (Wizard.cl_balance st)
  /\ Forall (fun kv => monetary r (snd kv)) (Wizard.availability st)
  /\ between m0 (Wizard.ml_amount_residual st)
  /\ Spec.used_total (Wizard.used_log st) = m0 - Wizard.ml_amount_residual st.

(** The ledger is the ledger [d0] the loop started on plus what was used. *)
Definition ledger_state (d0 : OrderedDict.t) (st : Wizard.loop_state) : Prop :=
  forall k,
    OrderedDict.get (Wizard.availability st) k
    = OrderedDict.get d0 k + Spec.used_against (MoveLine.id k) (Wizard.used_log st).

(** The state of the loop in a run of polarity [p]: the residual on the
    source side, the ledger on the clearing side, every transfer in the
    direction of the source, and the settled balance the opposite of the
    net of the journal items emitted. *)
Definition polar_state (p : Spec.polarity) (st : Wizard.loop_state) : Prop :=
  Spec.source_side p (Wizard.ml_amount_residual st)
  /\ Forall (fun kv => Spec.clearing_side p (snd kv)) (Wizard.availability st)
  /\ Forall (fun t => Spec.source_side p (snd t)) (Wizard.used_log st)
  /\ Wizard.cl_balance st
     + Wizard.sum (map Spec.net (Wizard.related_move_line_vals st)) = 0.

(** The journal items emitted are those of the transfers logged. *)
Definition logged_state (st : Wizard.loop_state) : Prop :=
  map move_line_id_to_reconcile (Wizard.related_move_line_vals st)
  = map fst (Wizard.used_log st).

(** *** A run *)

(** The ledger of a run holds Monetary values on the clearing side. *)
Definition ledger_valid (r : Z) (p : Spec.polarity) (d : OrderedDict.t) : Prop :=
  Forall (fun kv => monetary r (snd kv)) d
  /\ Forall (fun kv => Spec.clearing_side p (snd kv)) d.

(** A source line of a valid run. *)
Definition source_valid (r : Z) (p : Spec.polarity) (ml : MoveLine.t) : Prop :=
  monetary r (MoveLine.amount_residual ml)
  /\ Spec.source_side p (MoveLine.amount_residual ml).

(** The ids of the clearing lines of the ledger of a run. *)
Definition candidate_ids (self : Wizard.t) : list Z :=
  map MoveLine.id (OrderedDict.keys (Wizard.clear_lines_availability self)).

(** The journal items of one source line [src] in an entry: none, or its
    own item followed by the items of distinct clearing lines of [ids]. *)
Definition block_of (ids : list Z) (src : MoveLine.t) (block : list line_val)
  : Prop :=
  block = []
  \/ exists own rel,
       block = own :: rel
       /\ move_line_id_to_reconcile own = MoveLine.id src
       /\ NoDup (map move_line_id_to_reconcile rel)
       /\ incl (map move_line_id_to_reconcile rel) ids.

(** In every entry, every clearing candidate has at most one journal
    item. *)
Definition one_line_per_candidate (self : Wizard.t) : Prop :=
  forall mv, In mv (Wizard._get_move_dict_vals self) ->
  forall cl, In cl (Wizard.line_ids self) ->
    (Spec.lines_for (MoveLine.id (Lines.move_line_id cl)) (mv_line_ids mv) <= 1)%nat.

(** No source line and no clearing candidate is consumed beyond its
    residual. *)
Definition no_over_consumption (self : Wizard.t) : Prop :=
  let log := snd (Wizard.run self) in
  Forall (fun e => Z.abs (Spec.used_total (snd e))
                   <= Z.abs (MoveLine.amount_residual (fst e))) log
  /\ forall cl, In cl (Wizard.line_ids self) ->
       Z.abs (Spec.used_against_in_run (MoveLine.id (Lines.move_line_id cl)) log)
       <= Z.abs (Lines.amount_residual cl).

(** Case analysis on the polarity of a run, the sides unfolded. *)
Ltac polar p :=
  destruct p;
  cbv beta iota delta [Spec.source_side Spec.clearing_side] in *;
  cbn [fst snd] in *.

(* ================================================================= *)
(** ** Concrete runs *)

(** Amounts are in cents of a currency rounded to the cent. *)
Definition invoice : Move.t := {| Move.id := 1; Move.name := "INV/1" |}.

Definition second_invoice : Move.t := {| Move.id := 4; Move.name := "INV/2" |}.

Definition payment : Move.t := {| Move.id := 2; Move.name := "PAY/1" |}.

Definition source_line (id residual : Z) : MoveLine.t :=
  {| MoveLine.id := id; MoveLine.move_id := invoice; MoveLine.name := "INV/1";
     MoveLine.amount_residual := residual; MoveLine.account_id := 7 |}.

Definition payment_line (id residual : Z) : MoveLine.t :=
  {| MoveLine.id := id; MoveLine.move_id := payment; MoveLine.name := "PAY/1";
     MoveLine.amount_residual := residual; MoveLine.account_id := 8 |}.

Definition candidate (id residual requested : Z) : Lines.t :=
  {| Lines.sequence := 10;
     Lines.move_line_id := payment_line id residual;
     Lines.amount_to_clear := requested |}.

Definition wizard_of (sources : list MoveLine.t) (candidates : list Lines.t)
  : Wizard.t :=
  {| Wizard.move_name := "Clearing operation";
     Wizard.move_line_prefix := "Clearing operation";
     Wizard.move_line_ids := sources;
     Wizard.line_ids := candidates;
     Wizard.company_currency_id := {| Currency.id := 1; Currency.rounding := 1 |};
     Wizard.commercial_partner_id := 5;
     Wizard.journal_id := 3;
     Wizard.date := "2023-01-01";
     Wizard.preview := false |}.

(** The first scenario of the specification: one document with residual
    [-100], one clearing line with residual [150], nothing assigned yet. *)
Definition scenario_plan : Wizard.t :=
  wizard_of [source_line 1 (-100)] [candidate 3 150 0].

(** A wizard in which more is assigned than the source lines need: a
    document of residual [-100], a clearing line of residual [150] assigned
    in full, a clearing line of residual [80] not assigned yet.  The target
    of the planner is [-50]. *)
Definition scenario_assigned : Wizard.t :=
  wizard_of [source_line 1 (-100)] [candidate 3 150 150; candidate 5 80 0].

(** A state of the loop over the ledger in the first scenario, the
    candidate holding its whole residual: residual [-100] to clear,
    availability [150]. *)
Definition transfer_state : Wizard.loop_state :=
  {| Wizard.ml_amount_residual := -100;
     Wizard.cl_balance := 0;
     Wizard.availability := [(payment_line 3 150, 150)];
     Wizard.related_move_line_vals := [];
     Wizard.used_log := [] |}.

(** The second scenario of the specification: one document with two source
    lines of residual [-60] and [-40], one clearing line of residual [100],
    all of it requested. *)
Definition scenario_split : Wizard.t :=
  wizard_of [source_line 1 (-60); source_line 2 (-40)] [candidate 3 100 100].

(** A run with clearing lines on both sides: a first document of residual
    [-200], a second document of residual [-100], a clearing line of [100]
    and a clearing line of [-100]. *)
Definition first_source : MoveLine.t := source_line 1 (-200).

Definition second_source : MoveLine.t :=
  {| MoveLine.id := 2; MoveLine.move_id := second_invoice; MoveLine.name := "INV/2";
     MoveLine.amount_residual := -100; MoveLine.account_id := 7 |}.

Definition scenario_dropped : Wizard.t :=
  wizard_of [first_source; second_source]
            [candidate 3 100 100; candidate 5 (-100) (-100)].

(** A customer invoice with a receivable line of [300] and two negative
    receivable lines of [-100], and two clearing lines of residual [-300]
    and [-50], each requested in full. *)
Definition scenario_same_side : Wizard.t :=
  wizard_of [source_line 1 300; source_line 2 (-100); source_line 6 (-100)]
            [candidate 3 (-300) (-300); candidate 5 (-50) (-50)].

(** Labels: a clearing line whose document reference is one space, and one
    whose reference and description are the same padded text. *)
Definition blank_ref_line : MoveLine.t :=
  {| MoveLine.id := 3;
     MoveLine.move_id := {| Move.id := 2; Move.name := " " |};
     MoveLine.name := "L";
     MoveLine.amount_residual := 100; MoveLine.account_id := 8 |}.

Definition plain_line : MoveLine.t :=
  {| MoveLine.id := 4;
     MoveLine.move_id := {| Move.id := 2; Move.name := " PAY/1 " |};
     MoveLine.name := " PAY/1 ";
     MoveLine.amount_residual := 100; MoveLine.account_id := 8 |}.

Definition label_wizard : Wizard.t :=
  {| Wizard.move_name := "Clearing operation";
     Wizard.move_line_prefix := "P";
     Wizard.move_line_ids := [];
     Wizard.line_ids := [];
     Wizard.company_currency_id := {| Currency.id := 1; Currency.rounding := 1 |};
     Wizard.commercial_partner_id := 5;
     Wizard.journal_id := 3;
     Wizard.date := "2023-01-01";
     Wizard.preview := false |}.

(* ================================================================= *)
(** ** Further vocabulary: journal items, settlement, exhaustion *)

(** A journal item with a non-negative debit and credit, one of them zero. *)
Definition one_sided (lv : line_val) : Prop :=
  0 <= debit lv /\ 0 <= credit lv /\ (debit lv = 0 \/ credit lv = 0).

(** A ledger with nothing left under any key. *)
Definition exhausted (d : OrderedDict.t) : Prop :=
  forall k, OrderedDict.get d k = 0.

(** An entry of the log whose source line was cleared in full. *)
Definition settled (e : MoveLine.t * list (Z * Z)) : Prop :=
  Spec.used_total (snd e) = MoveLine.amount_residual (fst e).

(** The amount of a journal item on the side where the source lines of a
    run of polarity [p] are written (the debit for negative residuals),
    and on the other side. *)
Definition source_amount_of (p : Spec.polarity) (lv : line_val) : Z :=
  match p with Spec.SourceNegative => debit lv | Spec.SourcePositive => credit lv end.

Definition clearing_amount_of (p : Spec.polarity) (lv : line_val) : Z :=
  match p with Spec.SourceNegative => credit lv | Spec.SourcePositive => debit lv end.

(** The journal items of one source line in an entry of a valid run: none,
    or its own item, written on the source side, followed by at least one
    clearing item, each written on the other side for a positive amount,
    the amounts of the clearing items adding up to that of the own item. *)
Definition settling_block (p : Spec.polarity) (src : MoveLine.t)
           (block : list line_val) : Prop :=
  block = []
  \/ exists own rel,
       block = own :: rel
       /\ rel <> []
       /\ move_line_id_to_reconcile own = MoveLine.id src
       /\ clearing_amount_of p own = 0
       /\ Forall (fun lv => source_amount_of p lv = 0 /\ 0 < clearing_amount_of p lv) rel
       /\ source_amount_of p own = Wizard.sum (map (clearing_amount_of p) rel).

(** The settled balance counted on the source side of a run. *)
Definition balance_of (p : Spec.polarity) (cl_balance : Z) : Z :=
  match p with Spec.SourceNegative => cl_balance | Spec.SourcePositive => - cl_balance end.

(** The clearing items emitted so far are written on the clearing side for
    positive amounts, which add up to the settled balance. *)
Definition sided_state (p : Spec.polarity) (st : Wizard.loop_state) : Prop :=
  Forall (fun lv => source_amount_of p lv = 0 /\ 0 < clearing_amount_of p lv)
         (Wizard.related_move_line_vals st)
  /\ balance_of p (Wizard.cl_balance st)
     = Wizard.sum (map (clearing_amount_of p) (Wizard.related_move_line_vals st)).

(** What is left in a ledger, all clearing lines together; what a run
    used, all source lines together; and what a run left of the residual of
    a source line. *)
Definition ledger_total (d : OrderedDict.t) : Z := Wizard.sum (map snd d).

Definition used_in_run (log : Wizard.run_log) : Z :=
  Wizard.sum (map (fun e => Spec.used_total (snd e)) log).

Definition left_over (e : MoveLine.t * list (Z * Z)) : Z :=
  MoveLine.amount_residual (fst e) - Spec.used_total (snd e).

(* ================================================================= *)
(** ** Further methods of the wizards *)

Module Preview.

(** [self.with_context(preview=True)] *)
Definition with_preview (self : Wizard.t) : Wizard.t :=
  {| Wizard.move_name := Wizard.move_name self;
     Wizard.move_line_prefix := Wizard.move_line_prefix self;
     Wizard.move_line_ids := Wizard.move_line_ids self;
     Wizard.line_ids := Wizard.line_ids self;
     Wizard.company_currency_id := Wizard.company_currency_id self;
     Wizard.commercial_partner_id := Wizard.commercial_partner_id self;
     Wizard.journal_id := Wizard.journal_id self;
     Wizard.date := Wizard.date self;
     Wizard.preview := true |}.

(** [_compute_move_data] (lines 146-155): the value [json.dumps] writes to
    [move_data]; it stays the empty list for a wizard without source lines
    or without clearing lines. *)
Definition _compute_move_data (self : Wizard.t) : list move_val :=
  match Wizard.move_line_ids self, Wizard.line_ids self with
  | [], _ => []
  | _, [] => []
  | _, _ => Wizard._get_move_dict_vals (with_preview self)
  end.

(** A journal item and a move without their labels. *)
Definition unnamed_line (lv : line_val) : line_val :=
  {| lv_name := "";
     debit := debit lv;
     credit := credit lv;
     lv_account_id := lv_account_id lv;
     partner_id := partner_id lv;
     currency_id := currency_id lv;
     move_line_id_to_reconcile := move_line_id_to_reconcile lv |}.

Definition unnamed_move (mv : move_val) : move_val :=
  {| mv_currency_id := mv_currency_id mv;
     move_type := move_type mv;
     mv_journal_id := mv_journal_id mv;
     mv_date := mv_date mv;
     ref := "";
     mv_line_ids := map unnamed_line (mv_line_ids mv);
     related_to_move := related_to_move mv |}.

(** A state of the loop without the labels of its journal items. *)
Definition unnamed_state (st : Wizard.loop_state) : Wizard.loop_state :=
  {| Wizard.ml_amount_residual := Wizard.ml_amount_residual st;
     Wizard.cl_balance := Wizard.cl_balance st;
     Wizard.availability := Wizard.availability st;
     Wizard.related_move_line_vals := map unnamed_line (Wizard.related_move_line_vals st);
     Wizard.used_log := Wizard.used_log st |}.

End Preview.

(* ================================================================= *)
(** ** Further vocabulary: the planner *)

(** The side of the residual of a candidate for which the comparator of the
    planner fits a run of polarity [p]: greater-or-equal serves the
    non-negative residuals, less-or-equal the negative ones. *)
Definition candidate_side (p : Spec.polarity) (residual : Z) : Prop :=
  match p with Spec.SourceNegative => 0 <= residual | Spec.SourcePositive => residual < 0 end.

(** A wizard the planner can fill for a run of polarity [p]: a positive
    rounding, a target (the opposite of the amount to clear) on the
    clearing side, every candidate with its residual on the side of its
    comparator and holding no more than its residual. *)
Definition plannable (p : Spec.polarity) (self : Wizard.t) : Prop :=
  0 < Currency.rounding (Wizard.company_currency_id self)
  /\ Spec.clearing_side p (- Wizard.amount_to_clear self)
  /\ Forall (fun cl => candidate_side p (Lines.amount_residual cl)
                       /\ Z.abs (Lines.amount_to_clear cl)
                          <= Z.abs (Lines.amount_residual cl))
            (Wizard.line_ids self).

(** The residuals of the candidates are Monetary values. *)
Definition monetary_residuals (self : Wizard.t) : Prop :=
  Forall (fun cl => monetary (Currency.rounding (Wizard.company_currency_id self))
                             (Lines.amount_residual cl))
         (Wizard.line_ids self).

(** What the planner does to a candidate: it keeps its move line and its
    sequence, and keeps it whole when it was assigned; it gives an
    unassigned one its whole residual; it gives an unassigned one [0]. *)
Definition kept (c c' : Lines.t) : Prop :=
  Lines.move_line_id c' = Lines.move_line_id c
  /\ Lines.sequence c' = Lines.sequence c
  /\ (Lines.amount_to_clear c <> 0 -> c' = c).

Definition filled (c c' : Lines.t) : Prop :=
  Lines.amount_to_clear c = 0 -> Lines.amount_to_clear c' = Lines.amount_residual c.

Definition zeroed (c c' : Lines.t) : Prop :=
  Lines.amount_to_clear c = 0 -> Lines.amount_to_clear c' = 0.

(* ================================================================= *)
(** ** Further methods: account types, candidate lines, constraints *)

Module AccountType.

(** [sub in s] *)
Fixpoint contains (sub s : string) : bool :=
  String.prefix sub s
  || match s with
     | EmptyString => false
     | String _ s' => contains sub s'
     end.

(** [_get_internal_type_from_move_type] (lines 106-113).  [move_types[0]]
    is read from a list of two items. *)
Definition _get_internal_type_from_move_type
           (move_type : string) (is_counterpart : bool) : string :=
  let move_types := ["payable"; "receivable"] in
  let move_types :=
    if is_counterpart && negb (contains "refund" move_type)
    then rev move_types else move_types in
  let move_types :=
    if String.prefix "out_" move_type then rev move_types else move_types in
  hd "" move_types.

End AccountType.

(** The actions on the clearing lines.  [available] is what
    [_get_available_clearing_move_lines] returns, a search of the
    database: the move lines that can be used for clearing, in order. *)
Module Actions.

(** The record a [(0, 0, {"move_line_id": ..., "sequence": ...})] command
    creates: [amount_to_clear] takes its default [0.0]. *)
Definition new_line (move_line : MoveLine.t) (sequence : Z) : Lines.t :=
  {| Lines.sequence := sequence;
     Lines.move_line_id := move_line;
     Lines.amount_to_clear := 0 |}.

(** [move_line in existing_move_lines] *)
Definition is_in (move_line : MoveLine.t) (existing : list MoveLine.t) : bool :=
  existsb (MoveLine.eqb move_line) existing.

(** [action_unlink_lines] (lines 257-261): [self.line_ids = [(5, 0, 0)]]. *)
Definition action_unlink_lines (self : Wizard.t) : Wizard.t :=
  Wizard.set_line_ids self [].

(** The loop of [action_add_lines] (lines 269-277), threading
    [last_sequence] and [new_lines]. *)
Fixpoint add_loop (existing_move_lines available : list MoveLine.t)
         (last_sequence : Z) (new_lines : list Lines.t) : list Lines.t :=
  match available with
  | [] => new_lines
  | move_line :: rest =>
      if is_in move_line existing_move_lines
      then add_loop existing_move_lines rest last_sequence new_lines
      else add_loop existing_move_lines rest (last_sequence + 10)
                    (new_lines ++ [new_line move_line (last_sequence + 1)])
  end.

(** [action_add_lines] (lines 263-280); the [(0, 0, vals)] commands add the
    new lines after the lines of the wizard. *)
Definition action_add_lines (self : Wizard.t) (available : list MoveLine.t)
  : Wizard.t :=
  let existing_move_lines := map Lines.move_line_id (Wizard.line_ids self) in
  let last_sequence := last (map Lines.sequence (Wizard.line_ids self)) 0 in
  let new_lines := add_loop existing_move_lines available last_sequence [] in
  match new_lines with
  | [] => self
  | _ => Wizard.set_line_ids self (Wizard.line_ids self ++ new_lines)
  end.

(** [action_reset_lines] (lines 231-236) *)
Definition action_reset_lines (self : Wizard.t) (available : list MoveLine.t)
  : Wizard.t :=
  action_add_lines (action_unlink_lines self) available.

End Actions.

(** A list of strictly increasing integers. *)
Fixpoint increasing (l : list Z) : Prop :=
  match l with
  | a :: (b :: _) as rest => a < b /\ increasing rest
  | _ => True
  end.

(** The move lines of the candidates of a wizard. *)
Definition candidate_lines (self : Wizard.t) : list MoveLine.t :=
  map Lines.move_line_id (Wizard.line_ids self).

(* ================================================================= *)
(** ** Further methods: the constraint on the invoices *)

(** [account.move] as the constraint on the invoices reads it: the move and
    its [commercial_partner_id] (a [res.partner], by id), [move_type] and
    [company_id] (a [res.company], by id). *)
Module Invoice.
Record t := {
  move : Move.t;
  commercial_partner_id : Z;
  move_type : string;
  company_id : Z
}.
End Invoice.

Module Constraints.

(** A recordset, and a [set], hold an item once: the items of [l] without
    the repetitions, each where it comes first.  (A [set] has no order of
    its own; the code below only reads its length.) *)
Fixpoint uniq {A : Type} (eqb : A -> A -> bool) (l : list A) : list A :=
  match l with
  | [] => []
  | a :: rest => a :: filter (fun b => negb (eqb a b)) (uniq eqb rest)
  end.

(** [_get_commercial_partners] (lines 361-365): the commercial partners of
    the invoices, and of these their own commercial partners.
    [commercial_partner_of] is the field [commercial_partner_id] of
    [res.partner], from id to id. *)
Definition _get_commercial_partners (commercial_partner_of : Z -> Z)
           (invoices : list Invoice.t) : list Z :=
  let partners := uniq Z.eqb (map Invoice.commercial_partner_id invoices) in
  uniq Z.eqb (map commercial_partner_of partners).

(** [_get_companies] (lines 367-370) *)
Definition _get_companies (invoices : list Invoice.t) : list Z :=
  uniq Z.eqb (map Invoice.company_id invoices).

(** [_get_move_types] (lines 372-375): [list(set(...))] *)
Definition _get_move_types (invoices : list Invoice.t) : list string :=
  uniq String.eqb (map Invoice.move_type invoices).

(** The body of the loop of [_check_invoices_same_partner] (lines 525-536),
    for the invoices of one wizard. *)
Definition check_invoices (commercial_partner_of : Z -> Z)
           (invoice_ids : list Invoice.t) : result unit :=
  if (1 <? List.length
             (uniq Z.eqb (_get_commercial_partners commercial_partner_of invoice_ids)))%nat
  then Raise (ValidationError "Invoices must be from the same commercial partner.")
  else if (1 <? List.length (_get_move_types invoice_ids))%nat
  then Raise (ValidationError "Invoices must be of the same type.")
  else if (1 <? List.length (_get_companies invoice_ids))%nat
  then Raise (ValidationError "Invoices must belong to the same company.")
  else Ok tt.

(** [_check_invoices_same_partner] (lines 520-536) over a recordset of
    wizards, each given by its [invoice_ids]: the first wizard that fails
    raises. *)
Fixpoint _check_invoices_same_partner (commercial_partner_of : Z -> Z)
         (self : list (list Invoice.t)) : result unit :=
  match self with
  | [] => Ok tt
  | invoice_ids :: rest =>
      match check_invoices commercial_partner_of invoice_ids with
      | Ok _ => _check_invoices_same_partner commercial_partner_of rest
      | Raise e => Raise e
      end
  end.

End Constraints.

(** The invoices agree on the value [f] gives them. *)
Definition agree {A : Type} (f : Invoice.t -> A) (invoices : list Invoice.t) : Prop :=
  forall a b, In a invoices -> In b invoices -> f a = f b.

(** The commercial partner behind the commercial partner of an invoice. *)
Definition commercial_partner (commercial_partner_of : Z -> Z) (invoice : Invoice.t) : Z :=
  commercial_partner_of (Invoice.commercial_partner_id invoice).
(* ================================================================= *)
(** ** Further methods: one clearing line, and the order of the lines *)

Module LineActions.

(** [action_use_all_amount_residual] (lines 629-644), on the clearing line
    [self] at position [i] of the lines of its wizard [clearing].
    [float_is_zero_digits value digits] stands for
    [float_is_zero(value, precision_digits=digits)] of line 633, which is
    given the rounding of the currency where a number of digits is meant:
    which amounts it takes for zero is left to the caller of the model.
    The result is the wizard after the action. *)
Definition action_use_all_amount_residual
           (float_is_zero_digits : Z -> Z -> bool)
           (clearing : Wizard.t) (i : nat) : Wizard.t :=
  match nth_error (Wizard.line_ids clearing) i with
  | None => clearing
  | Some self =>
      if float_is_zero_digits (Wizard.amount_to_clear clearing)
           (Currency.rounding (Wizard.company_currency_id clearing))
      then clearing
      else
        let amount_to_clear := - Wizard.amount_to_clear clearing in
        let amount_to_clear :=
          if Wizard.cmp_fnc self amount_to_clear (Lines.amount_residual self)
          then Lines.amount_residual self
          else amount_to_clear in
        Wizard.set_line_ids clearing
          (Wizard.write (Wizard.line_ids clearing) i
             (Lines.set_amount_to_clear self amount_to_clear))
  end.

(** [line.sequence = seq] *)
Definition set_sequence (self : Lines.t) (seq : Z) : Lines.t :=
  {| Lines.sequence := seq;
     Lines.move_line_id := Lines.move_line_id self;
     Lines.amount_to_clear := Lines.amount_to_clear self |}.

(** [records.sorted(key=key, reverse=reverse)] is Python's [sorted], a
    stable sort, also when reversed: records with equal keys keep their
    order.  [insert] puts [x], which came before the records of [l], in
    front of the first record it need not follow. *)
Fixpoint insert (key : Lines.t -> Z) (reverse : bool) (x : Lines.t)
         (l : list Lines.t) : list Lines.t :=
  match l with
  | [] => [x]
  | y :: rest =>
      if (if reverse then key y <=? key x else key x <=? key y)
      then x :: y :: rest
      else y :: insert key reverse x rest
  end.

Definition sorted (key : Lines.t -> Z) (reverse : bool) (l : list Lines.t)
  : list Lines.t :=
  fold_right (insert key reverse) [] l.

(** [for seq, line in enumerate(sorted_lines, start=seq): line.sequence = seq] *)
Fixpoint resequence (seq : Z) (sorted_lines : list Lines.t) : list Lines.t :=
  match sorted_lines with
  | [] => []
  | line :: rest => set_sequence line seq :: resequence (seq + 1) rest
  end.

(** [action_sort_by_residual] (lines 300-308).  The lines of the wizard are
    read in the order of their model, [sequence, id]: after the action that
    is the order of [sorted_lines], whose sequences increase. *)
Definition action_sort_by_residual (self : Wizard.t) (reverse : bool) : Wizard.t :=
  let sorted_lines := sorted Lines.amount_residual reverse (Wizard.line_ids self) in
  Wizard.set_line_ids self (resequence 10 sorted_lines).

(** [action_sort_by_residual_asc] and [action_sort_by_residual_desc] (lines
    310-316) *)
Definition action_sort_by_residual_asc (self : Wizard.t) : Wizard.t :=
  action_sort_by_residual self false.

Definition action_sort_by_residual_desc (self : Wizard.t) : Wizard.t :=
  action_sort_by_residual self true.

End LineActions.

(** A clearing line without its sequence: its move line and its amount. *)
Definition unsequenced (cl : Lines.t) : MoveLine.t * Z :=
  (Lines.move_line_id cl, Lines.amount_to_clear cl).

(** The order of two keys in a sort: ascending, or descending when
    reversed. *)
Definition in_order (reverse : bool) (a b : Z) : Prop :=
  if reverse then b <= a else a <= b.

(** The lines of [lines] with the residual [v], without their sequences. *)
Definition with_residual (v : Z) (lines : list Lines.t) : list (MoveLine.t * Z) :=
  map unsequenced (filter (fun cl => Lines.amount_residual cl =? v) lines).

(* ================================================================= *)
(** ** Further methods: confirming the wizard *)

(** A source line with something left to clear, a clearing line with an
    amount to clear. *)
Definition open_line (ml : MoveLine.t) : Prop := MoveLine.amount_residual ml <> 0.

Definition assigned (cl : Lines.t) : Prop := Lines.amount_to_clear cl <> 0.

Module Confirm.

(** The values [button_confirm] gives [am_model.create]: those of
    [_get_move_dict_vals] without the keys it deletes,
    [move_line_id_to_reconcile] of a journal item and [related_to_move] of
    a move. *)
Record item_vals := {
  iv_name : string;
  iv_debit : Z;
  iv_credit : Z;
  iv_account_id : Z;
  iv_partner_id : Z;
  iv_currency_id : Z
}.

Record entry_vals := {
  ev_currency_id : Z;
  ev_move_type : string;
  ev_journal_id : Z;
  ev_date : string;
  ev_ref : string;
  ev_line_ids : list item_vals
}.

Definition clean_line (move_line : line_val) : item_vals :=
  {| iv_name := lv_name move_line;
     iv_debit := debit move_line;
     iv_credit := credit move_line;
     iv_account_id := lv_account_id move_line;
     iv_partner_id := partner_id move_line;
     iv_currency_id := currency_id move_line |}.

Definition clean_move (move_data : move_val) : entry_vals :=
  {| ev_currency_id := mv_currency_id move_data;
     ev_move_type := move_type move_data;
     ev_journal_id := mv_journal_id move_data;
     ev_date := mv_date move_data;
     ev_ref := ref move_data;
     ev_line_ids := map clean_line (mv_line_ids move_data) |}.

(** The move [am_model.create] returns: its id and its [line_ids], the ids
    of its journal items. *)
Record created := { id : Z; line_ids : list Z }.

(** The window action returned; [domain] holds the ids of
    [("id", "in", res_ids)]. *)
Record action := {
  name : string;
  type : string;
  res_model : string;
  view_mode : string;
  target : string;
  domain : option (list Z);
  res_id : option Z
}.

(** [IndexError]: a list read beyond its end. *)
Inductive error := IndexError.

Section Database.

(** The database, and what the ORM does to it: [am_model.create(vals)],
    [move.action_post()] and [(move_line | line).reconcile()], records
    given by their ids. *)
Variable database : Type.

Variable create : database -> entry_vals -> created * database.

Variable action_post : database -> Z -> database.

Variable reconcile : database -> Z -> Z -> database.

(** [for idx, move_line in enumerate(move.line_ids):
       (move_line | to_concile_lines[idx]).reconcile()] (lines 339-340),
    from [idx] on. *)
Fixpoint reconcile_loop (db : database) (line_ids : list Z)
         (to_concile_lines : list Z) (idx : nat) : error + database :=
  match line_ids with
  | [] => inr db
  | move_line :: rest =>
      match nth_error to_concile_lines idx with
      | None => inl IndexError
      | Some line =>
          reconcile_loop (reconcile db move_line line) rest to_concile_lines (S idx)
      end
  end.

(** [for move_data in moves_data: ...] (lines 326-340), threading the
    database and [res_ids]. *)
Fixpoint moves_loop (db : database) (moves_data : list move_val)
         (res_ids : list Z) : error + database * list Z :=
  match moves_data with
  | [] => inr (db, res_ids)
  | move_data :: rest =>
      let to_concile_lines :=
        map move_line_id_to_reconcile (mv_line_ids move_data) in
      let '(move, db) := create db (clean_move move_data) in
      let db := action_post db (id move) in
      let res_ids := res_ids ++ [id move] in
      match reconcile_loop db (line_ids move) to_concile_lines 0 with
      | inl e => inl e
      | inr db => moves_loop db rest res_ids
      end
  end.

(** [button_confirm] (lines 318-358): the database after it and the action
    it returns, or the error it raises. *)
Definition button_confirm (db : database) (self : Wizard.t)
  : error + database * action :=
  let moves_data := Wizard._get_move_dict_vals self in
  match moves_loop db moves_data [] with
  | inl e => inl e
  | inr (db, res_ids) =>
      let action :=
        {| name := "Resulting Clearing Move";
           type := "ir.actions.act_window";
           res_model := "account.move";
           view_mode := "form";
           target := "current";
           domain := None;
           res_id := None |} in
      if (1 <? List.length res_ids)%nat
      then inr (db, {| name := name action;
                       type := type action;
                       res_model := res_model action;
                       view_mode := "tree,form";
                       target := target action;
                       domain := Some res_ids;
                       res_id := res_id action |})
      else match res_ids with
           | [] => inl IndexError
           | first :: _ =>
               inr (db, {| name := name action;
                           type := type action;
                           res_model := res_model action;
                           view_mode := view_mode action;
                           target := target action;
                           domain := domain action;
                           res_id := Some first |})
           end
  end.

End Database.

End Confirm.

(** A database that gives a move one journal item for each of the values
    it is created with. *)
Definition creates_the_lines {database : Type}
           (create : database -> Confirm.entry_vals -> Confirm.created * database)
  : Prop :=
  forall db vals,
    List.length (Confirm.line_ids (fst (create db vals)))
    = List.length (Confirm.ev_line_ids vals).

(** A concrete database: the next free id; a move takes it, its journal
    items the ids after it. *)
Definition counter_create (db : Z) (vals : Confirm.entry_vals)
  : Confirm.created * Z :=
  let n := List.length (Confirm.ev_line_ids vals) in
  ({| Confirm.id := db;
      Confirm.line_ids := map (fun k => db + 1 + Z.of_nat k) (seq 0 n) |},
   db + 1 + Z.of_nat n).

(** The value [_compute_can_use_line] (lines 619-626) gives [can_use_line]
    on the record [record] of the lines of [clearing]: [False] when the
    wizard has nothing to clear, else whether the line holds another amount
    than its residual. *)
Definition _compute_can_use_line (clearing : Wizard.t) (record : Lines.t) : bool :=
  if Wizard.amount_to_clear clearing =? 0 then false
  else negb (Lines.amount_residual record =? Lines.amount_to_clear record).

(* ================================================================= *)
(** ** The polarity of the candidates, read on their residuals *)

(** The source lines are on one side and the residuals of the clearing
    candidates on the other, none of them zero: the debit/credit polarity
    of the move lines themselves, whatever amounts to clear the candidates
    hold. *)
Definition residual_polarity (p : Spec.polarity) (self : Wizard.t) : Prop :=
  Forall (fun ml => Spec.source_side p (MoveLine.amount_residual ml)
                    /\ MoveLine.amount_residual ml <> 0)
         (Wizard.move_line_ids self)
  /\ Forall (fun cl => Spec.clearing_side p (Lines.amount_residual cl)
                       /\ Lines.amount_residual cl <> 0)
            (Wizard.line_ids self).

(** The debit total and the credit total of an entry. *)
Definition totals (mv : move_val) : Z * Z :=
  (Wizard.sum (map debit (mv_line_ids mv)), Wizard.sum (map credit (mv_line_ids mv))).

(** A wizard in which more is assigned than the source lines need: a
    document with two source lines of residual [-100], a clearing line of
    residual [80] not assigned yet and a clearing line of residual [250]
    assigned in full.  The target of the planner is [-50]. *)
Definition scenario_over_assigned : Wizard.t :=
  wizard_of [source_line 1 (-100); source_line 2 (-100)]
            [candidate 3 80 0; candidate 5 250 250].

(** The same wizard after the planner: the clearing line of residual [80]
    holds [-50], an amount on the side of the source lines. *)
Definition scenario_opposite_residuals : Wizard.t :=
  wizard_of [source_line 1 (-100); source_line 2 (-100)]
            [candidate 3 80 (-50); candidate 5 250 250].

(* ================================================================= *)
(** * Verified properties *)

(* ================================================================= *)
(** ** Rounding of Monetary values *)

Section Rounding.

Variable r : Z.
Hypothesis r_pos : 0 < r.

Lemma float_round_monetary (x : Z) :
  monetary r x -> FloatUtils.float_round x r = x.
Proof.
  intros [k ->]. unfold FloatUtils.float_round.
  assert (Hq : (2 * Z.abs (k * r) + r) / (2 * r) = Z.abs k).
  { symmetry. apply Z.div_unique with (r := r); [lia|].
    rewrite Z.abs_mul, (Z.abs_eq r) by lia. ring. }
  rewrite Hq.
  destruct (Z.lt_trichotomy k 0) as [Hk | [-> | Hk]].
  - rewrite Z.sgn_neg by nia. rewrite Z.abs_neq by lia. ring.
  - reflexivity.
  - rewrite Z.sgn_pos by nia. rewrite Z.abs_eq by lia. ring.
Qed.

Lemma float_is_zero_monetary (x : Z) :
  monetary r x -> FloatUtils.float_is_zero x r = (x =? 0).
Proof.
  intros Hx. unfold FloatUtils.float_is_zero.
  rewrite float_round_monetary by assumption.
  destruct Hx as [k ->].
  destruct (Z.eqb_spec (k * r) 0) as [E | E].
  - rewrite E. apply Z.ltb_lt. simpl. lia.
  - apply Z.ltb_ge.
    assert (Hk : 1 <= Z.abs k) by (destruct k; simpl in *; lia).
    rewrite Z.abs_mul, (Z.abs_eq r) by lia. nia.
Qed.

Lemma monetary_0 : monetary r 0.
Proof. apply Z.divide_0_r. Qed.

Lemma monetary_add (x y : Z) : monetary r x -> monetary r y -> monetary r (x + y).
Proof. apply Z.divide_add_r. Qed.

Lemma monetary_sub (x y : Z) : monetary r x -> monetary r y -> monetary r (x - y).
Proof. apply Z.divide_sub_r. Qed.

Lemma monetary_opp (x : Z) : monetary r x -> monetary r (- x).
Proof. intros H. apply Z.divide_opp_r, H. Qed.

Lemma monetary_min (x y : Z) : monetary r x -> monetary r y -> monetary r (Z.min x y).
Proof. intros Hx Hy. destruct (Z.min_spec x y) as [[_ ->] | [_ ->]]; assumption. Qed.

Lemma monetary_max (x y : Z) : monetary r x -> monetary r y -> monetary r (Z.max x y).
Proof. intros Hx Hy. destruct (Z.max_spec x y) as [[_ ->] | [_ ->]]; assumption. Qed.

End Rounding.

Create HintDb monetary.

#[local] Hint Resolve monetary_0 monetary_add monetary_sub monetary_opp
  monetary_min monetary_max : monetary.

(* ================================================================= *)
(** ** The ordered dictionary *)

Module OrderedDictFacts.
Import OrderedDict.

Lemma eqb_refl (k : MoveLine.t) : MoveLine.eqb k k = true.
Proof. apply Z.eqb_refl. Qed.

Lemma get_set_same (d : t) (k : MoveLine.t) (v : Z) : get (set d k v) k = v.
Proof.
  induction d as [| [k' v'] d IH]; simpl.
  - now rewrite eqb_refl.
  - destruct (MoveLine.eqb k' k) eqn:E; simpl; rewrite E; auto.
Qed.

Lemma get_set_other (d : t) (k k' : MoveLine.t) (v : Z) :
  MoveLine.eqb k k' = false -> get (set d k v) k' = get d k'.
Proof.
  unfold MoveLine.eqb. intros Hk.
  induction d as [| [k0 v0] d IH]; simpl.
  - unfold MoveLine.eqb. now rewrite Hk.
  - unfold MoveLine.eqb.
    destruct (Z.eqb_spec (MoveLine.id k0) (MoveLine.id k)) as [E | E]; simpl;
      unfold MoveLine.eqb.
    + rewrite E, Hk. reflexivity.
    + destruct (MoveLine.id k0 =? MoveLine.id k'); auto.
Qed.

Lemma keys_set (d : t) (k : MoveLine.t) (v : Z) :
  has d k -> keys (set d k v) = keys d.
Proof.
  unfold has, keys.
  induction d as [| [k' v'] d IH]; simpl; [tauto|].
  unfold MoveLine.eqb.
  destruct (Z.eqb_spec (MoveLine.id k') (MoveLine.id k)) as [E | E]; simpl.
  - reflexivity.
  - intros [H | H]; [congruence|]. now rewrite IH.
Qed.

Lemma key_ids_set (d : t) (k : MoveLine.t) (v : Z) :
  map MoveLine.id (keys (set d k v)) =
  if existsb (fun k' => MoveLine.eqb k' k) (keys d)
  then map MoveLine.id (keys d)
  else map MoveLine.id (keys d) ++ [MoveLine.id k].
Proof.
  unfold keys.
  induction d as [| [k' v'] d IH]; simpl; [reflexivity|].
  destruct (MoveLine.eqb k' k) eqn:E; simpl; [reflexivity|].
  rewrite IH. now destruct (existsb _ _).
Qed.

Lemma existsb_has (d : t) (k : MoveLine.t) :
  existsb (fun k' => MoveLine.eqb k' k) (keys d) = true <-> has d k.
Proof.
  unfold has. rewrite existsb_exists, in_map_iff. unfold MoveLine.eqb.
  split; intros [k' [H1 H2]]; exists k'.
  - apply Z.eqb_eq in H2. auto.
  - split; [tauto|]. apply Z.eqb_eq. tauto.
Qed.

(** A dictionary built by [set] from the empty one has one entry per id. *)
Lemma NoDup_set (d : t) (k : MoveLine.t) (v : Z) :
  NoDup (map MoveLine.id (keys d)) -> NoDup (map MoveLine.id (keys (set d k v))).
Proof.
  intros Hd. rewrite key_ids_set.
  destruct (existsb _ _) eqn:E; [assumption|].
  assert (Hn : ~ has d k).
  { intros H. apply existsb_has in H. congruence. }
  apply NoDup_rev in Hd. rewrite <- (rev_involutive (_ ++ _)).
  apply NoDup_rev. rewrite rev_app_distr. simpl. constructor; [|assumption].
  rewrite <- in_rev. exact Hn.
Qed.

(** A property of every stored amount survives a [set] of an amount that
    has it, and holds of every amount read. *)
Lemma Forall_set (P : Z -> Prop) (d : t) (k : MoveLine.t) (v : Z) :
  Forall (fun kv => P (snd kv)) d -> P v ->
  Forall (fun kv => P (snd kv)) (set d k v).
Proof.
  intros Hd Hv. induction Hd as [| [k' v'] d Hx Hd IH]; simpl.
  - constructor; auto.
  - destruct (MoveLine.eqb k' k); constructor; auto.
Qed.

Lemma Forall_get (P : Z -> Prop) (d : t) (k : MoveLine.t) :
  Forall (fun kv => P (snd kv)) d -> P 0 -> P (get d k).
Proof.
  intros Hd H0. induction Hd as [| [k' v'] d Hx Hd IH]; simpl; [assumption|].
  destruct (MoveLine.eqb k' k); auto.
Qed.

End OrderedDictFacts.

(* ================================================================= *)
(** ** Commit-time validation of the clearing candidates *)

(** C8: the constraint on one candidate raises the validation error exactly
    when [|amount_to_clear| > |amount_residual|], and otherwise passes
    without raising, whatever the signs; over a set of candidates it passes
    exactly when every candidate is within its residual. *)
Theorem check_amount_to_clear_iff :
  (forall record : Lines.t,
      (Lines._check_amount_to_clear [record] =
       Raise (ValidationError
                "Amount to clear cannot be greater than residual amount.")
       <-> Z.abs (Lines.amount_to_clear record) > Z.abs (Lines.amount_residual record))
      /\
      (Lines._check_amount_to_clear [record] = Ok tt
       <-> Z.abs (Lines.amount_to_clear record) <= Z.abs (Lines.amount_residual record)))
  /\
  (forall records : list Lines.t,
      Lines._check_amount_to_clear records = Ok tt
      <-> Forall (fun record =>
                    Z.abs (Lines.amount_to_clear record)
                    <= Z.abs (Lines.amount_residual record)) records).
Proof.
  split.
  - intros record. simpl.
    destruct (Z.gtb_spec (Z.abs (Lines.amount_to_clear record))
                         (Z.abs (Lines.amount_residual record))) as [H | H];
      split; split; intros H'; try reflexivity; try discriminate; lia.
  - induction records as [| record rest IH]; simpl.
    + split; auto.
    + destruct (Z.gtb_spec (Z.abs (Lines.amount_to_clear record))
                           (Z.abs (Lines.amount_residual record))) as [H | H].
      * split; [discriminate|]. intros H'. inversion H'; subst. lia.
      * rewrite IH. split; intros H'.
        -- constructor; assumption.
        -- now inversion H'.
Qed.

(* ================================================================= *)
(** ** The label rule *)

Lemma filter_strip_commute (parts : list string) :
  forallb (fun s => negb (blank s)) parts = true ->
  filter Str.truthy (map Str.strip parts) = map Str.strip (filter Str.truthy parts).
Proof.
  induction parts as [| s parts IH]; simpl; [reflexivity|].
  intros H. apply andb_true_iff in H. destruct H as [Hs H].
  rewrite (IH H). unfold blank in Hs.
  destruct s as [| c s]; simpl in *; [reflexivity|].
  destruct (Str.truthy (Str.strip (String c s))); [reflexivity | discriminate].
Qed.

(** C9, as stated, fails: a document reference holding only a space is not
    dropped; it stays in the label as an empty part between two
    separators. *)
Lemma build_line_name_keeps_blank_part :
  Wizard.build_line_name label_wizard blank_ref_line = "P -  - L"
  /\ Spec.build_line_name "P" " " "L" = "P - L"
  /\ Wizard.build_line_name label_wizard blank_ref_line
     <> Spec.build_line_name
          (snd (Wizard.names label_wizard))
          (label_ref blank_ref_line) (MoveLine.name blank_ref_line).
Proof. repeat split. vm_compute. discriminate. Qed.

(** C9, amended: for a move line none of whose parts is non-empty with white
    space only, the label is the non-empty parts of the stripped prefix,
    document reference and line description joined by [" - "], the
    description left out when it equals the reference. *)
Theorem build_line_name_spec (self : Wizard.t) (move_line : MoveLine.t) :
  forallb (fun s => negb (blank s)) (label_parts self move_line) = true ->
  Wizard.build_line_name self move_line =
  Spec.build_line_name
    (snd (Wizard.names self)) (label_ref move_line) (MoveLine.name move_line).
Proof.
  unfold Wizard.build_line_name, Spec.build_line_name, label_parts, label_ref.
  intros H.
  destruct (String.eqb _ _).
  - rewrite filter_strip_commute; [reflexivity|].
    simpl in *. repeat (apply andb_true_iff in H; destruct H as [? H]).
    repeat (apply andb_true_iff; split); auto.
  - rewrite filter_strip_commute; [reflexivity | exact H].
Qed.

Lemma build_line_name_spec_witness :
  forallb (fun s => negb (blank s)) (label_parts label_wizard plain_line) = true
  /\ Wizard.build_line_name label_wizard plain_line = "P - PAY/1".
Proof.
  split; [reflexivity|].
  rewrite (build_line_name_spec label_wizard plain_line); reflexivity.
Defined.

(* ================================================================= *)
(** ** The clearing-amount planner *)

Section Planner.

Variable self : Wizard.t.

Local Abbreviation r := (Currency.rounding (Wizard.company_currency_id self)).

Local Abbreviation assign := (Spec.assign r Spec.by_candidate).

Local Abbreviation plan := (Spec.plan r Spec.by_candidate).

Local Abbreviation reaches := (reaches r).

Lemma nth_error_middle (pre : list Lines.t) (l : Lines.t) (rest : list Lines.t) :
  nth_error (pre ++ l :: rest) (List.length pre) = Some l.
Proof. induction pre; simpl; auto. Qed.

Lemma write_middle (pre : list Lines.t) (l l' : Lines.t) (rest : list Lines.t) :
  Wizard.write (pre ++ l :: rest) (List.length pre) l' = pre ++ l' :: rest.
Proof. induction pre; simpl; [reflexivity | now f_equal]. Qed.

(** The loop body on a selected record is the assignment of the walk. *)
Lemma fill_body_assign (t : Z) (c : Lines.t) :
  (Lines.amount_to_clear c =? 0) = true ->
  Wizard.fill_body self t c = assign t c.
Proof.
  intros E. unfold Wizard.fill_body, Spec.assign, Spec.by_candidate, Wizard.fiz,
    Wizard.cmp_fnc.
  rewrite E. reflexivity.
Qed.

(** The loop over the selected records is one walk over the lines that
    skips the assigned ones. *)
Lemma fill_loop_plan (lines pre : list Lines.t) (t : Z) :
  Wizard.fill_loop self (Wizard.filtered_unset lines (List.length pre))
                   (pre ++ lines) t
  = (pre ++ fst (plan t lines), snd (plan t lines)).
Proof.
  revert pre t.
  induction lines as [| c rest IH]; intros pre t; simpl.
  - reflexivity.
  - assert (Hshift : forall c' t',
      Wizard.fill_loop self (Wizard.filtered_unset rest (S (List.length pre)))
                       (pre ++ c' :: rest) t'
      = (pre ++ c' :: fst (plan t' rest), snd (plan t' rest))).
    { intros c' t'.
      replace (S (List.length pre)) with (List.length (pre ++ [c']))
        by (rewrite length_app; simpl; lia).
      replace (pre ++ c' :: rest) with ((pre ++ [c']) ++ rest)
        by (rewrite <- app_assoc; reflexivity).
      rewrite IH, <- app_assoc. reflexivity. }
    destruct (Lines.amount_to_clear c =? 0) eqn:E; simpl.
    + rewrite nth_error_middle, (fill_body_assign t c E).
      destruct (assign t c) as [c' t1]. rewrite write_middle, Hshift.
      now destruct (plan t1 rest).
    + unfold Spec.assign at 1 2. rewrite E. simpl. rewrite Hshift.
      now destruct (plan t rest).
Qed.

Lemma action_fill_plan :
  Wizard.line_ids (Wizard.action_fill_amount_to_clear self)
  = fst (plan (- Wizard.amount_to_clear self) (Wizard.line_ids self)).
Proof.
  unfold Wizard.action_fill_amount_to_clear. simpl.
  now rewrite (fill_loop_plan (Wizard.line_ids self) []).
Qed.

(** What an assignment gives the candidate is what it takes off the target. *)
Lemma assign_conservation (t : Z) (c : Lines.t) :
  snd (assign t c) + Lines.amount_to_clear (fst (assign t c))
  = t + Lines.amount_to_clear c.
Proof.
  unfold Spec.assign.
  destruct (Z.eqb_spec (Lines.amount_to_clear c) 0) as [E | E]; simpl; [|lia].
  destruct (FloatUtils.float_is_zero t r); simpl; [lia|].
  destruct (if Lines.amount_residual c <? 0 then _ else _); simpl; lia.
Qed.

Lemma plan_conservation (lines : list Lines.t) (t : Z) :
  snd (plan t lines) + amounts (fst (plan t lines)) = t + amounts lines.
Proof.
  unfold amounts. revert t.
  induction lines as [| c rest IH]; intros t; simpl; [lia|].
  pose proof (assign_conservation t c) as Hc.
  destruct (assign t c) as [c' t1]. specialize (IH t1).
  destruct (plan t1 rest). simpl in *. lia.
Qed.

Lemma reaches_refl (t : Z) : reaches t t.
Proof. split; auto. Qed.

Lemma reaches_trans (a b c : Z) : reaches a b -> reaches b c -> reaches a c.
Proof.
  intros [H1 H2] [H3 H4]. split.
  - intros Ha. pose proof (H1 Ha) as Hb. subst b. auto.
  - auto.
Qed.

Lemma assign_reaches (t : Z) (c : Lines.t) : reaches t (snd (assign t c)).
Proof.
  unfold Spec.assign, Spec.by_candidate, reaches.
  destruct (Lines.amount_to_clear c =? 0); simpl; [|auto].
  destruct (FloatUtils.float_is_zero t r); simpl; [auto|].
  split; [discriminate|].
  destruct (Z.ltb_spec (Lines.amount_residual c) 0).
  - destruct (Z.leb_spec t (Lines.amount_residual c)); simpl; lia.
  - destruct (Z.geb_spec t (Lines.amount_residual c)); simpl; lia.
Qed.

Lemma plan_reaches (lines : list Lines.t) (t : Z) : reaches t (snd (plan t lines)).
Proof.
  revert t. induction lines as [| c rest IH]; intros t; simpl.
  - apply reaches_refl.
  - pose proof (assign_reaches t c) as Hc.
    destruct (assign t c) as [c' t1]. specialize (IH t1).
    destruct (plan t1 rest). simpl in *. eapply reaches_trans; eauto.
Qed.

Hypothesis r_pos : 0 < r.

Lemma zero_is_zero : FloatUtils.float_is_zero 0 r = true.
Proof. rewrite float_is_zero_monetary; auto with monetary. Qed.

(** An assigned candidate is left alone by an assignment from any target
    the walk reaches afterwards. *)
Lemma assign_stable (t t' : Z) (c : Lines.t) :
  reaches (snd (assign t c)) t' ->
  assign t' (fst (assign t c)) = (fst (assign t c), t').
Proof.
  unfold Spec.assign at 1 3 4. unfold Spec.by_candidate.
  destruct (Z.eqb_spec (Lines.amount_to_clear c) 0) as [E | E]; simpl.
  - destruct (FloatUtils.float_is_zero t r) eqn:Ht; simpl.
    + intros [Hz _]. rewrite (Hz Ht). unfold Spec.assign, Spec.by_candidate. simpl. now rewrite Ht.
    + destruct (Z.ltb_spec (Lines.amount_residual c) 0) as [Hneg | Hpos].
      * destruct (Z.leb_spec t (Lines.amount_residual c)); simpl; intros _;
          unfold Spec.assign, Spec.by_candidate; simpl.
        -- destruct (Z.eqb_spec (Lines.amount_residual c) 0); [lia | reflexivity].
        -- destruct (Z.eqb_spec t 0) as [-> |]; [|reflexivity].
           rewrite zero_is_zero in Ht. discriminate.
      * destruct (Z.geb_spec t (Lines.amount_residual c)) as [Hge | Hlt]; simpl.
        -- intros [_ Hnn]. unfold Spec.assign, Spec.by_candidate. simpl.
           destruct (Z.eqb_spec (Lines.amount_residual c) 0) as [Hr | Hr];
             [|reflexivity].
           simpl. unfold Lines.amount_residual in *. simpl. rewrite Hr in *.
           destruct (FloatUtils.float_is_zero t' r); [reflexivity|].
           simpl. destruct (Z.geb_spec t' 0); [|lia].
           now rewrite Z.sub_0_r.
        -- intros _. unfold Spec.assign, Spec.by_candidate. simpl.
           destruct (Z.eqb_spec t 0) as [-> |]; [|reflexivity].
           rewrite zero_is_zero in Ht. discriminate.
  - intros _. unfold Spec.assign.
    destruct (Z.eqb_spec (Lines.amount_to_clear c) 0); [contradiction|].
    reflexivity.
Qed.

(** Walking again from the target the first walk ended on changes nothing. *)
Lemma plan_stable (lines : list Lines.t) (t : Z) :
  plan (snd (plan t lines)) (fst (plan t lines)) = plan t lines.
Proof.
  revert t. induction lines as [| c rest IH]; intros t; [reflexivity|].
  simpl.
  pose proof (assign_stable t (snd (plan (snd (assign t c)) rest)) c
                (plan_reaches rest _)) as Hc.
  destruct (assign t c) as [c' t1]. simpl in Hc.
  specialize (IH t1). destruct (plan t1 rest) as [rest' t'].
  simpl in *. rewrite Hc, IH. reflexivity.
Qed.

End Planner.

Lemma action_fill_eq (self : Wizard.t) :
  Wizard.action_fill_amount_to_clear self
  = Wizard.set_line_ids self
      (fst (Spec.plan (Currency.rounding (Wizard.company_currency_id self))
              Spec.by_candidate
              (- Wizard.amount_to_clear self) (Wizard.line_ids self))).
Proof.
  unfold Wizard.action_fill_amount_to_clear.
  now rewrite (fill_loop_plan self (Wizard.line_ids self) []).
Qed.

(** C5, as stated, fails, whichever amount of the source side the sign is
    taken from.  On the first scenario of the specification (a document of
    residual [-100], a candidate of residual [150]) the residual of the
    source lines and the amount still to clear are negative: the comparator
    of the claim is less-or-equal, [100 <= 150] holds and the candidate
    would get its whole residual [150]; the planner assigns [100].  With a
    target of [-50] and a candidate of residual [80], the target is
    negative: the comparator of the claim is less-or-equal, [-50 <= 80]
    holds and the candidate would get [80]; the planner assigns [-50]. *)
Lemma planner_comparator_not_by_source_sign :
  let planned self :=
    map Lines.amount_to_clear
        (Wizard.line_ids (Wizard.action_fill_amount_to_clear self)) in
  let worded self selector :=
    map Lines.amount_to_clear
        (fst (Spec.plan (Currency.rounding (Wizard.company_currency_id self))
                selector (- Wizard.amount_to_clear self) (Wizard.line_ids self))) in
  (Spec.source_amount scenario_plan = -100
   /\ Wizard.amount_to_clear scenario_plan = -100
   /\ planned scenario_plan = [100]
   /\ worded scenario_plan (Spec.by_source_residual scenario_plan) = [150]
   /\ worded scenario_plan Spec.by_amount_to_clear = [150])
  /\ (- Wizard.amount_to_clear scenario_assigned = -50
      /\ planned scenario_assigned = [150; -50]
      /\ worded scenario_assigned Spec.by_target = [150; 80])
  /\ Wizard.line_ids (Wizard.action_fill_amount_to_clear scenario_plan)
     <> fst (Spec.plan
               (Currency.rounding (Wizard.company_currency_id scenario_plan))
               (Spec.by_source_residual scenario_plan)
               (- Wizard.amount_to_clear scenario_plan)
               (Wizard.line_ids scenario_plan))
  /\ Wizard.line_ids (Wizard.action_fill_amount_to_clear scenario_plan)
     <> fst (Spec.plan
               (Currency.rounding (Wizard.company_currency_id scenario_plan))
               Spec.by_amount_to_clear
               (- Wizard.amount_to_clear scenario_plan)
               (Wizard.line_ids scenario_plan))
  /\ Wizard.line_ids (Wizard.action_fill_amount_to_clear scenario_assigned)
     <> fst (Spec.plan
               (Currency.rounding (Wizard.company_currency_id scenario_assigned))
               Spec.by_target
               (- Wizard.amount_to_clear scenario_assigned)
               (Wizard.line_ids scenario_assigned)).
Proof. repeat split; vm_compute; discriminate. Qed.

(** C5, amended: the planner walks the candidates in their given order,
    skipping the assigned ones, and for each: a target that is zero within
    tolerance assigns [0]; otherwise the target is compared with the
    candidate's residual by less-or-equal when that residual is negative and
    by greater-or-equal otherwise; when the whole residual fits it is
    assigned and taken off the target; otherwise the remaining target is
    assigned and the target becomes [0]. *)
Theorem action_fill_walks_by_candidate_sign (self : Wizard.t) :
  Wizard.action_fill_amount_to_clear self
  = Wizard.set_line_ids self
      (fst (Spec.plan (Currency.rounding (Wizard.company_currency_id self))
              Spec.by_candidate
              (- Wizard.amount_to_clear self) (Wizard.line_ids self))).
Proof.
  unfold Wizard.action_fill_amount_to_clear.
  pose proof (fill_loop_plan self (Wizard.line_ids self) []
                (- Wizard.amount_to_clear self)) as H.
  simpl in H. rewrite H. reflexivity.
Qed.

(** C6: the planner is idempotent.  A second call, whose target is what the
    first call left unconsumed, changes no candidate: the wizard after two
    calls is the wizard after one. *)
Theorem action_fill_idempotent (self : Wizard.t) :
  0 < Currency.rounding (Wizard.company_currency_id self) ->
  Wizard.action_fill_amount_to_clear (Wizard.action_fill_amount_to_clear self)
  = Wizard.action_fill_amount_to_clear self.
Proof.
  intros Hr. rewrite (action_fill_eq (Wizard.action_fill_amount_to_clear self)).
  rewrite (action_fill_eq self). simpl.
  set (r := Currency.rounding (Wizard.company_currency_id self)) in *.
  set (t := - Wizard.amount_to_clear self).
  set (L := Wizard.line_ids self).
  assert (Ht : - Wizard.amount_to_clear
                   (Wizard.set_line_ids self
                      (fst (Spec.plan r Spec.by_candidate t L)))
               = snd (Spec.plan r Spec.by_candidate t L)).
  { pose proof (plan_conservation self L t) as Hc. fold r in Hc.
    unfold Wizard.amount_to_clear at 1. simpl.
    unfold t, Wizard.amount_to_clear in *. unfold amounts in Hc. fold L in Hc |- *.
    lia. }
  rewrite Ht, (plan_stable self Hr). reflexivity.
Qed.

Lemma action_fill_idempotent_witness :
  0 < Currency.rounding (Wizard.company_currency_id scenario_plan)
  /\ Wizard.action_fill_amount_to_clear
       (Wizard.action_fill_amount_to_clear scenario_plan)
     = Wizard.action_fill_amount_to_clear scenario_plan.
Proof.
  split; [reflexivity|].
  apply (action_fill_idempotent scenario_plan). reflexivity.
Defined.

(* ================================================================= *)
(** ** One transfer of the allocation engine *)

Section Transfer.

Variable self : Wizard.t.

Local Abbreviation r := (Currency.rounding (Wizard.company_currency_id self)).

Lemma ml_amount_residual_step (st : Wizard.loop_state) (k : MoveLine.t) :
  Wizard.ml_amount_residual (Wizard.clear_step self st k)
  = Wizard.ml_amount_residual st - Wizard.used_amount self st k.
Proof.
  unfold Wizard.clear_step. now destruct (Wizard.get_debit_credit _ _).
Qed.

Lemma cl_balance_step (st : Wizard.loop_state) (k : MoveLine.t) :
  Wizard.cl_balance (Wizard.clear_step self st k)
  = Wizard.cl_balance st + Wizard.clear_sign st k * Wizard.used_amount self st k.
Proof.
  unfold Wizard.clear_step. now destruct (Wizard.get_debit_credit _ _).
Qed.

Lemma availability_step (st : Wizard.loop_state) (k : MoveLine.t) :
  Wizard.availability (Wizard.clear_step self st k)
  = OrderedDict.set (Wizard.availability st) k
      (OrderedDict.get (Wizard.availability st) k + Wizard.used_amount self st k).
Proof.
  unfold Wizard.clear_step. now destruct (Wizard.get_debit_credit _ _).
Qed.

Lemma used_log_step (st : Wizard.loop_state) (k : MoveLine.t) :
  Wizard.used_log (Wizard.clear_step self st k)
  = Wizard.used_log st ++ [(MoveLine.id k, Wizard.used_amount self st k)].
Proof.
  unfold Wizard.clear_step. now destruct (Wizard.get_debit_credit _ _).
Qed.

Lemma related_step (st : Wizard.loop_state) (k : MoveLine.t) :
  exists lv,
    Wizard.related_move_line_vals (Wizard.clear_step self st k)
    = Wizard.related_move_line_vals st ++ [lv]
    /\ move_line_id_to_reconcile lv = MoveLine.id k
    /\ (debit lv, credit lv)
       = Wizard.get_debit_credit self (Wizard.used_amount self st k).
Proof.
  unfold Wizard.clear_step.
  destruct (Wizard.get_debit_credit _ _) as [d c].
  eexists. simpl. repeat split.
Qed.

(** An invariant of the loop body is an invariant of the loop. *)
Lemma clear_loop_invariant (P : Wizard.loop_state -> Prop) :
  (forall st k,
      P st ->
      Wizard.fiz self (Wizard.ml_amount_residual st) = false ->
      Wizard.fiz self (OrderedDict.get (Wizard.availability st) k) = false ->
      P (Wizard.clear_step self st k)) ->
  forall keys st, P st -> P (Wizard.clear_loop self keys st).
Proof.
  intros Hstep keys.
  induction keys as [| k keys IH]; intros st Hst; simpl; [assumption|].
  destruct (Wizard.fiz self (Wizard.ml_amount_residual st)) eqn:Em; [assumption|].
  destruct (Wizard.fiz self (OrderedDict.get (Wizard.availability st) k)) eqn:Ea;
    auto.
Qed.

Lemma clear_sign_cases (st : Wizard.loop_state) (k : MoveLine.t) :
  let m := Wizard.ml_amount_residual st in
  let a := OrderedDict.get (Wizard.availability st) k in
  (Wizard.clear_sign st k = -1 /\ (m < 0 < a \/ a < 0 < m))
  \/ (Wizard.clear_sign st k = 1 /\ ~ (m < 0 < a \/ a < 0 < m)).
Proof.
  unfold Wizard.clear_sign, Wizard.get_clear_sign_modifier. simpl.
  rewrite !Z.gtb_ltb.
  destruct (Z.ltb_spec (Wizard.ml_amount_residual st) 0);
    destruct (Z.ltb_spec 0 (OrderedDict.get (Wizard.availability st) k));
    destruct (Z.ltb_spec 0 (Wizard.ml_amount_residual st));
    destruct (Z.ltb_spec (OrderedDict.get (Wizard.availability st) k) 0);
    simpl; lia.
Qed.

Hypothesis r_pos : 0 < r.

Lemma fiz_monetary (x : Z) : monetary r x -> Wizard.fiz self x = (x =? 0).
Proof. apply float_is_zero_monetary, r_pos. Qed.

Lemma round_monetary (x : Z) :
  monetary r x -> Currency.round (Wizard.company_currency_id self) x = x.
Proof. apply float_round_monetary, r_pos. Qed.

Lemma get_debit_credit_monetary (x : Z) :
  monetary r x -> Wizard.get_debit_credit self x = (Z.max x 0, Z.max (- x) 0).
Proof.
  intros Hx. unfold Wizard.get_debit_credit.
  rewrite (fiz_monetary x Hx), Z.gtb_ltb.
  destruct (Z.ltb_spec 0 x); [f_equal; lia|].
  destruct (Z.eqb_spec x 0); f_equal; lia.
Qed.

(** The amount of a transfer between Monetary values: taken in the direction
    of the source residual, capped by it and by the aligned availability. *)
Lemma used_amount_monetary (st : Wizard.loop_state) (k : MoveLine.t) :
  let m := Wizard.ml_amount_residual st in
  let a := OrderedDict.get (Wizard.availability st) k in
  let cs := Wizard.clear_sign st k in
  monetary r m -> monetary r a ->
  monetary r (Wizard.used_amount self st k)
  /\ Wizard.used_amount self st k
     = if m >? 0 then Z.min m (cs * a) else Z.max m (cs * a).
Proof.
  intros m a cs Hm Ha.
  assert (Hca : monetary r (cs * a)).
  { destruct (clear_sign_cases st k) as [[E _] | [E _]];
      subst cs; rewrite E.
    - replace (-1 * a) with (- a) by lia. now apply monetary_opp.
    - now replace (1 * a) with a by lia. }
  unfold Wizard.used_amount, Wizard.get_amount_to_use.
  fold m a cs.
  destruct (m >? 0).
  - rewrite round_monetary by (now apply monetary_min).
    split; [now apply monetary_min | reflexivity].
  - rewrite round_monetary by (now apply monetary_max).
    split; [now apply monetary_max | reflexivity].
Qed.

End Transfer.

(** C2, as stated, fails: in the first scenario the transfer is [-100] and
    the availability goes from [150] to [50], not to [150 - (-100)]. *)
Lemma transfer_adds_used_amount :
  let k := payment_line 3 150 in
  let st' := Wizard.clear_step scenario_plan transfer_state k in
  Wizard.clear_loop scenario_plan [k] transfer_state = st'
  /\ Wizard.used_amount scenario_plan transfer_state k = -100
  /\ OrderedDict.get (Wizard.availability st') k = 50
  /\ OrderedDict.get (Wizard.availability st') k
     <> OrderedDict.get (Wizard.availability transfer_state) k
        - Wizard.used_amount scenario_plan transfer_state k.
Proof. repeat split. vm_compute. discriminate. Qed.

(** C2, amended: after a transfer of [used_amount] from a clearing candidate
    to a source line, the candidate's remaining availability is its previous
    availability plus [used_amount] (the signed amount is added), the
    source line's remaining residual is decremented by [used_amount], and
    [used_amount * clear_sign] is accumulated into the settled balance. *)
Theorem transfer_updates (self : Wizard.t) (st : Wizard.loop_state) (k : MoveLine.t) :
  let st' := Wizard.clear_step self st k in
  let used_amount := Wizard.used_amount self st k in
  OrderedDict.get (Wizard.availability st') k
  = OrderedDict.get (Wizard.availability st) k + used_amount
  /\ Wizard.ml_amount_residual st' = Wizard.ml_amount_residual st - used_amount
  /\ Wizard.cl_balance st'
     = Wizard.cl_balance st + used_amount * Wizard.clear_sign st k.
Proof.
  simpl. rewrite availability_step, OrderedDictFacts.get_set_same,
    ml_amount_residual_step, cl_balance_step.
  repeat split. lia.
Qed.

(* ================================================================= *)
(** ** The loop over the ledger *)

Section Loop.

Variable self : Wizard.t.

Local Abbreviation r := (Currency.rounding (Wizard.company_currency_id self)).

Lemma sum_app (l1 l2 : list Z) :
  Wizard.sum (l1 ++ l2) = Wizard.sum l1 + Wizard.sum l2.
Proof. induction l1; simpl; lia. Qed.

Lemma get_same_id (d : OrderedDict.t) (k k' : MoveLine.t) :
  MoveLine.id k = MoveLine.id k' -> OrderedDict.get d k = OrderedDict.get d k'.
Proof.
  intros E. induction d as [| [k0 v0] d IH]; simpl; [reflexivity|].
  unfold MoveLine.eqb. now rewrite E, IH.
Qed.

Lemma used_against_app (id : Z) (l1 l2 : list (Z * Z)) :
  Spec.used_against id (l1 ++ l2)
  = Spec.used_against id l1 + Spec.used_against id l2.
Proof.
  unfold Spec.used_against. now rewrite filter_app, map_app, sum_app.
Qed.

(** The ledger is what it started as plus what was used, key by key. *)
Lemma ledger_state_step (d0 : OrderedDict.t) (st : Wizard.loop_state)
      (k : MoveLine.t) :
  ledger_state d0 st -> ledger_state d0 (Wizard.clear_step self st k).
Proof.
  intros H k'. rewrite availability_step, used_log_step, used_against_app.
  unfold Spec.used_against at 2. simpl.
  destruct (Z.eqb_spec (MoveLine.id k) (MoveLine.id k')) as [E | E].
  - rewrite <- (get_same_id _ k k' E), OrderedDictFacts.get_set_same.
    rewrite (H k), E, (get_same_id d0 k k' E). simpl. lia.
  - rewrite OrderedDictFacts.get_set_other
      by (unfold MoveLine.eqb; now apply Z.eqb_neq).
    rewrite (H k'). simpl. lia.
Qed.

Lemma logged_state_step (st : Wizard.loop_state) (k : MoveLine.t) :
  logged_state st -> logged_state (Wizard.clear_step self st k).
Proof.
  unfold logged_state. intros H.
  destruct (related_step self st k) as [lv [-> [Hid _]]].
  rewrite used_log_step, !map_app, H. simpl. now rewrite Hid.
Qed.

Hypothesis r_pos : 0 < r.

Lemma monetary_get (d : OrderedDict.t) (k : MoveLine.t) :
  Forall (fun kv => monetary r (snd kv)) d -> monetary r (OrderedDict.get d k).
Proof.
  intros H. apply (OrderedDictFacts.Forall_get (monetary r)); auto with monetary.
Qed.

Lemma not_fiz_monetary (x : Z) :
  monetary r x -> Wizard.fiz self x = false -> x <> 0.
Proof.
  intros Hx. rewrite (fiz_monetary self r_pos x Hx). apply Z.eqb_neq.
Qed.

Lemma monetary_state_step (m0 : Z) (st : Wizard.loop_state) (k : MoveLine.t) :
  monetary_state r m0 st ->
  Wizard.fiz self (Wizard.ml_amount_residual st) = false ->
  Wizard.fiz self (OrderedDict.get (Wizard.availability st) k) = false ->
  monetary_state r m0 (Wizard.clear_step self st k).
Proof.
  intros (Hm & Hb & Hd & Hbtw & Hlog) Em Ea.
  pose proof (monetary_get _ k Hd) as Ha.
  pose proof (not_fiz_monetary _ Hm Em) as Hm0.
  pose proof (not_fiz_monetary _ Ha Ea) as Ha0.
  destruct (used_amount_monetary self r_pos st k Hm Ha) as [Hu Eu].
  unfold monetary_state.
  rewrite ml_amount_residual_step, cl_balance_step, availability_step,
    used_log_step.
  assert (Hcu : monetary r (Wizard.clear_sign st k * Wizard.used_amount self st k)).
  { destruct (clear_sign_cases st k) as [[E _] | [E _]]; rewrite E.
    - replace (-1 * Wizard.used_amount self st k)
        with (- Wizard.used_amount self st k) by lia.
      now apply monetary_opp.
    - now replace (1 * Wizard.used_amount self st k)
        with (Wizard.used_amount self st k) by lia. }
  repeat split.
  - now apply monetary_sub.
  - now apply monetary_add.
  - apply (OrderedDictFacts.Forall_set (monetary r)); [assumption|].
    now apply monetary_add.
  - unfold between in *. rewrite Eu, Z.gtb_ltb.
    destruct (clear_sign_cases st k) as [[E C] | [E C]]; rewrite E;
      destruct (Z.ltb_spec 0 (Wizard.ml_amount_residual st)); lia.
  - unfold Spec.used_total in *. rewrite map_app, sum_app, Hlog. simpl. lia.
Qed.

Lemma polar_state_step (p : Spec.polarity) (m0 : Z) (st : Wizard.loop_state)
      (k : MoveLine.t) :
  monetary_state r m0 st -> polar_state p st ->
  Wizard.fiz self (Wizard.ml_amount_residual st) = false ->
  Wizard.fiz self (OrderedDict.get (Wizard.availability st) k) = false ->
  polar_state p (Wizard.clear_step self st k).
Proof.
  intros (Hm & Hb & Hd & Hbtw & Hlog) (Hs & Hc & Hl & Hbal) Em Ea.
  pose proof (monetary_get _ k Hd) as Ha.
  pose proof (not_fiz_monetary _ Hm Em) as Hm0.
  pose proof (not_fiz_monetary _ Ha Ea) as Ha0.
  destruct (used_amount_monetary self r_pos st k Hm Ha) as [Hu Eu].
  assert (Hca : Spec.clearing_side p (OrderedDict.get (Wizard.availability st) k)).
  { apply (OrderedDictFacts.Forall_get (Spec.clearing_side p)); [assumption|].
    polar p; lia. }
  destruct (related_step self st k) as [lv [Hrel [_ Hdc]]].
  rewrite (get_debit_credit_monetary self r_pos _ Hu) in Hdc.
  assert (Hnet : Spec.net lv = Wizard.used_amount self st k).
  { unfold Spec.net. inversion Hdc. lia. }
  unfold polar_state.
  rewrite ml_amount_residual_step, cl_balance_step, availability_step,
    used_log_step, Hrel, map_app, sum_app. simpl. rewrite Hnet.
  rewrite Z.gtb_ltb in Eu.
  destruct (clear_sign_cases st k) as [[E C] | [E C]]; rewrite E in *;
    [| polar p; lia].
  repeat split.
  - polar p;
      destruct (Z.ltb_spec 0 (Wizard.ml_amount_residual st)); lia.
  - apply (OrderedDictFacts.Forall_set (Spec.clearing_side p)); [assumption|].
    polar p;
      destruct (Z.ltb_spec 0 (Wizard.ml_amount_residual st)); lia.
  - apply Forall_app. split; [assumption|]. constructor; [|constructor].
    polar p;
      destruct (Z.ltb_spec 0 (Wizard.ml_amount_residual st)); lia.
  - lia.
Qed.

(** The loop makes the transfer on a key exactly when neither the source
    residual nor the availability under the key is zero within tolerance. *)
Lemma clear_loop_transfer (st : Wizard.loop_state) (k : MoveLine.t)
      (keys : list MoveLine.t) :
  Wizard.fiz self (Wizard.ml_amount_residual st) = false ->
  Wizard.fiz self (OrderedDict.get (Wizard.availability st) k) = false ->
  Wizard.clear_loop self (k :: keys) st
  = Wizard.clear_loop self keys (Wizard.clear_step self st k).
Proof. intros Em Ea. simpl. now rewrite Em, Ea. Qed.

(** Between Monetary amounts of opposite signs a transfer lowers the
    magnitude of the availability and of the source residual by the
    magnitude of [used_amount]. *)
Lemma transfer_lowers_magnitudes (st : Wizard.loop_state) (k : MoveLine.t) :
  let m := Wizard.ml_amount_residual st in
  let a := OrderedDict.get (Wizard.availability st) k in
  let u := Wizard.used_amount self st k in
  monetary r m -> monetary r a -> m < 0 < a \/ a < 0 < m ->
  Z.abs (a + u) = Z.abs a - Z.abs u /\ Z.abs (m - u) = Z.abs m - Z.abs u.
Proof.
  intros m a u Hm Ha Hopp.
  destruct (used_amount_monetary self r_pos st k Hm Ha) as [_ Eu].
  fold m a u in Eu. rewrite Z.gtb_ltb in Eu.
  destruct (clear_sign_cases st k) as [[E _] | [_ C]]; [|contradiction].
  rewrite E in Eu. fold m a in Hopp.
  destruct (Z.ltb_spec 0 m); lia.
Qed.

End Loop.

(* ================================================================= *)
(** ** The loop over the source lines and the loop over the documents *)

Section RunInvariant.

Variable self : Wizard.t.

(** What is assumed of every source line. *)
Variable Src : MoveLine.t -> Prop.

(** An invariant of a run: of the source lines processed so far in the
    current document, the ledger, the journal items of the current document
    and the log. *)
Variable J : list MoveLine.t -> OrderedDict.t -> list line_val -> Wizard.run_log -> Prop.

Hypothesis J_step :
  forall processed ml avail lv log,
    Src ml -> J processed avail lv log ->
    let st := Wizard.clear_move_line self avail ml in
    J (processed ++ [ml]) (Wizard.availability st)
      (lv ++ Wizard.move_line_vals self ml st)
      (log ++ [(ml, Wizard.used_log st)]).

Hypothesis J_next :
  forall processed avail lv log, J processed avail lv log -> J [] avail [] log.

Lemma lines_loop_invariant (mls processed : list MoveLine.t)
      (avail : OrderedDict.t) (lv : list line_val) (log : Wizard.run_log) :
  Forall Src mls -> J processed avail lv log ->
  let '(a, l, g) := Wizard.lines_loop self mls avail lv log in
  J (processed ++ mls) a l g.
Proof.
  revert processed avail lv log.
  induction mls as [| ml mls IH]; intros processed avail lv log Hs HJ; simpl.
  - now rewrite app_nil_r.
  - inversion Hs as [| ? ? Hml Hrest]; subst.
    specialize (IH (processed ++ [ml]) _ _ _ Hrest (J_step _ _ _ _ _ Hml HJ)).
    now rewrite <- app_assoc in IH.
Qed.

Lemma moves_loop_invariant (groups : list (Move.t * list MoveLine.t))
      (avail : OrderedDict.t) (mvs : list move_val) (log : Wizard.run_log) :
  Forall (fun grp => Forall Src (snd grp)) groups -> J [] avail [] log ->
  let '(a, m, g) := Wizard.moves_loop self groups avail mvs log in
  J [] a [] g
  /\ forall mv, In mv m ->
       In mv mvs
       \/ exists grp a' g',
            In grp groups /\ J (snd grp) a' (mv_line_ids mv) g'.
Proof.
  revert avail mvs log.
  induction groups as [| [move mls] groups IH]; intros avail mvs log Hs HJ; simpl.
  - split; auto.
  - inversion Hs as [| ? ? Hmls Hrest]; subst. simpl in Hmls.
    pose proof (lines_loop_invariant mls [] avail [] log Hmls HJ) as HL.
    destruct (Wizard.lines_loop self mls avail [] log) as [[a l] g].
    simpl in HL.
    destruct l as [| lv0 l].
    + specialize (IH a mvs g Hrest (J_next _ _ _ _ HL)).
      destruct (Wizard.moves_loop self groups a mvs g) as [[a' m'] g'].
      destruct IH as [IH1 IH2]. split; [assumption|].
      intros mv Hmv. destruct (IH2 mv Hmv) as [H | (grp & a0 & g0 & Hin & H)];
        [now left | right]. exists grp, a0, g0. split; [now right | assumption].
    + match goal with
      | |- context [Wizard.moves_loop self groups a ?M g] =>
          specialize (IH a M g Hrest (J_next _ _ _ _ HL));
          destruct (Wizard.moves_loop self groups a M g) as [[a' m'] g']
      end.
      destruct IH as [IH1 IH2]. split; [assumption|].
      intros mv Hmv. destruct (IH2 mv Hmv) as [H | (grp & a0 & g0 & Hin & H)].
      * apply in_app_or in H. destruct H as [H | [H | []]]; [now left|].
        right. exists (move, mls), a, g. subst mv. simpl. split; [now left|].
        exact HL.
      * right. exists grp, a0, g0. split; [now right | assumption].
Qed.

End RunInvariant.

Lemma groupby_Forall (P : MoveLine.t -> Prop) (mls : list MoveLine.t) :
  Forall P mls -> Forall (fun grp => Forall P (snd grp)) (groupby mls).
Proof.
  induction 1 as [| ml mls Hml Hmls IH]; simpl; [constructor|].
  destruct (groupby mls) as [| [move group] groups].
  - repeat constructor. assumption.
  - inversion IH as [| ? ? Hg Hgs]; subst. simpl in Hg.
    destruct (_ =? _); repeat constructor; assumption.
Qed.

Lemma groupby_concat (mls : list MoveLine.t) :
  List.concat (map snd (groupby mls)) = mls.
Proof.
  induction mls as [| ml mls IH]; simpl; [reflexivity|].
  destruct (groupby mls) as [| [move group] groups]; simpl in *.
  - now rewrite <- IH.
  - destruct (_ =? _); simpl; now rewrite <- IH.
Qed.

(** The run invariant at the end of a run, and at every entry of it. *)
Lemma run_invariant (self : Wizard.t) (Src : MoveLine.t -> Prop)
      (J : list MoveLine.t -> OrderedDict.t -> list line_val -> Wizard.run_log -> Prop) :
  (forall processed ml avail lv log,
      Src ml -> J processed avail lv log ->
      let st := Wizard.clear_move_line self avail ml in
      J (processed ++ [ml]) (Wizard.availability st)
        (lv ++ Wizard.move_line_vals self ml st)
        (log ++ [(ml, Wizard.used_log st)])) ->
  (forall processed avail lv log, J processed avail lv log -> J [] avail [] log) ->
  Forall Src (Wizard.move_line_ids self) ->
  J [] (Wizard.clear_lines_availability self) [] [] ->
  let '(a, m, g) := Wizard.run self in
  J [] a [] g
  /\ forall mv, In mv m ->
       exists grp a' g',
         In grp (groupby (Wizard.move_line_ids self))
         /\ J (snd grp) a' (mv_line_ids mv) g'.
Proof.
  intros Hstep Hnext Hsrc Hinit. unfold Wizard.run.
  pose proof (moves_loop_invariant self Src J Hstep Hnext
                (groupby (Wizard.move_line_ids self))
                (Wizard.clear_lines_availability self) [] []
                (groupby_Forall Src _ Hsrc) Hinit) as H.
  destruct (Wizard.moves_loop _ _ _ _ _) as [[a m] g].
  destruct H as [H1 H2]. split; [assumption|].
  intros mv Hmv. destruct (H2 mv Hmv) as [[] | H]. exact H.
Qed.

(* ================================================================= *)
(** ** One source line *)

Section SourceLine.

Variable self : Wizard.t.

Local Abbreviation r := (Currency.rounding (Wizard.company_currency_id self)).

Hypothesis r_pos : 0 < r.

Lemma clear_move_line_monetary (avail : OrderedDict.t) (ml : MoveLine.t) :
  Forall (fun kv => monetary r (snd kv)) avail ->
  monetary r (MoveLine.amount_residual ml) ->
  monetary_state r (MoveLine.amount_residual ml)
                 (Wizard.clear_move_line self avail ml).
Proof.
  intros Hd Hm. unfold Wizard.clear_move_line.
  apply clear_loop_invariant.
  - intros st k. now apply monetary_state_step.
  - unfold monetary_state, between, Spec.used_total. simpl.
    repeat split; auto with monetary; lia.
Qed.

Lemma clear_move_line_polar (p : Spec.polarity) (avail : OrderedDict.t)
      (ml : MoveLine.t) :
  ledger_valid r p avail -> source_valid r p ml ->
  polar_state p (Wizard.clear_move_line self avail ml).
Proof.
  intros [Hd Hc] [Hm Hs]. unfold Wizard.clear_move_line.
  refine (proj2 (clear_loop_invariant self
            (fun st => monetary_state r (MoveLine.amount_residual ml) st
                       /\ polar_state p st) _ _ _ _)).
  - intros st k [H1 H2] Em Ea. split.
    + now apply monetary_state_step.
    + now apply (polar_state_step self r_pos p (MoveLine.amount_residual ml)).
  - split.
    + unfold monetary_state, between, Spec.used_total. simpl.
      repeat split; auto with monetary; lia.
    + unfold polar_state. simpl. repeat split; auto.
Qed.

Lemma clear_move_line_ledger (avail : OrderedDict.t) (ml : MoveLine.t) :
  ledger_state avail (Wizard.clear_move_line self avail ml).
Proof.
  unfold Wizard.clear_move_line. apply clear_loop_invariant.
  - intros st k H _ _. now apply ledger_state_step.
  - intros k. unfold Spec.used_against. simpl. lia.
Qed.

Lemma clear_move_line_logged (avail : OrderedDict.t) (ml : MoveLine.t) :
  logged_state (Wizard.clear_move_line self avail ml).
Proof.
  unfold Wizard.clear_move_line. apply clear_loop_invariant.
  - intros st k H _ _. now apply logged_state_step.
  - reflexivity.
Qed.

(** The journal items of a source line net to zero when the settled balance
    is the opposite of the net of the clearing items. *)
Lemma move_line_vals_net (ml : MoveLine.t) (st : Wizard.loop_state) :
  monetary r (Wizard.cl_balance st) ->
  Wizard.cl_balance st
  + Wizard.sum (map Spec.net (Wizard.related_move_line_vals st)) = 0 ->
  Wizard.sum (map Spec.net (Wizard.move_line_vals self ml st)) = 0.
Proof.
  intros Hb Hbal. unfold Wizard.move_line_vals.
  rewrite (get_debit_credit_monetary self r_pos _ Hb).
  destruct (_ && _); simpl; [reflexivity|].
  unfold Spec.net at 1. simpl. lia.
Qed.

End SourceLine.

Lemma balanced_net (lines : list line_val) :
  Spec.balanced lines <-> Wizard.sum (map Spec.net lines) = 0.
Proof.
  unfold Spec.balanced.
  assert (H : Wizard.sum (map Spec.net lines)
              = Wizard.sum (map debit lines) - Wizard.sum (map credit lines)).
  { induction lines as [| lv lines IH]; simpl; [reflexivity|].
    rewrite IH. unfold Spec.net. lia. }
  lia.
Qed.

Lemma fill_availability_Forall (P : Z -> Prop) (lines : list Lines.t)
      (d : OrderedDict.t) :
  Forall (fun cl => P (Lines.amount_to_clear cl)) lines ->
  Forall (fun kv => P (snd kv)) d ->
  Forall (fun kv => P (snd kv)) (Wizard.fill_availability d lines).
Proof.
  intros Hl. revert d.
  induction Hl as [| cl lines Hcl Hl IH]; intros d Hd; simpl; [assumption|].
  destruct (_ =? _); auto using OrderedDictFacts.Forall_set.
Qed.

(* ================================================================= *)
(** ** Balance of the entries *)

(** C1, amended: in an allocation run over Monetary amounts in which the
    source residuals are on one side and the amounts to clear of the
    clearing lines on the other (the amounts the lines hold, not the
    residuals of their move lines), every journal entry emitted by
    [_get_move_dict_vals] is balanced: the debits of its lines sum to
    exactly the credits of its lines. *)
Theorem entries_balanced (self : Wizard.t) (p : Spec.polarity) :
  Spec.valid_run p self ->
  Forall (fun mv => Spec.balanced (mv_line_ids mv))
         (Wizard._get_move_dict_vals self).
Proof.
  intros [(Hr & Hms & Hmc) [Hps Hpc]].
  set (r := Currency.rounding (Wizard.company_currency_id self)) in *.
  pose proof (run_invariant self (source_valid r p)
    (fun _ a lv _ => ledger_valid r p a /\ Wizard.sum (map Spec.net lv) = 0)) as H.
  simpl in H. unfold Wizard._get_move_dict_vals.
  destruct (Wizard.run self) as [[a m] g]. simpl.
  apply Forall_forall. intros mv Hmv.
  destruct H as [_ H].
  - intros _ ml avail lv log Hml [Hd Hnet].
    pose proof (clear_move_line_monetary self Hr avail ml (proj1 Hd) (proj1 Hml))
      as (_ & Hb & Hd' & _).
    pose proof (clear_move_line_polar self Hr p avail ml Hd Hml)
      as (_ & Hc' & _ & Hbal).
    split; [split; assumption|].
    rewrite map_app, sum_app, Hnet, (move_line_vals_net self Hr ml _ Hb Hbal).
    reflexivity.
  - intros _ avail lv log [Hd _]. split; [assumption | reflexivity].
  - apply Forall_forall. intros ml Hml. split.
    + exact (proj1 (Forall_forall _ _) Hms ml Hml).
    + exact (proj1 (Forall_forall _ _) Hps ml Hml).
  - split; [split | reflexivity].
    + apply (fill_availability_Forall (monetary r)); [assumption | constructor].
    + apply (fill_availability_Forall (Spec.clearing_side p));
        [assumption | constructor].
  - destruct (H mv Hmv) as (_ & _ & _ & _ & _ & Hnet).
    now apply balanced_net.
Qed.

Lemma scenario_split_valid : Spec.valid_run Spec.SourceNegative scenario_split.
Proof.
  unfold Spec.valid_run, Spec.monetary_run, Spec.opposite_polarity, monetary.
  simpl. repeat split; repeat constructor; simpl; try lia;
    apply Z.divide_1_l.
Defined.

Lemma entries_balanced_witness :
  Spec.valid_run Spec.SourceNegative scenario_split
  /\ Forall (fun mv => Spec.balanced (mv_line_ids mv))
            (Wizard._get_move_dict_vals scenario_split).
Proof.
  split; [exact scenario_split_valid|].
  apply (entries_balanced scenario_split Spec.SourceNegative).
  exact scenario_split_valid.
Defined.

(** C1, as stated, fails: candidates of the opposite polarity to the source
    lines may hold amounts to clear on the side of the source lines.  The
    planner gives the clearing line of residual [80] the amount [-50],
    which passes the constraint of the line; the engine then draws [-50]
    and [50] for the first source line, which it drops with a settled
    balance of zero, and [-100] from the clearing line of residual [80] for
    the second: the entry has the source line and the clearing line both in
    credit for [100], debit [0] against credit [200]. *)
Lemma opposite_candidates_give_unbalanced_entry :
  Wizard.action_fill_amount_to_clear scenario_over_assigned
  = scenario_opposite_residuals
  /\ Lines._check_amount_to_clear (Wizard.line_ids scenario_opposite_residuals)
     = Ok tt
  /\ Spec.monetary_run scenario_opposite_residuals
  /\ residual_polarity Spec.SourceNegative scenario_opposite_residuals
  /\ map totals (Wizard._get_move_dict_vals scenario_opposite_residuals)
     = [(0, 200)]
  /\ ~ Forall (fun mv => Spec.balanced (mv_line_ids mv))
              (Wizard._get_move_dict_vals scenario_opposite_residuals).
Proof.
  split; [reflexivity|]. split; [reflexivity|]. split; [|split; [|split]].
  - unfold Spec.monetary_run, monetary. simpl.
    repeat split; try lia; repeat constructor; apply Z.divide_1_l.
  - unfold residual_polarity. simpl.
    split; repeat (apply Forall_cons;
                     [unfold Lines.amount_residual; simpl; lia|]);
      apply Forall_nil.
  - reflexivity.
  - intros H.
    assert (Hmv : Forall (fun t => fst t = snd t)
                         (map totals (Wizard._get_move_dict_vals
                                        scenario_opposite_residuals))).
    { apply Forall_map. exact H. }
    vm_compute in Hmv. inversion Hmv as [| t l E _]. discriminate E.
Qed.

(* ================================================================= *)
(** ** Source lines that settle nothing *)

(** C7: a source line whose debit and credit, derived from its settled
    balance, are both zero within tolerance adds nothing to the entry:
    neither its own journal item nor any of the clearing items emitted
    while it was processed; the journal items of the document are left as
    they were. *)
Theorem zero_line_contributes_nothing
        (self : Wizard.t) (ml : MoveLine.t) (rest : list MoveLine.t)
        (avail : OrderedDict.t) (line_vals : list line_val) (log : Wizard.run_log) :
  let st := Wizard.clear_move_line self avail ml in
  Wizard.fiz self (fst (Wizard.get_debit_credit self (Wizard.cl_balance st)))
  && Wizard.fiz self (snd (Wizard.get_debit_credit self (Wizard.cl_balance st)))
  = true ->
  Wizard.move_line_vals self ml st = []
  /\ Wizard.lines_loop self (ml :: rest) avail line_vals log
     = Wizard.lines_loop self rest (Wizard.availability st) line_vals
         (log ++ [(ml, Wizard.used_log st)]).
Proof.
  intros st H.
  assert (E : Wizard.move_line_vals self ml st = []).
  { unfold Wizard.move_line_vals.
    destruct (Wizard.get_debit_credit self (Wizard.cl_balance st)).
    simpl in H. now rewrite H. }
  split; [exact E|].
  simpl. fold st. now rewrite E, app_nil_r.
Qed.

Lemma zero_line_contributes_nothing_witness :
  let self := scenario_dropped in
  let avail := Wizard.clear_lines_availability self in
  let st := Wizard.clear_move_line self avail first_source in
  List.length (Wizard.related_move_line_vals st) = 2%nat
  /\ Wizard.move_line_vals self first_source st = []
  /\ Wizard.lines_loop self [first_source] avail [] []
     = Wizard.lines_loop self [] (Wizard.availability st) []
         ([] ++ [(first_source, Wizard.used_log st)]).
Proof.
  split; [reflexivity|].
  apply (zero_line_contributes_nothing
           scenario_dropped first_source [] _ [] []).
  reflexivity.
Defined.



(* ================================================================= *)
(** ** The shape of an entry *)

Section Shape.

Variable self : Wizard.t.

(** The loop rewrites amounts of the ledger, never its keys. *)
Lemma clear_loop_key_ids (keys : list MoveLine.t) (st : Wizard.loop_state) :
  incl (map MoveLine.id keys)
       (map MoveLine.id (OrderedDict.keys (Wizard.availability st))) ->
  map MoveLine.id
      (OrderedDict.keys (Wizard.availability (Wizard.clear_loop self keys st)))
  = map MoveLine.id (OrderedDict.keys (Wizard.availability st)).
Proof.
  revert st. induction keys as [| k keys IH]; intros st Hin; simpl; [reflexivity|].
  assert (Hk : OrderedDict.has (Wizard.availability st) k)
    by (apply Hin; now left).
  assert (Hrest : incl (map MoveLine.id keys)
            (map MoveLine.id (OrderedDict.keys (Wizard.availability st))))
    by (intros x Hx; apply Hin; now right).
  destruct (Wizard.fiz self (Wizard.ml_amount_residual st)); [reflexivity|].
  destruct (Wizard.fiz self (OrderedDict.get (Wizard.availability st) k)); auto.
  assert (E : map MoveLine.id
                (OrderedDict.keys
                   (Wizard.availability (Wizard.clear_step self st k)))
              = map MoveLine.id (OrderedDict.keys (Wizard.availability st))).
  { rewrite availability_step, OrderedDictFacts.keys_set; auto. }
  rewrite IH; rewrite E; auto.
Qed.

(** The loop makes at most one transfer per key it goes over. *)
Lemma clear_loop_log_ids (keys : list MoveLine.t) (st : Wizard.loop_state) :
  NoDup (map MoveLine.id keys) ->
  exists l',
    map fst (Wizard.used_log (Wizard.clear_loop self keys st))
    = map fst (Wizard.used_log st) ++ l'
    /\ NoDup l' /\ incl l' (map MoveLine.id keys).
Proof.
  revert st. induction keys as [| k keys IH]; intros st Hnd; simpl.
  - exists []. rewrite app_nil_r. repeat split; [constructor | apply incl_refl].
  - inversion Hnd as [| ? ? Hk Hrest]; subst.
    assert (Hnone : exists l' : list Z,
              map fst (Wizard.used_log st) = map fst (Wizard.used_log st) ++ l'
              /\ NoDup l' /\ incl l' (MoveLine.id k :: map MoveLine.id keys)).
    { exists []. rewrite app_nil_r.
      repeat split; [constructor | intros x []]. }
    destruct (Wizard.fiz self (Wizard.ml_amount_residual st)); [exact Hnone|].
    destruct (Wizard.fiz self (OrderedDict.get (Wizard.availability st) k)).
    + destruct (IH st Hrest) as (l' & E & Hl & Hi).
      exists l'. repeat split; auto. now apply incl_tl.
    + destruct (IH (Wizard.clear_step self st k) Hrest) as (l' & E & Hl & Hi).
      exists (MoveLine.id k :: l'). repeat split.
      * rewrite E, used_log_step, map_app, <- app_assoc. reflexivity.
      * constructor; [|assumption]. intros Hin. apply Hk, Hi, Hin.
      * intros x [<- | Hx]; [now left | right; now apply Hi].
Qed.

Lemma fill_availability_NoDup (lines : list Lines.t) (d : OrderedDict.t) :
  NoDup (map MoveLine.id (OrderedDict.keys d)) ->
  NoDup (map MoveLine.id (OrderedDict.keys (Wizard.fill_availability d lines))).
Proof.
  revert d. induction lines as [| cl lines IH]; intros d Hd; simpl; [assumption|].
  destruct (_ =? _); auto using OrderedDictFacts.NoDup_set.
Qed.

(** The journal items of one source line form a block. *)
Lemma move_line_vals_block (avail : OrderedDict.t) (ml : MoveLine.t) :
  NoDup (map MoveLine.id (OrderedDict.keys avail)) ->
  block_of (map MoveLine.id (OrderedDict.keys avail)) ml
           (Wizard.move_line_vals self ml (Wizard.clear_move_line self avail ml)).
Proof.
  intros Hnd. unfold Wizard.move_line_vals.
  destruct (Wizard.get_debit_credit _ _) as [d c].
  destruct (_ && _); [now left | right].
  eexists _, _. split; [reflexivity|]. split; [reflexivity|].
  rewrite (clear_move_line_logged self avail ml).
  unfold Wizard.clear_move_line.
  destruct (clear_loop_log_ids (OrderedDict.keys avail)
              {| Wizard.ml_amount_residual := MoveLine.amount_residual ml;
                 Wizard.cl_balance := 0;
                 Wizard.availability := avail;
                 Wizard.related_move_line_vals := [];
                 Wizard.used_log := [] |} Hnd) as (l' & E & Hl & Hi).
  rewrite E. simpl. split; assumption.
Qed.

End Shape.

(** C3, as stated, fails on the second scenario of the specification: the
    one clearing line, consumed by the two source lines of the document,
    has two journal items in the entry, which has four lines for two source
    lines and one clearing line. *)
Lemma candidate_has_a_line_per_source_line :
  map (fun mv => List.length (mv_line_ids mv))
      (Wizard._get_move_dict_vals scenario_split) = [4%nat]
  /\ map (fun mv => Spec.lines_for 3 (mv_line_ids mv))
         (Wizard._get_move_dict_vals scenario_split) = [2%nat]
  /\ ~ one_line_per_candidate scenario_split.
Proof.
  split; [reflexivity|]. split; [reflexivity|].
  intros H.
  specialize (H (hd (Build_move_val 0 "" 0 "" "" [] "")
                    (Wizard._get_move_dict_vals scenario_split))
                (or_introl eq_refl) (candidate 3 100 100) (or_introl eq_refl)).
  vm_compute in H. lia.
Qed.

Lemma entry_blocks_structure (self : Wizard.t) (mv : move_val) :
  In mv (Wizard._get_move_dict_vals self) ->
  exists grp blocks,
    In grp (groupby (Wizard.move_line_ids self))
    /\ mv_line_ids mv = List.concat blocks
    /\ Forall2 (block_of (candidate_ids self)) (snd grp) blocks.
Proof.
  intros Hmv.
  assert (Hnd : NoDup (candidate_ids self)).
  { apply fill_availability_NoDup. constructor. }
  pose proof (run_invariant self (fun _ => True)
    (fun processed a lv _ =>
       map MoveLine.id (OrderedDict.keys a) = candidate_ids self
       /\ exists blocks,
            lv = List.concat blocks
            /\ Forall2 (block_of (candidate_ids self)) processed blocks)) as H.
  simpl in H. unfold Wizard._get_move_dict_vals in Hmv.
  destruct (Wizard.run self) as [[a m] g]. simpl in Hmv.
  destruct H as [_ H].
  - intros processed ml avail lv log _ [Hk (blocks & -> & Hb)]. split.
    + unfold Wizard.clear_move_line.
      rewrite clear_loop_key_ids; [exact Hk | apply incl_refl].
    + exists (blocks ++ [Wizard.move_line_vals self ml
                           (Wizard.clear_move_line self avail ml)]).
      split.
      * rewrite concat_app. simpl. now rewrite app_nil_r.
      * apply Forall2_app; [assumption|]. constructor; [|constructor].
        rewrite <- Hk. apply move_line_vals_block. now rewrite Hk.
  - intros processed avail lv log [Hk _]. split; [assumption|].
    exists []. split; [reflexivity | constructor].
  - apply Forall_forall. auto.
  - split; [reflexivity|]. exists []. split; [reflexivity | constructor].
  - destruct (H mv Hmv) as (grp & _ & _ & Hin & _ & blocks & E & Hb).
    exists grp, blocks. auto.
Qed.

Lemma blocks_length (ids : list Z) (srcs : list MoveLine.t)
      (blocks : list (list line_val)) :
  Forall2 (block_of ids) srcs blocks ->
  (List.length (List.concat blocks)
   <= List.length srcs * (1 + List.length ids))%nat.
Proof.
  induction 1 as [| src block srcs blocks Hb _ IH]; simpl; [lia|].
  rewrite length_app.
  assert (Hl : (List.length block <= 1 + List.length ids)%nat).
  { destruct Hb as [-> | (own & rel & -> & _ & Hnd & Hin)]; simpl; [lia|].
    apply NoDup_incl_length in Hin; [|assumption].
    rewrite length_map in Hin. lia. }
  lia.
Qed.

(** C3, amended: every emitted entry is, for the source lines of its
    document in order, the concatenation of one block per source line; a
    block is empty or is the source line's own journal item followed by at
    most one journal item per clearing line of the ledger.  So an entry has
    at most one line per source line of its document plus at most one line
    per pair of a source line and a clearing candidate: a candidate consumed
    by several source lines can have one line for each of them. *)
Theorem entry_blocks (self : Wizard.t) (mv : move_val) :
  In mv (Wizard._get_move_dict_vals self) ->
  exists grp blocks,
    In grp (groupby (Wizard.move_line_ids self))
    /\ mv_line_ids mv = List.concat blocks
    /\ Forall2 (block_of (candidate_ids self)) (snd grp) blocks
    /\ (List.length (mv_line_ids mv)
        <= List.length (snd grp) * (1 + List.length (candidate_ids self)))%nat.
Proof.
  intros Hmv.
  destruct (entry_blocks_structure self mv Hmv) as (grp & blocks & Hin & E & Hb).
  exists grp, blocks. repeat split; try assumption.
  rewrite E. now apply blocks_length.
Qed.

Lemma entry_blocks_witness :
  let mv := hd (Build_move_val 0 "" 0 "" "" [] "")
               (Wizard._get_move_dict_vals scenario_split) in
  In mv (Wizard._get_move_dict_vals scenario_split)
  /\ exists grp blocks,
       In grp (groupby (Wizard.move_line_ids scenario_split))
       /\ mv_line_ids mv = List.concat blocks
       /\ Forall2 (block_of (candidate_ids scenario_split)) (snd grp) blocks
       /\ (List.length (mv_line_ids mv)
           <= List.length (snd grp)
              * (1 + List.length (candidate_ids scenario_split)))%nat.
Proof.
  assert (H : In (hd (Build_move_val 0 "" 0 "" "" [] "")
                     (Wizard._get_move_dict_vals scenario_split))
                 (Wizard._get_move_dict_vals scenario_split))
    by (left; reflexivity).
  split; [exact H|].
  exact (entry_blocks scenario_split _ H).
Defined.

(* ================================================================= *)
(** ** Consumption within the residuals *)

Section Consumption.

Variable self : Wizard.t.

Lemma lines_loop_log (mls : list MoveLine.t) (avail : OrderedDict.t)
      (lv : list line_val) (log : Wizard.run_log) :
  map fst (snd (Wizard.lines_loop self mls avail lv log)) = map fst log ++ mls.
Proof.
  revert avail lv log.
  induction mls as [| ml mls IH]; intros avail lv log; simpl.
  - now rewrite app_nil_r.
  - rewrite IH, map_app, <- app_assoc. reflexivity.
Qed.

Lemma moves_loop_log (groups : list (Move.t * list MoveLine.t))
      (avail : OrderedDict.t) (mvs : list move_val) (log : Wizard.run_log) :
  map fst (snd (Wizard.moves_loop self groups avail mvs log))
  = map fst log ++ List.concat (map snd groups).
Proof.
  revert avail mvs log.
  induction groups as [| [move mls] groups IH]; intros avail mvs log; simpl.
  - now rewrite app_nil_r.
  - pose proof (lines_loop_log mls avail [] log) as Hl.
    destruct (Wizard.lines_loop self mls avail [] log) as [[a l] g].
    simpl in Hl.
    destruct l; rewrite IH, Hl, <- app_assoc; reflexivity.
Qed.

(** The log of a run has one entry per source line, in order. *)
Lemma run_log_sources :
  map fst (snd (Wizard.run self)) = Wizard.move_line_ids self.
Proof.
  unfold Wizard.run. rewrite moves_loop_log. simpl. apply groupby_concat.
Qed.

Lemma used_against_in_run_app (id : Z) (log : Wizard.run_log)
      (ml : MoveLine.t) (transfers : list (Z * Z)) :
  Spec.used_against_in_run id (log ++ [(ml, transfers)])
  = Spec.used_against_in_run id log + Spec.used_against id transfers.
Proof.
  unfold Spec.used_against_in_run.
  rewrite map_app, concat_app, used_against_app. simpl.
  now rewrite app_nil_r.
Qed.

Lemma used_against_side (p : Spec.polarity) (id : Z) (log : Wizard.run_log) :
  Forall (fun e => Forall (fun t => Spec.source_side p (snd t)) (snd e)) log ->
  Spec.source_side p (Spec.used_against_in_run id log).
Proof.
  unfold Spec.used_against_in_run, Spec.used_against.
  intros H.
  assert (Hc : Forall (fun t => Spec.source_side p (snd t))
                      (List.concat (map snd log))).
  { induction H as [| e log He H IH]; simpl; [constructor|].
    apply Forall_app. split; assumption. }
  induction Hc as [| t l Ht Hc IH]; simpl.
  - polar p; lia.
  - destruct (fst t =? id); simpl; [|assumption].
    polar p; lia.
Qed.

(** What the ledger of a run starts with for a clearing line. *)
Lemma fill_availability_get_other (lines : list Lines.t) (d : OrderedDict.t)
      (k : MoveLine.t) :
  ~ In (MoveLine.id k)
       (map (fun cl => MoveLine.id (Lines.move_line_id cl)) lines) ->
  OrderedDict.get (Wizard.fill_availability d lines) k = OrderedDict.get d k.
Proof.
  revert d. induction lines as [| cl lines IH]; intros d Hk; simpl; [reflexivity|].
  simpl in Hk.
  destruct (_ =? _).
  - apply IH. tauto.
  - rewrite IH by tauto. apply OrderedDictFacts.get_set_other.
    unfold MoveLine.eqb. apply Z.eqb_neq. tauto.
Qed.

Lemma fill_availability_get (lines : list Lines.t) (cl : Lines.t) :
  NoDup (map (fun cl => MoveLine.id (Lines.move_line_id cl)) lines) ->
  In cl lines ->
  forall d,
    OrderedDict.get d (Lines.move_line_id cl) = 0 ->
    OrderedDict.get (Wizard.fill_availability d lines) (Lines.move_line_id cl)
    = Lines.amount_to_clear cl.
Proof.
  induction lines as [| c lines IH]; intros Hnd Hin d Hd; [destruct Hin|].
  inversion Hnd as [| ? ? Hc Hrest]; subst. simpl.
  destruct Hin as [-> | Hin].
  - destruct (Z.eqb_spec (Lines.amount_to_clear cl) 0) as [E | E].
    + rewrite fill_availability_get_other by assumption. lia.
    + rewrite fill_availability_get_other by assumption.
      apply OrderedDictFacts.get_set_same.
  - destruct (Lines.amount_to_clear c =? 0); [now apply IH|].
    apply IH; auto.
    rewrite OrderedDictFacts.get_set_other; [assumption|].
    unfold MoveLine.eqb. apply Z.eqb_neq. intros E. apply Hc.
    rewrite E. now apply (in_map (fun cl => MoveLine.id (Lines.move_line_id cl))).
Qed.

Local Abbreviation r := (Currency.rounding (Wizard.company_currency_id self)).

Hypothesis monetary_amounts : Spec.monetary_run self.

(** No source line is consumed beyond its residual. *)
Lemma sources_within_residual :
  Forall (fun e => Z.abs (Spec.used_total (snd e))
                   <= Z.abs (MoveLine.amount_residual (fst e)))
         (snd (Wizard.run self)).
Proof.
  destruct monetary_amounts as (Hr & Hms & Hmc).
  pose proof (run_invariant self (fun ml => monetary r (MoveLine.amount_residual ml))
    (fun _ a _ g =>
       Forall (fun kv => monetary r (snd kv)) a
       /\ Forall (fun e => Z.abs (Spec.used_total (snd e))
                           <= Z.abs (MoveLine.amount_residual (fst e))) g)) as H.
  simpl in H. destruct (Wizard.run self) as [[a m] g]. simpl.
  apply H; clear H.
  - intros _ ml avail lv log Hml [Hd Hg].
    pose proof (clear_move_line_monetary self Hr avail ml Hd Hml)
      as (_ & _ & Hd' & Hbtw & Hlog).
    split; [assumption|]. apply Forall_app. split; [assumption|].
    constructor; [|constructor]. simpl. unfold between in Hbtw. lia.
  - auto.
  - assumption.
  - split; [|constructor].
    apply (fill_availability_Forall (monetary r)); [assumption | constructor].
Qed.

(** With the clearing amounts on the other side of the source lines, no
    clearing line is consumed beyond what was requested of it. *)
Lemma candidates_within_request (p : Spec.polarity) (k : MoveLine.t) :
  Spec.opposite_polarity p self ->
  Z.abs (Spec.used_against_in_run (MoveLine.id k) (snd (Wizard.run self)))
  <= Z.abs (OrderedDict.get (Wizard.clear_lines_availability self) k).
Proof.
  intros [Hps Hpc]. destruct monetary_amounts as (Hr & Hms & Hmc).
  pose proof (run_invariant self (source_valid r p)
    (fun _ a _ g =>
       ledger_valid r p a
       /\ (forall k, OrderedDict.get a k
                     = OrderedDict.get (Wizard.clear_lines_availability self) k
                       + Spec.used_against_in_run (MoveLine.id k) g)
       /\ Forall (fun e => Forall (fun t => Spec.source_side p (snd t)) (snd e)) g))
    as H.
  simpl in H. destruct (Wizard.run self) as [[a m] g]. simpl.
  assert (Hinit : ledger_valid r p (Wizard.clear_lines_availability self)).
  { split.
    - apply (fill_availability_Forall (monetary r)); [assumption | constructor].
    - apply (fill_availability_Forall (Spec.clearing_side p));
        [assumption | constructor]. }
  destruct H as [((_ & Hc) & Hled & Hside) _].
  - intros _ ml avail lv log Hml (Hd & Hled & Hside).
    pose proof (clear_move_line_monetary self Hr avail ml (proj1 Hd) (proj1 Hml))
      as (_ & _ & Hd' & _).
    pose proof (clear_move_line_polar self Hr p avail ml Hd Hml)
      as (_ & Hc' & Hl' & _).
    repeat split; try assumption.
    + intros k'. rewrite used_against_in_run_app, (clear_move_line_ledger self avail ml k').
      rewrite (Hled k'). lia.
    + apply Forall_app. split; [assumption|]. constructor; [|constructor].
      exact Hl'.
  - intros _ avail lv log H. exact H.
  - apply Forall_forall. intros ml Hml. split.
    + exact (proj1 (Forall_forall _ _) Hms ml Hml).
    + exact (proj1 (Forall_forall _ _) Hps ml Hml).
  - repeat split; try apply Hinit.
    + intros k'. unfold Spec.used_against_in_run, Spec.used_against. simpl. lia.
    + constructor.
  - pose proof (used_against_side p (MoveLine.id k) g Hside) as Hu.
    assert (Ha : Spec.clearing_side p (OrderedDict.get a k)).
    { apply (OrderedDictFacts.Forall_get (Spec.clearing_side p)); [assumption|].
      polar p; lia. }
    assert (H0 : Spec.clearing_side p
                   (OrderedDict.get (Wizard.clear_lines_availability self) k)).
    { apply (OrderedDictFacts.Forall_get (Spec.clearing_side p));
        [apply Hinit|]. polar p; lia. }
    specialize (Hled k). polar p; lia.
Qed.

End Consumption.

(** C4, as stated, fails when a clearing line holds an amount on the side
    of a source line.  With candidates of the opposite polarity to the
    source lines: the clearing line of residual [80] that holds [-50]
    (within its residual) is drawn on by the two source lines of residual
    [-100] for [-50] and [-100], [-150] in all.  With a candidate on the
    side of source lines: the clearing line of residual [-50], requested in
    full, is drawn on by the two source lines of residual [-100] for [-50]
    and [-100], [-150] in all, and its availability ends at [-200]. *)
Lemma candidate_is_over_consumed :
  (Spec.monetary_run scenario_opposite_residuals
   /\ Spec.within_residual scenario_opposite_residuals
   /\ Spec.distinct_candidates scenario_opposite_residuals
   /\ residual_polarity Spec.SourceNegative scenario_opposite_residuals
   /\ Spec.used_against_in_run 3 (snd (Wizard.run scenario_opposite_residuals))
      = -150
   /\ ~ no_over_consumption scenario_opposite_residuals)
  /\ (Spec.monetary_run scenario_same_side
      /\ Spec.within_residual scenario_same_side
      /\ Spec.used_against_in_run 5 (snd (Wizard.run scenario_same_side)) = -150
      /\ map snd (fst (fst (Wizard.run scenario_same_side))) = [0; -200]
      /\ ~ no_over_consumption scenario_same_side).
Proof.
  split.
  - split; [|split; [|split; [|split; [|split; [reflexivity|]]]]].
    + unfold Spec.monetary_run, monetary. simpl.
      repeat split; try lia; repeat constructor; apply Z.divide_1_l.
    + unfold Spec.within_residual. simpl. repeat constructor; simpl; lia.
    + unfold Spec.distinct_candidates. simpl.
      repeat constructor; simpl; intuition discriminate.
    + unfold residual_polarity. simpl.
      split; repeat (apply Forall_cons;
                     [unfold Lines.amount_residual; simpl; lia|]);
      apply Forall_nil.
    + intros [_ H].
      specialize (H (candidate 3 80 (-50)) (or_introl eq_refl)).
      vm_compute in H. apply H. reflexivity.
  - split; [|split; [|split; [reflexivity | split; [reflexivity|]]]].
    + unfold Spec.monetary_run, monetary. simpl.
      repeat split; try lia; repeat constructor; apply Z.divide_1_l.
    + unfold Spec.within_residual. simpl. repeat constructor; simpl; lia.
    + intros [_ H].
      specialize (H (candidate 5 (-50) (-50)) (or_intror (or_introl eq_refl))).
      vm_compute in H. apply H. reflexivity.
Qed.

(** C4, amended: in every allocation run over Monetary amounts, no source
    line is consumed beyond its residual: the magnitude of the total
    [used_amount] transferred against it is at most the magnitude of its
    residual; and when moreover the source residuals are on one side and
    the amounts to clear of the candidates on the other, each move line is
    a candidate once and no candidate is asked for more than its residual,
    the magnitude of the total transferred against a candidate is at most
    the magnitude of its residual. *)
Theorem no_over_consumption_opposite_sides (self : Wizard.t) :
  Spec.monetary_run self ->
  let log := snd (Wizard.run self) in
  map fst log = Wizard.move_line_ids self
  /\ Forall (fun e => Z.abs (Spec.used_total (snd e))
                      <= Z.abs (MoveLine.amount_residual (fst e))) log
  /\ forall p,
       Spec.opposite_polarity p self ->
       Spec.within_residual self ->
       Spec.distinct_candidates self ->
       forall cl, In cl (Wizard.line_ids self) ->
         Z.abs (Spec.used_against_in_run (MoveLine.id (Lines.move_line_id cl)) log)
         <= Z.abs (Lines.amount_residual cl).
Proof.
  intros Hm. simpl. split; [apply run_log_sources|].
  split; [now apply sources_within_residual|].
  intros p Hp Hw Hd cl Hcl.
  pose proof (candidates_within_request self Hm p (Lines.move_line_id cl) Hp) as H.
  unfold Wizard.clear_lines_availability in H.
  rewrite (fill_availability_get (Wizard.line_ids self) cl Hd Hcl [] eq_refl) in H.
  pose proof (proj1 (Forall_forall _ _) Hw cl Hcl) as Hc. simpl in Hc. lia.
Qed.

Lemma no_over_consumption_opposite_sides_witness :
  Spec.monetary_run scenario_split
  /\ Spec.within_residual scenario_split
  /\ Spec.distinct_candidates scenario_split
  /\ Spec.opposite_polarity Spec.SourceNegative scenario_split
  /\ Forall (fun e => Z.abs (Spec.used_total (snd e))
                      <= Z.abs (MoveLine.amount_residual (fst e)))
            (snd (Wizard.run scenario_split))
  /\ Z.abs (Spec.used_against_in_run 3 (snd (Wizard.run scenario_split)))
     <= Z.abs 100.
Proof.
  assert (Hw : Spec.within_residual scenario_split).
  { unfold Spec.within_residual. simpl. repeat constructor; simpl; lia. }
  assert (Hd : Spec.distinct_candidates scenario_split).
  { unfold Spec.distinct_candidates. simpl. repeat constructor. intros []. }
  split; [exact (proj1 scenario_split_valid)|].
  split; [exact Hw|]. split; [exact Hd|].
  split; [exact (proj2 scenario_split_valid)|].
  split.
  - exact (proj1 (proj2 (no_over_consumption_opposite_sides scenario_split
                           (proj1 scenario_split_valid)))).
  - exact (proj2 (proj2 (no_over_consumption_opposite_sides scenario_split
                           (proj1 scenario_split_valid)))
             Spec.SourceNegative (proj2 scenario_split_valid) Hw Hd
             (candidate 3 100 100) (or_introl eq_refl)).
Defined.

(* ================================================================= *)
(** ** Further properties of the allocation engine *)

Section Items.

Variable self : Wizard.t.

Lemma get_debit_credit_one_sided (amount : Z) :
  let dc := Wizard.get_debit_credit self amount in
  0 <= fst dc /\ 0 <= snd dc /\ (fst dc = 0 \/ snd dc = 0).
Proof.
  unfold Wizard.get_debit_credit. rewrite Z.gtb_ltb.
  destruct (Z.ltb_spec 0 amount); simpl; [lia|].
  destruct (Wizard.fiz self amount); simpl; lia.
Qed.

Lemma related_one_sided (avail : OrderedDict.t) (ml : MoveLine.t) :
  Forall one_sided
         (Wizard.related_move_line_vals (Wizard.clear_move_line self avail ml)).
Proof.
  unfold Wizard.clear_move_line. apply clear_loop_invariant.
  - intros st k H _ _.
    destruct (related_step self st k) as [lv [-> [_ Hdc]]].
    apply Forall_app. split; [assumption|]. constructor; [|constructor].
    pose proof (get_debit_credit_one_sided (Wizard.used_amount self st k)) as Hs.
    rewrite <- Hdc in Hs. exact Hs.
  - constructor.
Qed.

Lemma move_line_vals_one_sided (avail : OrderedDict.t) (ml : MoveLine.t) :
  Forall one_sided
         (Wizard.move_line_vals self ml (Wizard.clear_move_line self avail ml)).
Proof.
  unfold Wizard.move_line_vals.
  pose proof (get_debit_credit_one_sided
                (Wizard.cl_balance (Wizard.clear_move_line self avail ml))) as Hs.
  destruct (Wizard.get_debit_credit _ _) as [d c].
  destruct (_ && _); constructor; [exact Hs | apply related_one_sided].
Qed.

End Items.

(** X1: every journal item of every entry the engine emits, whatever the
    inputs, has a non-negative debit and a non-negative credit, and one of
    the two is zero. *)
Theorem journal_items_one_sided (self : Wizard.t) :
  Forall (fun mv => Forall one_sided (mv_line_ids mv))
         (Wizard._get_move_dict_vals self).
Proof.
  pose proof (run_invariant self (fun _ => True)
                (fun _ _ lv _ => Forall one_sided lv)) as H.
  simpl in H. unfold Wizard._get_move_dict_vals.
  destruct (Wizard.run self) as [[a m] g]. simpl.
  destruct H as [_ H].
  - intros _ ml avail lv log _ Hlv. apply Forall_app. split; [assumption|].
    apply move_line_vals_one_sided.
  - intros. constructor.
  - apply Forall_forall. auto.
  - constructor.
  - apply Forall_forall. intros mv Hmv.
    destruct (H mv Hmv) as (_ & _ & _ & _ & Hlv). exact Hlv.
Qed.

Section NoEntries.

Variable self : Wizard.t.

Hypothesis r_pos : 0 < Currency.rounding (Wizard.company_currency_id self).

Lemma fill_availability_unassigned (lines : list Lines.t) (d : OrderedDict.t) :
  Forall (fun cl => Lines.amount_to_clear cl = 0) lines ->
  Wizard.fill_availability d lines = d.
Proof.
  induction 1 as [| cl lines Hcl _ IH]; simpl; [reflexivity|].
  now rewrite Hcl.
Qed.

(** On an empty ledger a source line adds nothing. *)
Lemma lines_loop_empty_ledger (mls : list MoveLine.t) (lv : list line_val)
      (log : Wizard.run_log) :
  fst (Wizard.lines_loop self mls [] lv log) = ([], lv).
Proof.
  revert lv log. induction mls as [| ml mls IH]; intros lv log; simpl;
    [reflexivity|].
  unfold Wizard.move_line_vals, Wizard.get_debit_credit. simpl.
  rewrite (fiz_monetary self r_pos 0) by auto with monetary. simpl.
  rewrite (fiz_monetary self r_pos 0) by auto with monetary. simpl.
  rewrite app_nil_r. apply IH.
Qed.

Lemma moves_loop_empty_ledger (groups : list (Move.t * list MoveLine.t))
      (mvs : list move_val) (log : Wizard.run_log) :
  snd (fst (Wizard.moves_loop self groups [] mvs log)) = mvs.
Proof.
  revert mvs log.
  induction groups as [| [move mls] groups IH]; intros mvs log; simpl;
    [reflexivity|].
  pose proof (lines_loop_empty_ledger mls [] log) as H.
  destruct (Wizard.lines_loop self mls [] [] log) as [[a l] g].
  simpl in H. inversion H; subst. apply IH.
Qed.

End NoEntries.

(** X2: with a positive currency rounding, a wizard none of whose clearing
    lines has an amount to clear, or without source lines, gives no entry
    at all. *)
Theorem nothing_assigned_no_entry (self : Wizard.t) :
  0 < Currency.rounding (Wizard.company_currency_id self) ->
  Wizard.move_line_ids self = []
  \/ Forall (fun cl => Lines.amount_to_clear cl = 0) (Wizard.line_ids self) ->
  Wizard._get_move_dict_vals self = [].
Proof.
  intros Hr [H | H]; unfold Wizard._get_move_dict_vals, Wizard.run.
  - rewrite H. reflexivity.
  - unfold Wizard.clear_lines_availability.
    rewrite (fill_availability_unassigned _ [] H).
    apply (moves_loop_empty_ledger self Hr).
Qed.

Lemma nothing_assigned_no_entry_witness :
  0 < Currency.rounding (Wizard.company_currency_id scenario_plan)
  /\ Forall (fun cl => Lines.amount_to_clear cl = 0) (Wizard.line_ids scenario_plan)
  /\ Wizard._get_move_dict_vals scenario_plan = [].
Proof.
  assert (H : Forall (fun cl => Lines.amount_to_clear cl = 0)
                     (Wizard.line_ids scenario_plan))
    by (repeat constructor).
  split; [reflexivity|]. split; [exact H|].
  apply (nothing_assigned_no_entry scenario_plan); [reflexivity | right; exact H].
Defined.

Section Sides.

Variable self : Wizard.t.

Local Abbreviation r := (Currency.rounding (Wizard.company_currency_id self)).

Hypothesis r_pos : 0 < r.

Variable p : Spec.polarity.

Lemma sided_state_step (m0 : Z) (st : Wizard.loop_state) (k : MoveLine.t) :
  monetary_state r m0 st -> polar_state p st -> sided_state p st ->
  Wizard.fiz self (Wizard.ml_amount_residual st) = false ->
  Wizard.fiz self (OrderedDict.get (Wizard.availability st) k) = false ->
  sided_state p (Wizard.clear_step self st k).
Proof.
  intros (Hm & Hb & Hd & Hbtw & Hlog) (Hs & Hc & Hl & Hbal) [Hrel Hsum] Em Ea.
  pose proof (monetary_get self _ k Hd) as Ha.
  pose proof (not_fiz_monetary self r_pos _ Hm Em) as Hm0.
  pose proof (not_fiz_monetary self r_pos _ Ha Ea) as Ha0.
  destruct (used_amount_monetary self r_pos st k Hm Ha) as [Hu Eu].
  assert (Hca : Spec.clearing_side p (OrderedDict.get (Wizard.availability st) k)).
  { apply (OrderedDictFacts.Forall_get (Spec.clearing_side p)); [assumption|].
    polar p; lia. }
  destruct (related_step self st k) as [lv [Hlv [_ Hdc]]].
  rewrite (get_debit_credit_monetary self r_pos _ Hu) in Hdc.
  inversion Hdc as [[Hdeb Hcre]]. clear Hdc.
  rewrite Z.gtb_ltb in Eu.
  unfold sided_state. rewrite Hlv, cl_balance_step, map_app, sum_app.
  destruct (clear_sign_cases st k) as [[E C] | [E C]]; rewrite E in *;
    [| polar p; lia].
  assert (Hside : source_amount_of p lv = 0
                  /\ clearing_amount_of p lv
                     = balance_of p (- Wizard.used_amount self st k)
                  /\ 0 < clearing_amount_of p lv).
  { unfold source_amount_of, clearing_amount_of, balance_of. rewrite Hdeb, Hcre.
    polar p; destruct (Z.ltb_spec 0 (Wizard.ml_amount_residual st)); lia. }
  destruct Hside as (H1 & H2 & H3). split.
  - apply Forall_app. split; [assumption|]. constructor; [|constructor]. auto.
  - assert (H1' : Wizard.sum (map (clearing_amount_of p) [lv])
                 = clearing_amount_of p lv) by (simpl; lia).
    rewrite H1', H2, <- Hsum. unfold balance_of. destruct p; lia.
Qed.

Lemma clear_move_line_sided (avail : OrderedDict.t) (ml : MoveLine.t) :
  ledger_valid r p avail -> source_valid r p ml ->
  sided_state p (Wizard.clear_move_line self avail ml).
Proof.
  intros [Hd Hc] [Hm Hs]. unfold Wizard.clear_move_line.
  refine (proj2 (clear_loop_invariant self
            (fun st => (monetary_state r (MoveLine.amount_residual ml) st
                        /\ polar_state p st) /\ sided_state p st) _ _ _ _)).
  - intros st k [[H1 H2] H3] Em Ea. split; [split|].
    + now apply monetary_state_step.
    + now apply (polar_state_step self r_pos p (MoveLine.amount_residual ml)).
    + apply (sided_state_step (MoveLine.amount_residual ml) st k H1 H2 H3 Em Ea).
  - split; [split|].
    + unfold monetary_state, between, Spec.used_total. simpl.
      repeat split; auto with monetary; lia.
    + unfold polar_state. simpl. repeat split; auto.
    + split; [constructor|]. simpl. destruct p; reflexivity.
Qed.

(** The journal items of a source line of a valid run form a settling
    block. *)
Lemma move_line_vals_settling (avail : OrderedDict.t) (ml : MoveLine.t) :
  ledger_valid r p avail -> source_valid r p ml ->
  settling_block p ml
    (Wizard.move_line_vals self ml (Wizard.clear_move_line self avail ml)).
Proof.
  intros Hd Hml.
  destruct (clear_move_line_sided avail ml Hd Hml) as [Hrel Hsum].
  pose proof (clear_move_line_monetary self r_pos avail ml (proj1 Hd) (proj1 Hml))
    as (_ & Hb & _).
  set (st := Wizard.clear_move_line self avail ml) in *.
  assert (Hnn : 0 <= Wizard.sum (map (clearing_amount_of p)
                                     (Wizard.related_move_line_vals st))).
  { clear Hsum. induction Hrel as [| lv l [_ Hlv] _ IH]; simpl; lia. }
  unfold Wizard.move_line_vals.
  rewrite (get_debit_credit_monetary self r_pos _ Hb).
  destruct (_ && _) eqn:Ez; [now left | right].
  eexists _, _. split; [reflexivity|].
  assert (Hnz : Wizard.cl_balance st <> 0).
  { intros E. rewrite E in Ez.
    change (Z.max 0 0) with 0 in Ez. change (Z.max (- 0) 0) with 0 in Ez.
    rewrite (fiz_monetary self r_pos 0) in Ez by auto with monetary.
    discriminate. }
  repeat split.
  - intros E. rewrite E in Hsum. simpl in Hsum. unfold balance_of in Hsum.
    destruct p; lia.
  - unfold clearing_amount_of, balance_of in *. simpl. destruct p; lia.
  - exact Hrel.
  - unfold source_amount_of, balance_of in *. simpl. rewrite <- Hsum.
    destruct p; lia.
Qed.

End Sides.

(** X3: in a valid allocation run every entry is, for the source lines of
    its document in order, the concatenation of one block per source line;
    a block is empty or is the source line's own journal item, written on
    the source side (the debit when the source residuals are negative, the
    credit when they are positive), followed by at least one clearing item,
    each written on the other side for a positive amount; the clearing
    items of a block add up to the amount of its source line's item. *)
Theorem entries_settle_line_by_line (self : Wizard.t) (p : Spec.polarity) :
  Spec.valid_run p self ->
  Forall (fun mv =>
            exists grp blocks,
              In grp (groupby (Wizard.move_line_ids self))
              /\ mv_line_ids mv = List.concat blocks
              /\ Forall2 (settling_block p) (snd grp) blocks)
         (Wizard._get_move_dict_vals self).
Proof.
  intros [(Hr & Hms & Hmc) [Hps Hpc]].
  set (r := Currency.rounding (Wizard.company_currency_id self)) in *.
  pose proof (run_invariant self (source_valid r p)
    (fun processed a lv _ =>
       ledger_valid r p a
       /\ exists blocks,
            lv = List.concat blocks
            /\ Forall2 (settling_block p) processed blocks)) as H.
  simpl in H. unfold Wizard._get_move_dict_vals.
  destruct (Wizard.run self) as [[a m] g]. simpl.
  destruct H as [_ H].
  - intros processed ml avail lv log Hml [Hd (blocks & -> & Hb)]. split.
    + pose proof (clear_move_line_monetary self Hr avail ml (proj1 Hd) (proj1 Hml))
        as (_ & _ & Hd' & _).
      pose proof (clear_move_line_polar self Hr p avail ml Hd Hml)
        as (_ & Hc' & _).
      split; assumption.
    + exists (blocks ++ [Wizard.move_line_vals self ml
                           (Wizard.clear_move_line self avail ml)]).
      split.
      * rewrite concat_app. simpl. now rewrite app_nil_r.
      * apply Forall2_app; [assumption|]. constructor; [|constructor].
        now apply move_line_vals_settling.
  - intros processed avail lv log [Hd _]. split; [assumption|].
    exists []. split; [reflexivity | constructor].
  - apply Forall_forall. intros ml Hml. split.
    + exact (proj1 (Forall_forall _ _) Hms ml Hml).
    + exact (proj1 (Forall_forall _ _) Hps ml Hml).
  - split; [split|].
    + apply (fill_availability_Forall (monetary r)); [assumption | constructor].
    + apply (fill_availability_Forall (Spec.clearing_side p));
        [assumption | constructor].
    + exists []. split; [reflexivity | constructor].
  - apply Forall_forall. intros mv Hmv.
    destruct (H mv Hmv) as (grp & _ & _ & Hin & _ & blocks & E & Hb).
    exists grp, blocks. auto.
Qed.

Lemma entries_settle_line_by_line_witness :
  Spec.valid_run Spec.SourceNegative scenario_split
  /\ Forall (fun mv =>
               exists grp blocks,
                 In grp (groupby (Wizard.move_line_ids scenario_split))
                 /\ mv_line_ids mv = List.concat blocks
                 /\ Forall2 (settling_block Spec.SourceNegative) (snd grp) blocks)
            (Wizard._get_move_dict_vals scenario_split).
Proof.
  split; [exact scenario_split_valid|].
  apply (entries_settle_line_by_line scenario_split Spec.SourceNegative).
  exact scenario_split_valid.
Defined.

(* ================================================================= *)
(** ** The allocation is greedy *)

Section Greedy.

Variable self : Wizard.t.

Local Abbreviation r := (Currency.rounding (Wizard.company_currency_id self)).

Hypothesis r_pos : 0 < r.

Variable p : Spec.polarity.

Lemma get_absent (d : OrderedDict.t) (k : MoveLine.t) :
  ~ OrderedDict.has d k -> OrderedDict.get d k = 0.
Proof.
  unfold OrderedDict.has, OrderedDict.keys.
  induction d as [| [k' v'] d IH]; simpl; [reflexivity|].
  intros H. unfold MoveLine.eqb.
  destruct (Z.eqb_spec (MoveLine.id k') (MoveLine.id k)) as [E | E]; [tauto|].
  apply IH. tauto.
Qed.

Lemma has_dec (d : OrderedDict.t) (k : MoveLine.t) :
  OrderedDict.has d k \/ ~ OrderedDict.has d k.
Proof.
  unfold OrderedDict.has.
  destruct (in_dec Z.eq_dec (MoveLine.id k)
                   (map MoveLine.id (OrderedDict.keys d))); auto.
Qed.

(** A key with something under it is a key of the ledger. *)
Lemma not_fiz_has (d : OrderedDict.t) (k : MoveLine.t) :
  Wizard.fiz self (OrderedDict.get d k) = false -> OrderedDict.has d k.
Proof.
  intros H. destruct (has_dec d k) as [Hk | Hk]; [assumption|].
  rewrite (get_absent d k Hk), (fiz_monetary self r_pos 0) in H
    by auto with monetary.
  discriminate.
Qed.

Lemma clear_loop_done (keys : list MoveLine.t) (st : Wizard.loop_state) :
  Wizard.fiz self (Wizard.ml_amount_residual st) = true ->
  Wizard.clear_loop self keys st = st.
Proof. intros H. destruct keys; simpl; [reflexivity | now rewrite H]. Qed.

(** The loop leaves alone what is under the keys it does not go over. *)
Lemma clear_loop_frame (keys : list MoveLine.t) (st : Wizard.loop_state)
      (k : MoveLine.t) :
  ~ In (MoveLine.id k) (map MoveLine.id keys) ->
  OrderedDict.get (Wizard.availability (Wizard.clear_loop self keys st)) k
  = OrderedDict.get (Wizard.availability st) k.
Proof.
  revert st. induction keys as [| k' keys IH]; intros st Hk; simpl;
    [reflexivity|].
  simpl in Hk.
  destruct (Wizard.fiz self (Wizard.ml_amount_residual st)); [reflexivity|].
  destruct (Wizard.fiz self (OrderedDict.get (Wizard.availability st) k')).
  - apply IH. tauto.
  - rewrite IH by tauto. rewrite availability_step.
    apply OrderedDictFacts.get_set_other.
    unfold MoveLine.eqb. apply Z.eqb_neq. tauto.
Qed.

(** A transfer clears the source residual or uses up the clearing line. *)
Lemma transfer_dichotomy (m0 : Z) (st : Wizard.loop_state) (k : MoveLine.t) :
  monetary_state r m0 st -> polar_state p st ->
  Wizard.fiz self (Wizard.ml_amount_residual st) = false ->
  Wizard.fiz self (OrderedDict.get (Wizard.availability st) k) = false ->
  Wizard.ml_amount_residual (Wizard.clear_step self st k) = 0
  \/ OrderedDict.get (Wizard.availability (Wizard.clear_step self st k)) k = 0.
Proof.
  intros (Hm & Hb & Hd & Hbtw & Hlog) (Hs & Hc & Hl & Hbal) Em Ea.
  pose proof (monetary_get self _ k Hd) as Ha.
  pose proof (not_fiz_monetary self r_pos _ Hm Em) as Hm0.
  pose proof (not_fiz_monetary self r_pos _ Ha Ea) as Ha0.
  destruct (used_amount_monetary self r_pos st k Hm Ha) as [Hu Eu].
  assert (Hca : Spec.clearing_side p (OrderedDict.get (Wizard.availability st) k)).
  { apply (OrderedDictFacts.Forall_get (Spec.clearing_side p)); [assumption|].
    polar p; lia. }
  rewrite ml_amount_residual_step, availability_step,
    OrderedDictFacts.get_set_same.
  rewrite Z.gtb_ltb in Eu.
  destruct (clear_sign_cases st k) as [[E C] | [E C]]; rewrite E in *;
    [| polar p; lia].
  destruct (Z.ltb_spec 0 (Wizard.ml_amount_residual st)); lia.
Qed.

(** After the loop the source residual is cleared or nothing is left under
    the keys the loop went over. *)
Lemma clear_loop_dichotomy (m0 : Z) (keys : list MoveLine.t)
      (st : Wizard.loop_state) :
  NoDup (map MoveLine.id keys) ->
  monetary_state r m0 st -> polar_state p st ->
  Wizard.ml_amount_residual (Wizard.clear_loop self keys st) = 0
  \/ forall k, In (MoveLine.id k) (map MoveLine.id keys) ->
       OrderedDict.get (Wizard.availability (Wizard.clear_loop self keys st)) k = 0.
Proof.
  revert st. induction keys as [| k keys IH]; intros st Hnd Hmon Hpol.
  - right. intros k [].
  - inversion Hnd as [| ? ? Hk Hrest]; subst. simpl.
    destruct (Wizard.fiz self (Wizard.ml_amount_residual st)) eqn:Em.
    { left. rewrite (fiz_monetary self r_pos _ (proj1 Hmon)) in Em.
      now apply Z.eqb_eq. }
    assert (Hsame : forall k' : MoveLine.t,
              MoveLine.id k' = MoveLine.id k ->
              forall st', OrderedDict.get
                            (Wizard.availability (Wizard.clear_loop self keys st')) k'
                          = OrderedDict.get (Wizard.availability st') k').
    { intros k' E st'. apply clear_loop_frame. now rewrite E. }
    destruct (Wizard.fiz self (OrderedDict.get (Wizard.availability st) k)) eqn:Ea.
    + destruct (IH st Hrest Hmon Hpol) as [H | H]; [now left | right].
      intros k' [E | Hin]; [|now apply H].
      rewrite (Hsame k' (eq_sym E)), <- (get_same_id _ k k' E).
      pose proof (monetary_get self _ k (proj1 (proj2 (proj2 Hmon)))) as Ha.
      rewrite (fiz_monetary self r_pos _ Ha) in Ea. now apply Z.eqb_eq.
    + pose proof (monetary_state_step self r_pos m0 st k Hmon Em Ea) as Hmon'.
      pose proof (polar_state_step self r_pos p m0 st k Hmon Hpol Em Ea) as Hpol'.
      destruct (transfer_dichotomy m0 st k Hmon Hpol Em Ea) as [H0 | H0].
      * left. rewrite clear_loop_done; [assumption|].
        rewrite (fiz_monetary self r_pos _ (proj1 Hmon')), H0. reflexivity.
      * destruct (IH _ Hrest Hmon' Hpol') as [H | H]; [now left | right].
        intros k' [E | Hin]; [|now apply H].
        rewrite (Hsame k' (eq_sym E)), <- (get_same_id _ k k' E). exact H0.
Qed.

(** A source line is cleared in full unless the ledger runs out. *)
Lemma clear_move_line_greedy (avail : OrderedDict.t) (ml : MoveLine.t) :
  ledger_valid r p avail -> source_valid r p ml ->
  NoDup (map MoveLine.id (OrderedDict.keys avail)) ->
  settled (ml, Wizard.used_log (Wizard.clear_move_line self avail ml))
  \/ exhausted (Wizard.availability (Wizard.clear_move_line self avail ml)).
Proof.
  intros Hd Hml Hnd.
  pose proof (clear_move_line_monetary self r_pos avail ml (proj1 Hd) (proj1 Hml))
    as (_ & _ & _ & _ & Hlog).
  unfold Wizard.clear_move_line in *.
  set (st0 := {| Wizard.ml_amount_residual := MoveLine.amount_residual ml;
                 Wizard.cl_balance := 0;
                 Wizard.availability := avail;
                 Wizard.related_move_line_vals := [];
                 Wizard.used_log := [] |}) in *.
  assert (Hmon : monetary_state r (MoveLine.amount_residual ml) st0).
  { unfold monetary_state, between, Spec.used_total. simpl.
    repeat split; try apply Hd; try apply Hml; auto with monetary; lia. }
  assert (Hpol : polar_state p st0).
  { unfold polar_state. simpl. repeat split; try apply Hd; try apply Hml; auto. }
  destruct (clear_loop_dichotomy _ (OrderedDict.keys avail) st0 Hnd Hmon Hpol)
    as [H | H].
  - left. unfold settled. simpl. rewrite Hlog, H. lia.
  - right. intros k. destruct (has_dec avail k) as [Hk | Hk].
    + now apply H.
    + rewrite clear_loop_frame by exact Hk. simpl. now apply get_absent.
Qed.

(** On an exhausted ledger the loop changes nothing. *)
Lemma exhausted_stays (avail : OrderedDict.t) (ml : MoveLine.t) :
  exhausted avail ->
  Wizard.availability (Wizard.clear_move_line self avail ml) = avail.
Proof.
  intros Hx. unfold Wizard.clear_move_line. apply clear_loop_invariant.
  - intros st k E _ Ea. rewrite E, (Hx k), (fiz_monetary self r_pos 0) in Ea
      by auto with monetary.
    discriminate.
  - reflexivity.
Qed.

Lemma clear_move_line_key_ids (avail : OrderedDict.t) (ml : MoveLine.t) :
  map MoveLine.id
      (OrderedDict.keys (Wizard.availability (Wizard.clear_move_line self avail ml)))
  = map MoveLine.id (OrderedDict.keys avail).
Proof.
  unfold Wizard.clear_move_line.
  rewrite clear_loop_key_ids; [reflexivity | apply incl_refl].
Qed.

End Greedy.

(** The run invariant of the greedy allocation. *)
Lemma run_greedy (self : Wizard.t) (p : Spec.polarity) :
  Spec.valid_run p self ->
  Forall settled (snd (Wizard.run self))
  \/ exhausted (fst (fst (Wizard.run self))).
Proof.
  intros [(Hr & Hms & Hmc) [Hps Hpc]].
  set (r := Currency.rounding (Wizard.company_currency_id self)) in *.
  pose proof (run_invariant self (source_valid r p)
    (fun _ a _ g =>
       ledger_valid r p a
       /\ NoDup (map MoveLine.id (OrderedDict.keys a))
       /\ (Forall settled g \/ exhausted a))) as H.
  simpl in H. destruct (Wizard.run self) as [[a m] g]. simpl.
  apply H; clear H.
  - intros _ ml avail lv log Hml (Hd & Hnd & Hg).
    pose proof (clear_move_line_monetary self Hr avail ml (proj1 Hd) (proj1 Hml))
      as (_ & _ & Hd' & _).
    pose proof (clear_move_line_polar self Hr p avail ml Hd Hml)
      as (_ & Hc' & _).
    split; [split; assumption|]. split.
    + now rewrite clear_move_line_key_ids.
    + destruct Hg as [Hg | Hx].
      * destruct (clear_move_line_greedy self Hr p avail ml Hd Hml Hnd) as [Hs | Hx].
        -- left. apply Forall_app. split; [assumption|]. now constructor.
        -- now right.
      * right. now rewrite (exhausted_stays self Hr avail ml Hx).
  - auto.
  - apply Forall_forall. intros ml Hml. split.
    + exact (proj1 (Forall_forall _ _) Hms ml Hml).
    + exact (proj1 (Forall_forall _ _) Hps ml Hml).
  - split; [split|split].
    + apply (fill_availability_Forall (monetary r)); [assumption | constructor].
    + apply (fill_availability_Forall (Spec.clearing_side p));
        [assumption | constructor].
    + apply fill_availability_NoDup. constructor.
    + left. constructor.
Qed.

(** X4: the allocation is greedy.  At the end of a valid allocation run
    every source line has been cleared in full (the transfers against it
    add up to its residual), or nothing is left in the ledger: the run
    never leaves both a source line partly cleared and a clearing amount
    partly used. *)
Theorem run_settles_or_exhausts (self : Wizard.t) (p : Spec.polarity) :
  Spec.valid_run p self ->
  Forall settled (snd (Wizard.run self))
  \/ exhausted (fst (fst (Wizard.run self))).
Proof.
  intros Hv. destruct (run_greedy self p Hv) as [H | H]; [left | right]; exact H.
Qed.

Lemma run_settles_or_exhausts_witness :
  Spec.valid_run Spec.SourceNegative scenario_split
  /\ (Forall settled (snd (Wizard.run scenario_split))
      \/ exhausted (fst (fst (Wizard.run scenario_split)))).
Proof.
  split; [exact scenario_split_valid|].
  apply (run_settles_or_exhausts scenario_split Spec.SourceNegative).
  exact scenario_split_valid.
Defined.

(* ================================================================= *)
(** ** What a run uses is what the ledger loses *)

Section Totals.

Variable self : Wizard.t.

Local Abbreviation r := (Currency.rounding (Wizard.company_currency_id self)).

Lemma ledger_total_set (d : OrderedDict.t) (k : MoveLine.t) (v : Z) :
  OrderedDict.has d k ->
  ledger_total (OrderedDict.set d k v) = ledger_total d - OrderedDict.get d k + v.
Proof.
  unfold OrderedDict.has, OrderedDict.keys, ledger_total.
  induction d as [| [k' v'] d IH]; simpl; [tauto|].
  unfold MoveLine.eqb.
  destruct (Z.eqb_spec (MoveLine.id k') (MoveLine.id k)) as [E | E]; simpl.
  - lia.
  - intros [H | H]; [congruence|]. rewrite (IH H). lia.
Qed.

Lemma ledger_total_set_new (d : OrderedDict.t) (k : MoveLine.t) (v : Z) :
  ~ OrderedDict.has d k ->
  ledger_total (OrderedDict.set d k v) = ledger_total d + v.
Proof.
  unfold OrderedDict.has, OrderedDict.keys, ledger_total.
  induction d as [| [k' v'] d IH]; simpl; [lia|].
  intros H. unfold MoveLine.eqb.
  destruct (Z.eqb_spec (MoveLine.id k') (MoveLine.id k)) as [E | E]; [tauto|].
  simpl. rewrite IH by tauto. lia.
Qed.

(** The ledger of a wizard whose candidates are distinct starts with the
    amounts to clear. *)
Lemma fill_availability_total (lines : list Lines.t) (d : OrderedDict.t) :
  NoDup (map (fun cl => MoveLine.id (Lines.move_line_id cl)) lines) ->
  (forall cl, In cl lines -> ~ OrderedDict.has d (Lines.move_line_id cl)) ->
  ledger_total (Wizard.fill_availability d lines) = ledger_total d + amounts lines.
Proof.
  unfold amounts. revert d.
  induction lines as [| c lines IH]; intros d Hnd Hd; simpl; [lia|].
  inversion Hnd as [| ? ? Hc Hrest]; subst.
  destruct (Z.eqb_spec (Lines.amount_to_clear c) 0) as [E | E].
  - rewrite IH; [lia | assumption | intros cl Hcl; apply Hd; now right].
  - rewrite IH; [| assumption |].
    + rewrite ledger_total_set_new by (apply Hd; now left). lia.
    + intros cl Hcl. unfold OrderedDict.has.
      rewrite OrderedDictFacts.key_ids_set.
      assert (Hn : ~ OrderedDict.has d (Lines.move_line_id c))
        by (apply Hd; now left).
      destruct (existsb _ _) eqn:Ex.
      { apply OrderedDictFacts.existsb_has in Ex. contradiction. }
      rewrite in_app_iff. intros [H | [H | []]].
      * apply (Hd cl); [now right | exact H].
      * apply Hc. rewrite H.
        now apply (in_map (fun cl => MoveLine.id (Lines.move_line_id cl))).
Qed.

Hypothesis r_pos : 0 < r.

Lemma clear_move_line_total (avail : OrderedDict.t) (ml : MoveLine.t) :
  ledger_total (Wizard.availability (Wizard.clear_move_line self avail ml))
  = ledger_total avail
    + Spec.used_total (Wizard.used_log (Wizard.clear_move_line self avail ml)).
Proof.
  unfold Wizard.clear_move_line. apply clear_loop_invariant.
  - intros st k H _ Ea.
    rewrite availability_step, used_log_step.
    rewrite ledger_total_set by (now apply (not_fiz_has self r_pos)).
    unfold Spec.used_total in *. rewrite map_app, sum_app, H. simpl. lia.
  - unfold Spec.used_total. simpl. lia.
Qed.

Lemma exhausted_total (d : OrderedDict.t) :
  NoDup (map MoveLine.id (OrderedDict.keys d)) -> exhausted d -> ledger_total d = 0.
Proof.
  unfold ledger_total, exhausted, OrderedDict.keys.
  induction d as [| [k v] d IH]; simpl; intros Hnd Hx; [reflexivity|].
  inversion Hnd as [| ? ? Hk Hrest]; subst.
  pose proof (Hx k) as Hv. simpl in Hv.
  rewrite OrderedDictFacts.eqb_refl in Hv. subst v.
  rewrite IH; [reflexivity | assumption |].
  intros k'. specialize (Hx k'). simpl in Hx. unfold MoveLine.eqb in Hx.
  destruct (Z.eqb_spec (MoveLine.id k) (MoveLine.id k')) as [E | E];
    [| exact Hx].
  apply (get_absent d k'). unfold OrderedDict.has, OrderedDict.keys.
  now rewrite <- E.
Qed.

Lemma clearing_total_zero (p : Spec.polarity) (d : OrderedDict.t) :
  Forall (fun kv => Spec.clearing_side p (snd kv)) d ->
  ledger_total d = 0 -> exhausted d.
Proof.
  unfold ledger_total. intros Hd Ht k.
  apply (OrderedDictFacts.Forall_get (fun v => v = 0)); [|reflexivity].
  assert (Hs : Spec.clearing_side p (Wizard.sum (map snd d))).
  { clear Ht. induction Hd as [| kv d Hkv _ IH]; simpl; polar p; lia. }
  revert Ht Hs. induction Hd as [| kv d Hkv Hd IH]; simpl; intros Ht Hs;
    [constructor|].
  assert (Hrest : Spec.clearing_side p (Wizard.sum (map snd d))).
  { clear IH Ht Hs. induction Hd as [| kv' d' Hkv' _ IH']; simpl; polar p; lia. }
  assert (E : snd kv = 0 /\ Wizard.sum (map snd d) = 0) by (polar p; lia).
  destruct E as [E1 E2]. constructor; [exact E1|]. apply IH; [exact E2 | exact Hrest].
Qed.

Lemma source_total_zero (p : Spec.polarity) (log : Wizard.run_log) :
  Forall (fun e => Spec.source_side p (left_over e)) log ->
  Wizard.sum (map left_over log) = 0 -> Forall settled log.
Proof.
  intros Hl. induction Hl as [| e log He Hl IH]; simpl; intros Ht;
    [constructor|].
  assert (Hrest : Spec.source_side p (Wizard.sum (map left_over log))).
  { clear IH Ht. induction Hl as [| e' l' He' _ IH']; simpl; polar p; lia. }
  assert (E : left_over e = 0 /\ Wizard.sum (map left_over log) = 0)
    by (polar p; lia).
  destruct E as [E1 E2]. constructor; [|now apply IH].
  unfold settled, left_over in *. lia.
Qed.

Lemma settled_total (log : Wizard.run_log) :
  Forall settled log -> Wizard.sum (map left_over log) = 0.
Proof.
  induction 1 as [| e log He _ IH]; simpl; [reflexivity|].
  unfold settled, left_over in *. lia.
Qed.

Lemma left_over_total (log : Wizard.run_log) :
  Wizard.sum (map left_over log)
  = Wizard.sum (map MoveLine.amount_residual (map fst log)) - used_in_run log.
Proof.
  unfold used_in_run.
  induction log as [| e log IH]; simpl; [reflexivity|].
  rewrite IH. unfold left_over. lia.
Qed.

(** In a valid run the ledger ends at what it started with plus what was
    used, and what is left of every source residual is on the source
    side. *)
Lemma run_totals (p : Spec.polarity) :
  Spec.valid_run p self ->
  let a := fst (fst (Wizard.run self)) in
  let g := snd (Wizard.run self) in
  ledger_valid r p a
  /\ NoDup (map MoveLine.id (OrderedDict.keys a))
  /\ ledger_total a
     = ledger_total (Wizard.clear_lines_availability self) + used_in_run g
  /\ Forall (fun e => Spec.source_side p (left_over e)) g.
Proof.
  intros [(Hr & Hms & Hmc) [Hps Hpc]].
  pose proof (run_invariant self (source_valid r p)
    (fun _ a _ g =>
       ledger_valid r p a
       /\ NoDup (map MoveLine.id (OrderedDict.keys a))
       /\ ledger_total a
          = ledger_total (Wizard.clear_lines_availability self) + used_in_run g
       /\ Forall (fun e => Spec.source_side p (left_over e)) g)) as H.
  simpl in H. destruct (Wizard.run self) as [[a m] g]. simpl.
  apply H; clear H.
  - intros _ ml avail lv log Hml (Hd & Hnd & Ht & Hl).
    pose proof (clear_move_line_monetary self Hr avail ml (proj1 Hd) (proj1 Hml))
      as (_ & _ & Hd' & _ & Hlog).
    pose proof (clear_move_line_polar self Hr p avail ml Hd Hml)
      as (Hs' & Hc' & _).
    split; [split; assumption|]. split; [now rewrite clear_move_line_key_ids|].
    split.
    + rewrite clear_move_line_total, Ht. unfold used_in_run.
      rewrite map_app, sum_app. simpl. lia.
    + apply Forall_app. split; [assumption|]. constructor; [|constructor].
      unfold left_over. simpl. rewrite Hlog.
      replace (MoveLine.amount_residual ml
               - (MoveLine.amount_residual ml
                  - Wizard.ml_amount_residual (Wizard.clear_move_line self avail ml)))
        with (Wizard.ml_amount_residual (Wizard.clear_move_line self avail ml))
        by lia.
      exact Hs'.
  - auto.
  - apply Forall_forall. intros ml Hml. split.
    + exact (proj1 (Forall_forall _ _) Hms ml Hml).
    + exact (proj1 (Forall_forall _ _) Hps ml Hml).
  - split; [split|split; [|split]].
    + apply (fill_availability_Forall (monetary r)); [assumption | constructor].
    + apply (fill_availability_Forall (Spec.clearing_side p));
        [assumption | constructor].
    + apply fill_availability_NoDup. constructor.
    + unfold used_in_run. simpl. lia.
    + constructor.
Qed.

End Totals.

(** X5: when the amounts to clear cover the source residuals exactly (the
    wizard's amount to clear is zero) in a valid allocation run whose
    candidates are distinct move lines, the run clears every source line in
    full and leaves nothing in the ledger. *)
Theorem exact_cover_clears_everything (self : Wizard.t) (p : Spec.polarity) :
  Spec.valid_run p self ->
  Spec.distinct_candidates self ->
  Wizard.amount_to_clear self = 0 ->
  Forall settled (snd (Wizard.run self))
  /\ exhausted (fst (fst (Wizard.run self))).
Proof.
  intros Hv Hdist Hzero.
  assert (Hr : 0 < Currency.rounding (Wizard.company_currency_id self))
    by apply Hv.
  destruct (run_totals self Hr p Hv) as ((_ & Hc) & Hnd & Ht & Hl).
  pose proof (left_over_total (snd (Wizard.run self))) as Hlo.
  rewrite run_log_sources in Hlo.
  unfold Wizard.clear_lines_availability in Ht.
  rewrite (fill_availability_total (Wizard.line_ids self) [] Hdist) in Ht
    by (intros cl _ []).
  unfold Wizard.amount_to_clear in Hzero. unfold amounts, ledger_total in Ht.
  simpl in Ht.
  assert (Hbal : ledger_total (fst (fst (Wizard.run self)))
                 = - Wizard.sum (map left_over (snd (Wizard.run self)))).
  { unfold ledger_total. lia. }
  destruct (run_greedy self p Hv) as [Hs | Hx].
  - split; [assumption|].
    apply (clearing_total_zero p _ Hc).
    rewrite Hbal, (settled_total _ Hs). reflexivity.
  - split; [|assumption].
    apply (source_total_zero p _ Hl).
    pose proof (exhausted_total _ Hnd Hx) as H0. lia.
Qed.

Lemma exact_cover_clears_everything_witness :
  Spec.valid_run Spec.SourceNegative scenario_split
  /\ Spec.distinct_candidates scenario_split
  /\ Wizard.amount_to_clear scenario_split = 0
  /\ Forall settled (snd (Wizard.run scenario_split))
  /\ exhausted (fst (fst (Wizard.run scenario_split))).
Proof.
  assert (Hd : Spec.distinct_candidates scenario_split).
  { unfold Spec.distinct_candidates. simpl. repeat constructor. intros []. }
  split; [exact scenario_split_valid|]. split; [exact Hd|].
  split; [reflexivity|].
  apply (exact_cover_clears_everything scenario_split Spec.SourceNegative
           scenario_split_valid Hd).
  reflexivity.
Defined.

(* ================================================================= *)
(** ** The preview *)

Section PreviewFacts.

Import Preview.

Variable self : Wizard.t.

Lemma unnamed_state_fields (st1 st2 : Wizard.loop_state) :
  unnamed_state st1 = unnamed_state st2 ->
  Wizard.ml_amount_residual st1 = Wizard.ml_amount_residual st2
  /\ Wizard.cl_balance st1 = Wizard.cl_balance st2
  /\ Wizard.availability st1 = Wizard.availability st2
  /\ map unnamed_line (Wizard.related_move_line_vals st1)
     = map unnamed_line (Wizard.related_move_line_vals st2)
  /\ Wizard.used_log st1 = Wizard.used_log st2.
Proof. unfold unnamed_state. intros E. inversion E. auto. Qed.

Lemma clear_step_preview (st1 st2 : Wizard.loop_state) (k : MoveLine.t) :
  unnamed_state st1 = unnamed_state st2 ->
  unnamed_state (Wizard.clear_step (with_preview self) st1 k)
  = unnamed_state (Wizard.clear_step self st2 k).
Proof.
  intros E. destruct (unnamed_state_fields _ _ E) as (Em & Eb & Ea & Er & El).
  unfold Wizard.clear_step, Wizard.used_amount, Wizard.clear_sign.
  rewrite Em, Eb, Ea, El.
  change (Wizard.get_amount_to_use (with_preview self))
    with (Wizard.get_amount_to_use self).
  change (Wizard.get_debit_credit (with_preview self))
    with (Wizard.get_debit_credit self).
  destruct (Wizard.get_debit_credit self _) as [d c].
  unfold unnamed_state. simpl. rewrite !map_app, Er. reflexivity.
Qed.

Lemma clear_loop_preview (keys : list MoveLine.t) (st1 st2 : Wizard.loop_state) :
  unnamed_state st1 = unnamed_state st2 ->
  unnamed_state (Wizard.clear_loop (with_preview self) keys st1)
  = unnamed_state (Wizard.clear_loop self keys st2).
Proof.
  revert st1 st2. induction keys as [| k keys IH]; intros st1 st2 E; simpl;
    [assumption|].
  destruct (unnamed_state_fields _ _ E) as (Em & _ & Ea & _).
  change (Wizard.fiz (with_preview self)) with (Wizard.fiz self).
  rewrite Em, Ea.
  destruct (Wizard.fiz self (Wizard.ml_amount_residual st2)); [assumption|].
  destruct (Wizard.fiz self (OrderedDict.get (Wizard.availability st2) k)).
  - now apply IH.
  - apply IH. now apply clear_step_preview.
Qed.

Lemma clear_move_line_preview (avail : OrderedDict.t) (ml : MoveLine.t) :
  unnamed_state (Wizard.clear_move_line (with_preview self) avail ml)
  = unnamed_state (Wizard.clear_move_line self avail ml).
Proof. unfold Wizard.clear_move_line. now apply clear_loop_preview. Qed.

Lemma move_line_vals_preview (ml : MoveLine.t) (st1 st2 : Wizard.loop_state) :
  unnamed_state st1 = unnamed_state st2 ->
  map unnamed_line (Wizard.move_line_vals (with_preview self) ml st1)
  = map unnamed_line (Wizard.move_line_vals self ml st2).
Proof.
  intros E. destruct (unnamed_state_fields _ _ E) as (_ & Eb & _ & Er & _).
  unfold Wizard.move_line_vals. rewrite Eb.
  change (Wizard.get_debit_credit (with_preview self))
    with (Wizard.get_debit_credit self).
  change (Wizard.fiz (with_preview self)) with (Wizard.fiz self).
  destruct (Wizard.get_debit_credit self _) as [d c].
  destruct (_ && _); simpl; [reflexivity|]. now rewrite Er.
Qed.

Lemma lines_loop_preview (mls : list MoveLine.t) (avail : OrderedDict.t)
      (lv1 lv2 : list line_val) (log : Wizard.run_log) :
  map unnamed_line lv1 = map unnamed_line lv2 ->
  let '(a1, l1, g1) := Wizard.lines_loop (with_preview self) mls avail lv1 log in
  let '(a2, l2, g2) := Wizard.lines_loop self mls avail lv2 log in
  a1 = a2 /\ map unnamed_line l1 = map unnamed_line l2 /\ g1 = g2.
Proof.
  revert avail lv1 lv2 log.
  induction mls as [| ml mls IH]; intros avail lv1 lv2 log E; simpl; [auto|].
  pose proof (clear_move_line_preview avail ml) as Est.
  destruct (unnamed_state_fields _ _ Est) as (_ & _ & Ea & _ & El).
  rewrite Ea, El. apply IH.
  rewrite !map_app, E, (move_line_vals_preview ml _ _ Est). reflexivity.
Qed.

Lemma moves_loop_preview (groups : list (Move.t * list MoveLine.t))
      (avail : OrderedDict.t) (mvs1 mvs2 : list move_val) (log : Wizard.run_log) :
  map unnamed_move mvs1 = map unnamed_move mvs2 ->
  map unnamed_move
      (snd (fst (Wizard.moves_loop (with_preview self) groups avail mvs1 log)))
  = map unnamed_move (snd (fst (Wizard.moves_loop self groups avail mvs2 log))).
Proof.
  revert avail mvs1 mvs2 log.
  induction groups as [| [move mls] groups IH]; intros avail mvs1 mvs2 log E;
    simpl; [assumption|].
  pose proof (lines_loop_preview mls avail [] [] log eq_refl) as H.
  destruct (Wizard.lines_loop (with_preview self) mls avail [] log)
    as [[a1 l1] g1].
  destruct (Wizard.lines_loop self mls avail [] log) as [[a2 l2] g2].
  destruct H as (-> & El & ->).
  destruct l1 as [| x1 l1]; destruct l2 as [| x2 l2]; try discriminate.
  - now apply IH.
  - apply IH. rewrite !map_app, E. f_equal.
    unfold unnamed_move. simpl. simpl in El. now rewrite El.
Qed.

Lemma run_preview :
  map unnamed_move (Wizard._get_move_dict_vals (with_preview self))
  = map unnamed_move (Wizard._get_move_dict_vals self).
Proof.
  unfold Wizard._get_move_dict_vals, Wizard.run.
  now apply moves_loop_preview.
Qed.

End PreviewFacts.

(** X6: with a positive currency rounding, the moves computed for the
    preview ([_compute_move_data]) are the moves [_get_move_dict_vals]
    gives for posting, labels apart: the same moves in the same order, each
    with the same journal items (debit, credit, account, partner, currency
    and line to reconcile). *)
Theorem preview_shows_the_posted_amounts (self : Wizard.t) :
  0 < Currency.rounding (Wizard.company_currency_id self) ->
  map Preview.unnamed_move (Preview._compute_move_data self)
  = map Preview.unnamed_move (Wizard._get_move_dict_vals self).
Proof.
  intros Hr. unfold Preview._compute_move_data.
  destruct (Wizard.move_line_ids self) as [| ml mls] eqn:Em.
  - unfold Wizard._get_move_dict_vals, Wizard.run. rewrite Em. reflexivity.
  - destruct (Wizard.line_ids self) as [| cl cls] eqn:El.
    + unfold Wizard._get_move_dict_vals, Wizard.run,
        Wizard.clear_lines_availability.
      rewrite El. simpl Wizard.fill_availability.
      now rewrite (moves_loop_empty_ledger self Hr).
    + apply run_preview.
Qed.

Lemma preview_shows_the_posted_amounts_witness :
  0 < Currency.rounding (Wizard.company_currency_id scenario_split)
  /\ map Preview.unnamed_move (Preview._compute_move_data scenario_split)
     = map Preview.unnamed_move (Wizard._get_move_dict_vals scenario_split).
Proof.
  split; [reflexivity|].
  apply (preview_shows_the_posted_amounts scenario_split). reflexivity.
Defined.

(* ================================================================= *)
(** ** Further properties of the planner *)

Section PlannerMore.

Variable self : Wizard.t.

Local Abbreviation r := (Currency.rounding (Wizard.company_currency_id self)).

Local Abbreviation assign := (Spec.assign r Spec.by_candidate).

Local Abbreviation plan := (Spec.plan r Spec.by_candidate).

Lemma float_is_zero_opp (x : Z) :
  FloatUtils.float_is_zero (- x) r = FloatUtils.float_is_zero x r.
Proof.
  unfold FloatUtils.float_is_zero, FloatUtils.float_round.
  rewrite Z.sgn_opp, Z.abs_opp, Z.mul_opp_l, Z.abs_opp. reflexivity.
Qed.

(** The target the planner ends on is the opposite of the amount to clear
    of the wizard it leaves. *)
Lemma target_after_fill :
  - Wizard.amount_to_clear (Wizard.action_fill_amount_to_clear self)
  = snd (plan (- Wizard.amount_to_clear self) (Wizard.line_ids self)).
Proof.
  rewrite (action_fill_eq self).
  pose proof (plan_conservation self (Wizard.line_ids self)
                (- Wizard.amount_to_clear self)) as Hc.
  unfold Wizard.amount_to_clear at 1. simpl.
  unfold Wizard.amount_to_clear, amounts in *. lia.
Qed.

Lemma line_ids_after_fill :
  Wizard.line_ids (Wizard.action_fill_amount_to_clear self)
  = fst (plan (- Wizard.amount_to_clear self) (Wizard.line_ids self)).
Proof. rewrite (action_fill_eq self). reflexivity. Qed.

Lemma assign_kept (t : Z) (c : Lines.t) :
  kept c (fst (assign t c))
  /\ Lines.amount_residual (fst (assign t c)) = Lines.amount_residual c.
Proof.
  unfold Spec.assign, kept.
  destruct (Z.eqb_spec (Lines.amount_to_clear c) 0) as [E | E]; simpl; [|auto].
  destruct (FloatUtils.float_is_zero t r); simpl; [tauto|].
  destruct (if Spec.by_candidate t c <? 0 then _ else _); simpl; tauto.
Qed.

Lemma plan_kept (lines : list Lines.t) (t : Z) :
  Forall2 kept lines (fst (plan t lines)).
Proof.
  revert t. induction lines as [| c rest IH]; intros t; simpl; [constructor|].
  pose proof (assign_kept t c) as [Hc _].
  destruct (assign t c) as [c' t1]. specialize (IH t1).
  destruct (plan t1 rest). simpl in *. now constructor.
Qed.

Variable p : Spec.polarity.

(** An assignment from a target on the clearing side to a candidate whose
    residual is on the side of its comparator. *)
Lemma assign_same_side (t : Z) (c : Lines.t) :
  Spec.clearing_side p t ->
  candidate_side p (Lines.amount_residual c) ->
  let c' := fst (assign t c) in
  let t' := snd (assign t c) in
  Spec.clearing_side p t' /\ Z.abs t' <= Z.abs t
  /\ (Lines.amount_to_clear c = 0 ->
      Spec.clearing_side p (Lines.amount_to_clear c')
      /\ Z.abs (Lines.amount_to_clear c') <= Z.abs (Lines.amount_residual c)
      /\ (Lines.amount_to_clear c' = 0
          \/ Lines.amount_to_clear c' = t
          \/ Lines.amount_to_clear c' = Lines.amount_residual c)).
Proof.
  intros Ht Hc. unfold Spec.assign, Spec.by_candidate, candidate_side in *.
  destruct (Z.eqb_spec (Lines.amount_to_clear c) 0) as [E | E]; simpl.
  2:{ repeat split; try assumption; try lia. }
  destruct (FloatUtils.float_is_zero t r); simpl.
  { repeat split; try assumption; try lia; polar p; lia. }
  destruct (Z.ltb_spec (Lines.amount_residual c) 0).
  - destruct (Z.leb_spec t (Lines.amount_residual c)); simpl;
      repeat split; try lia; polar p; lia.
  - destruct (Z.geb_spec t (Lines.amount_residual c)); simpl;
      repeat split; try lia; polar p; lia.
Qed.

Lemma plan_same_side (lines : list Lines.t) (t : Z) :
  Spec.clearing_side p t ->
  Forall (fun cl => candidate_side p (Lines.amount_residual cl)
                    /\ Z.abs (Lines.amount_to_clear cl)
                       <= Z.abs (Lines.amount_residual cl)) lines ->
  Spec.clearing_side p (snd (plan t lines))
  /\ Z.abs (snd (plan t lines)) <= Z.abs t
  /\ Forall (fun cl => candidate_side p (Lines.amount_residual cl)
                       /\ Z.abs (Lines.amount_to_clear cl)
                          <= Z.abs (Lines.amount_residual cl))
            (fst (plan t lines)).
Proof.
  intros Ht Hl. revert t Ht.
  induction Hl as [| c rest [Hc Hw] _ IH]; intros t Ht; simpl.
  - repeat split; [assumption | lia | constructor].
  - pose proof (assign_same_side t c Ht Hc) as (H1 & H2 & H3).
    pose proof (assign_kept t c) as [(_ & _ & Hk) Hres].
    destruct (assign t c) as [c' t1]. simpl in *.
    destruct (IH t1 H1) as (H4 & H5 & H6).
    destruct (plan t1 rest) as [rest' t']. simpl in *.
    repeat split; [assumption | lia |].
    constructor; [|assumption]. rewrite Hres. split; [assumption|].
    destruct (Z.eq_dec (Lines.amount_to_clear c) 0) as [E | E].
    + now apply H3.
    + rewrite (Hk E). exact Hw.
Qed.

(** The amounts the planner assigns are on the clearing side, and Monetary
    when the target and the residuals are. *)
Lemma plan_amounts (lines : list Lines.t) (t : Z) :
  Spec.clearing_side p t -> monetary r t ->
  Forall (fun cl => candidate_side p (Lines.amount_residual cl)) lines ->
  Forall (fun cl => monetary r (Lines.amount_residual cl)) lines ->
  Forall (fun cl => Spec.clearing_side p (Lines.amount_to_clear cl)) lines ->
  Forall (fun cl => monetary r (Lines.amount_to_clear cl)) lines ->
  Forall (fun cl => Spec.clearing_side p (Lines.amount_to_clear cl))
         (fst (plan t lines))
  /\ Forall (fun cl => monetary r (Lines.amount_to_clear cl)) (fst (plan t lines)).
Proof.
  intros Ht Hmt Hc. revert t Ht Hmt.
  induction Hc as [| c rest Hc _ IH]; intros t Ht Hmt Hmr Hs Hma; simpl.
  - split; constructor.
  - inversion Hmr as [| ? ? Hmr1 Hmr2]; subst.
    inversion Hs as [| ? ? Hs1 Hs2]; subst.
    inversion Hma as [| ? ? Hma1 Hma2]; subst.
    pose proof (assign_same_side t c Ht Hc) as (H1 & _ & H3).
    pose proof (assign_kept t c) as [(_ & _ & Hk) _].
    assert (Hmt1 : monetary r (snd (assign t c))).
    { unfold Spec.assign.
      destruct (Lines.amount_to_clear c =? 0); simpl; [|assumption].
      destruct (FloatUtils.float_is_zero t r); simpl; [assumption|].
      destruct (if Spec.by_candidate t c <? 0 then _ else _); simpl;
        auto with monetary. }
    destruct (assign t c) as [c' t1]. simpl in *.
    destruct (IH t1 H1 Hmt1 Hmr2 Hs2 Hma2) as [H4 H5].
    destruct (plan t1 rest) as [rest' t']. simpl in *.
    destruct (Z.eq_dec (Lines.amount_to_clear c) 0) as [E | E].
    + destruct (H3 E) as (H6 & _ & H7).
      split; constructor; try assumption.
      destruct H7 as [-> | [-> | ->]]; auto with monetary.
    + rewrite (Hk E). split; constructor; assumption.
Qed.

End PlannerMore.

Lemma check_amount_to_clear_Forall (records : list Lines.t) :
  Forall (fun record =>
            Z.abs (Lines.amount_to_clear record)
            <= Z.abs (Lines.amount_residual record)) records ->
  Lines._check_amount_to_clear records = Ok tt.
Proof.
  induction 1 as [| record rest H _ IH]; simpl; [reflexivity|].
  destruct (Z.gtb_spec (Z.abs (Lines.amount_to_clear record))
                       (Z.abs (Lines.amount_residual record))); [lia | exact IH].
Qed.

(** X7: when the target of the planner is on the clearing side and every
    candidate has its residual on that side (non-negative when the source
    residuals are negative, negative when they are positive) and holds no
    more than its residual, the amounts the planner leaves pass the
    constraint on the amount to clear: no validation error is raised. *)
Theorem planner_passes_validation (self : Wizard.t) (p : Spec.polarity) :
  plannable p self ->
  Lines._check_amount_to_clear
    (Wizard.line_ids (Wizard.action_fill_amount_to_clear self)) = Ok tt.
Proof.
  intros (Hr & Ht & Hl). apply check_amount_to_clear_Forall.
  rewrite line_ids_after_fill.
  destruct (plan_same_side self p _ _ Ht Hl) as (_ & _ & H).
  eapply Forall_impl; [|exact H]. simpl. tauto.
Qed.

Lemma scenario_plan_plannable : plannable Spec.SourceNegative scenario_plan.
Proof.
  unfold plannable. simpl.
  split; [lia | split; [lia |]].
  constructor; [|constructor].
  unfold candidate_side, Lines.amount_residual. simpl. lia.
Defined.

Lemma planner_passes_validation_witness :
  plannable Spec.SourceNegative scenario_plan
  /\ Lines._check_amount_to_clear
       (Wizard.line_ids (Wizard.action_fill_amount_to_clear scenario_plan))
     = Ok tt.
Proof.
  split; [exact scenario_plan_plannable|].
  apply (planner_passes_validation scenario_plan Spec.SourceNegative).
  exact scenario_plan_plannable.
Defined.

(** X8: under the same conditions the planner never overshoots: the amount
    still to clear after it is on the same side as before and no larger in
    magnitude. *)
Theorem planner_never_overshoots (self : Wizard.t) (p : Spec.polarity) :
  plannable p self ->
  let after := Wizard.action_fill_amount_to_clear self in
  Spec.clearing_side p (- Wizard.amount_to_clear after)
  /\ Z.abs (Wizard.amount_to_clear after) <= Z.abs (Wizard.amount_to_clear self).
Proof.
  intros (Hr & Ht & Hl). simpl.
  pose proof (target_after_fill self) as E.
  destruct (plan_same_side self p _ _ Ht Hl) as (H1 & H2 & _).
  rewrite <- E in H1, H2. split; [assumption | lia].
Qed.

Lemma planner_never_overshoots_witness :
  plannable Spec.SourceNegative scenario_plan
  /\ Wizard.amount_to_clear scenario_plan = -100
  /\ Wizard.amount_to_clear (Wizard.action_fill_amount_to_clear scenario_plan) = 0
  /\ Z.abs (Wizard.amount_to_clear (Wizard.action_fill_amount_to_clear scenario_plan))
     <= Z.abs (Wizard.amount_to_clear scenario_plan).
Proof.
  split; [exact scenario_plan_plannable|].
  split; [reflexivity|]. split; [reflexivity|].
  exact (proj2 (planner_never_overshoots scenario_plan Spec.SourceNegative
                  scenario_plan_plannable)).
Defined.

Section PlannerShape.

Variable self : Wizard.t.

Local Abbreviation r := (Currency.rounding (Wizard.company_currency_id self)).

Local Abbreviation assign := (Spec.assign r Spec.by_candidate).

Local Abbreviation plan := (Spec.plan r Spec.by_candidate).

Lemma monetary_sum (l : list Z) :
  Forall (monetary r) l -> monetary r (Wizard.sum l).
Proof. induction 1; simpl; auto with monetary. Qed.

(** From a target that is zero within tolerance every unassigned candidate
    gets [0]. *)
Lemma plan_zero_all (lines : list Lines.t) (t : Z) :
  FloatUtils.float_is_zero t r = true ->
  Forall2 zeroed lines (fst (plan t lines)).
Proof.
  intros Ht. induction lines as [| c rest IH]; simpl; [constructor|].
  unfold Spec.assign at 1.
  destruct (Z.eqb_spec (Lines.amount_to_clear c) 0) as [E | E]; simpl.
  - rewrite Ht. destruct (plan t rest) as [rest' t']. simpl in *.
    constructor; [|assumption]. intros _. reflexivity.
  - destruct (plan t rest) as [rest' t']. simpl in *.
    constructor; [|assumption]. intros E'. contradiction.
Qed.

Hypothesis r_pos : 0 < r.

(** An assignment fills the candidate or leaves a target that is zero
    within tolerance. *)
Lemma assign_cases (t : Z) (c : Lines.t) :
  filled c (fst (assign t c))
  \/ FloatUtils.float_is_zero (snd (assign t c)) r = true.
Proof.
  unfold Spec.assign, filled.
  destruct (Z.eqb_spec (Lines.amount_to_clear c) 0) as [E | E]; simpl.
  - destruct (FloatUtils.float_is_zero t r) eqn:Ht; simpl; [now right|].
    destruct (if Spec.by_candidate t c <? 0 then _ else _); simpl.
    + now left.
    + right. apply (zero_is_zero self r_pos).
  - left. intros E'. contradiction.
Qed.

(** The planner gives whole residuals to the unassigned candidates it comes
    to first, then at most one other amount, then [0]. *)
Lemma plan_in_order (lines : list Lines.t) (t : Z) :
  exists pre pre' post post',
    lines = pre ++ post
    /\ fst (plan t lines) = pre' ++ post'
    /\ Forall2 filled pre pre'
    /\ List.length post = List.length post'
    /\ Forall2 zeroed (tl post) (tl post').
Proof.
  revert t. induction lines as [| c rest IH]; intros t.
  - exists [], [], [], []. simpl. repeat split; constructor.
  - simpl. pose proof (assign_cases t c) as Hc.
    destruct (assign t c) as [c' t1]. simpl in Hc.
    destruct Hc as [Hf | Hz].
    + destruct (IH t1) as (pre & pre' & post & post' & E1 & E2 & H1 & H2 & H3).
      destruct (plan t1 rest) as [rest' t']. simpl in *.
      exists (c :: pre), (c' :: pre'), post, post'.
      split; [simpl; now f_equal|]. split; [simpl; now f_equal|].
      split; [now constructor|]. split; assumption.
    + pose proof (plan_zero_all rest t1 Hz) as H.
      destruct (plan t1 rest) as [rest' t']. simpl in *.
      exists [], [], (c :: rest), (c' :: rest').
      simpl. repeat split; [constructor | | exact H].
      f_equal. exact (Forall2_length H).
Qed.

(** The planner ends on a target that is zero within tolerance, or has
    given every unassigned candidate its whole residual. *)
Lemma plan_exhaustive (lines : list Lines.t) (t : Z) :
  FloatUtils.float_is_zero (snd (plan t lines)) r = true
  \/ Forall2 filled lines (fst (plan t lines)).
Proof.
  revert t. induction lines as [| c rest IH]; intros t; simpl.
  - right. constructor.
  - pose proof (assign_cases t c) as Hc.
    destruct (assign t c) as [c' t1]. simpl in Hc.
    specialize (IH t1). pose proof (plan_reaches self rest t1) as [Hr _].
    destruct (plan t1 rest) as [rest' t']. simpl in *.
    destruct Hc as [Hf | Hz].
    + destruct IH as [H | H]; [now left | right]. now constructor.
    + left. now rewrite (Hr Hz).
Qed.

End PlannerShape.

(** X9: the planner keeps a run valid.  For a valid run whose wizard is
    plannable and whose candidates have Monetary residuals, the wizard the
    planner leaves is again a valid run of the same polarity: the amounts it
    assigned are Monetary values on the clearing side. *)
Theorem planner_keeps_run_valid (self : Wizard.t) (p : Spec.polarity) :
  Spec.valid_run p self -> plannable p self -> monetary_residuals self ->
  Spec.valid_run p (Wizard.action_fill_amount_to_clear self).
Proof.
  intros [(Hr & Hms & Hmc) [Hps Hpc]] (_ & Ht & Hl) Hres.
  assert (Hmt : monetary (Currency.rounding (Wizard.company_currency_id self))
                         (- Wizard.amount_to_clear self)).
  { apply monetary_opp. unfold Wizard.amount_to_clear.
    apply monetary_add; apply monetary_sum; apply Forall_map; assumption. }
  assert (Hside : Forall (fun cl => candidate_side p (Lines.amount_residual cl))
                         (Wizard.line_ids self)).
  { eapply Forall_impl; [|exact Hl]. simpl. tauto. }
  destruct (plan_amounts self p _ _ Ht Hmt Hside Hres Hpc Hmc) as [H1 H2].
  rewrite <- line_ids_after_fill in H1, H2.
  rewrite (action_fill_eq self) in *. simpl in *.
  unfold Spec.valid_run, Spec.monetary_run, Spec.opposite_polarity. simpl.
  repeat split; assumption.
Qed.

Lemma planner_keeps_run_valid_witness :
  Spec.valid_run Spec.SourceNegative scenario_plan
  /\ plannable Spec.SourceNegative scenario_plan
  /\ monetary_residuals scenario_plan
  /\ Spec.valid_run Spec.SourceNegative
       (Wizard.action_fill_amount_to_clear scenario_plan).
Proof.
  assert (Hv : Spec.valid_run Spec.SourceNegative scenario_plan).
  { unfold Spec.valid_run, Spec.monetary_run, Spec.opposite_polarity, monetary.
    simpl. repeat split; repeat constructor; simpl; try lia;
      apply Z.divide_1_l. }
  assert (Hm : monetary_residuals scenario_plan).
  { unfold monetary_residuals, monetary. simpl. repeat constructor.
    apply Z.divide_1_l. }
  split; [exact Hv|]. split; [exact scenario_plan_plannable|].
  split; [exact Hm|].
  exact (planner_keeps_run_valid scenario_plan Spec.SourceNegative
           Hv scenario_plan_plannable Hm).
Defined.

(** X10: with a positive currency rounding the planner stops short of its
    target only when it has used every candidate: after it, the amount to
    clear is zero within tolerance, or every candidate that was unassigned
    holds its whole residual. *)
Theorem planner_stops_only_when_done (self : Wizard.t) :
  0 < Currency.rounding (Wizard.company_currency_id self) ->
  let after := Wizard.action_fill_amount_to_clear self in
  Wizard.fiz self (Wizard.amount_to_clear after) = true
  \/ Forall2 filled (Wizard.line_ids self) (Wizard.line_ids after).
Proof.
  intros Hr after. subst after. unfold Wizard.fiz.
  rewrite <- (float_is_zero_opp self), target_after_fill, line_ids_after_fill.
  apply plan_exhaustive, Hr.
Qed.

Lemma planner_stops_only_when_done_witness :
  0 < Currency.rounding (Wizard.company_currency_id scenario_plan)
  /\ (Wizard.fiz scenario_plan
        (Wizard.amount_to_clear (Wizard.action_fill_amount_to_clear scenario_plan))
      = true
      \/ Forall2 filled (Wizard.line_ids scenario_plan)
           (Wizard.line_ids (Wizard.action_fill_amount_to_clear scenario_plan))).
Proof.
  split; [reflexivity|].
  apply (planner_stops_only_when_done scenario_plan). reflexivity.
Defined.

(** X11: the planner never touches what was assigned: it keeps the number
    and the order of the candidates, the move line and the sequence of each
    one, every candidate with a non-zero amount as it is, and the source
    lines of the wizard. *)
Theorem planner_keeps_assigned (self : Wizard.t) :
  let after := Wizard.action_fill_amount_to_clear self in
  Forall2 kept (Wizard.line_ids self) (Wizard.line_ids after)
  /\ Wizard.move_line_ids after = Wizard.move_line_ids self.
Proof.
  intros after. subst after. rewrite line_ids_after_fill.
  split; [apply plan_kept|].
  rewrite (action_fill_eq self). reflexivity.
Qed.

(** X12: with a positive currency rounding the planner fills the candidates
    in their order: the candidates split into a first part, in which every
    unassigned one gets its whole residual, and a second part, in which
    every unassigned one after the first gets [0]. *)
Theorem planner_fills_in_order (self : Wizard.t) :
  0 < Currency.rounding (Wizard.company_currency_id self) ->
  exists pre pre' post post',
    Wizard.line_ids self = pre ++ post
    /\ Wizard.line_ids (Wizard.action_fill_amount_to_clear self) = pre' ++ post'
    /\ Forall2 filled pre pre'
    /\ List.length post = List.length post'
    /\ Forall2 zeroed (tl post) (tl post').
Proof.
  intros Hr. rewrite line_ids_after_fill. apply plan_in_order, Hr.
Qed.

Lemma planner_fills_in_order_witness :
  0 < Currency.rounding (Wizard.company_currency_id scenario_assigned)
  /\ exists pre pre' post post',
       Wizard.line_ids scenario_assigned = pre ++ post
       /\ Wizard.line_ids (Wizard.action_fill_amount_to_clear scenario_assigned)
          = pre' ++ post'
       /\ Forall2 filled pre pre'
       /\ List.length post = List.length post'
       /\ Forall2 zeroed (tl post) (tl post').
Proof.
  split; [reflexivity|].
  apply (planner_fills_in_order scenario_assigned). reflexivity.
Defined.

(* ================================================================= *)
(** ** The account type of a move type *)

(** X13: the account type of the lines of a move is [receivable] when its
    type starts with [out_] and [payable] otherwise; the account type of
    its clearing counterpart is the same one when the move type contains
    [refund] and the other one otherwise. *)
Theorem internal_type_of_move_type (move_type : string) :
  let own := AccountType._get_internal_type_from_move_type move_type false in
  let counterpart := AccountType._get_internal_type_from_move_type move_type true in
  own = (if String.prefix "out_" move_type then "receivable" else "payable")
  /\ (counterpart = own <-> AccountType.contains "refund" move_type = true)
  /\ (counterpart = "payable" \/ counterpart = "receivable").
Proof.
  unfold AccountType._get_internal_type_from_move_type.
  destruct (String.prefix "out_" move_type);
    destruct (AccountType.contains "refund" move_type); simpl;
    repeat split; auto; intros H; discriminate.
Qed.

(* ================================================================= *)
(** ** Adding and resetting the clearing lines *)

Section AddLines.

Import Actions.

Lemma add_loop_acc (existing available : list MoveLine.t) (last_sequence : Z)
      (new_lines : list Lines.t) :
  add_loop existing available last_sequence new_lines
  = new_lines ++ add_loop existing available last_sequence [].
Proof.
  revert last_sequence new_lines.
  induction available as [| ml rest IH]; intros L acc; simpl.
  - now rewrite app_nil_r.
  - destruct (is_in ml existing); [apply IH|].
    rewrite (IH _ (acc ++ _)), (IH _ [new_line ml (L + 1)]), <- app_assoc.
    reflexivity.
Qed.

(** The lines added are those of the available move lines that are not
    candidates yet, in order, none of them assigned. *)
Lemma add_loop_lines (existing available : list MoveLine.t) (last_sequence : Z) :
  map Lines.move_line_id (add_loop existing available last_sequence [])
  = filter (fun ml => negb (is_in ml existing)) available
  /\ Forall (fun cl => Lines.amount_to_clear cl = 0)
            (add_loop existing available last_sequence []).
Proof.
  revert last_sequence.
  induction available as [| ml rest IH]; intros L; simpl; [split; constructor|].
  destruct (is_in ml existing); simpl; [apply IH|].
  rewrite add_loop_acc. destruct (IH (L + 10)) as [H1 H2]. simpl.
  split; [now rewrite H1 | now constructor].
Qed.

Lemma increasing_lower (a b : Z) (l : list Z) :
  increasing (a :: l) -> b <= a -> increasing (b :: l).
Proof. destruct l as [| c l]; simpl; [auto|]. intros [H1 H2] Hb. split; [lia | assumption]. Qed.

Lemma increasing_tail (a : Z) (l : list Z) : increasing (a :: l) -> increasing l.
Proof. destruct l as [| c l]; simpl; tauto. Qed.

Lemma increasing_app (l1 l2 : list Z) :
  increasing l1 -> increasing (last l1 0 :: l2) -> increasing (l1 ++ l2).
Proof.
  induction l1 as [| a l1 IH]; intros H1 H2.
  - simpl in *. now apply increasing_tail in H2.
  - destruct l1 as [| b l1].
    + simpl in *. exact H2.
    + destruct H1 as [Hab H1]. change ((a :: b :: l1) ++ l2)
        with (a :: (b :: l1) ++ l2).
      assert (H := IH H1 H2). simpl in *. split; assumption.
Qed.

(** The sequences of the lines added go up from above [last_sequence]. *)
Lemma add_loop_sequences (existing available : list MoveLine.t)
      (last_sequence : Z) :
  increasing (last_sequence
              :: map Lines.sequence (add_loop existing available last_sequence [])).
Proof.
  revert last_sequence.
  induction available as [| ml rest IH]; intros L; simpl; [exact I|].
  destruct (is_in ml existing); [apply IH|].
  rewrite add_loop_acc. simpl. split; [lia|].
  apply (increasing_lower (L + 10)); [apply IH | lia].
Qed.

Lemma is_in_spec (ml : MoveLine.t) (existing : list MoveLine.t) :
  is_in ml existing = true <-> In (MoveLine.id ml) (map MoveLine.id existing).
Proof.
  unfold is_in. rewrite existsb_exists, in_map_iff. unfold MoveLine.eqb.
  split; intros [x [H1 H2]]; exists x.
  - apply Z.eqb_eq in H2. split; [congruence | assumption].
  - split; [assumption|]. apply Z.eqb_eq. congruence.
Qed.

(** When every available move line is a candidate nothing is added. *)
Lemma add_loop_nothing (existing available : list MoveLine.t) (last_sequence : Z) :
  (forall ml, In ml available -> is_in ml existing = true) ->
  add_loop existing available last_sequence [] = [].
Proof.
  induction available as [| ml rest IH]; intros H; simpl; [reflexivity|].
  rewrite (H ml) by now left. apply IH. intros ml' Hml'. apply H. now right.
Qed.

Lemma NoDup_map_filter (f : MoveLine.t -> bool) (l : list MoveLine.t) :
  NoDup (map MoveLine.id l) -> NoDup (map MoveLine.id (filter f l)).
Proof.
  induction l as [| x l IH]; simpl; intros H; [constructor|].
  inversion H as [| ? ? Hx Hl]; subst.
  destruct (f x); simpl; [|now apply IH].
  constructor; [|now apply IH].
  rewrite in_map_iff. intros [y [Hy Hin]]. apply filter_In in Hin.
  apply Hx. rewrite <- Hy. apply in_map. tauto.
Qed.

Variable self : Wizard.t.

Variable available : list MoveLine.t.

(** The candidates after [action_add_lines]: those of the wizard, then the
    available move lines that were not candidates. *)
Lemma candidate_lines_added :
  Wizard.line_ids (action_add_lines self available)
  = Wizard.line_ids self
    ++ add_loop (candidate_lines self) available
         (last (map Lines.sequence (Wizard.line_ids self)) 0) [].
Proof.
  unfold action_add_lines, candidate_lines.
  destruct (add_loop _ _ _ _); simpl; [now rewrite app_nil_r | reflexivity].
Qed.

End AddLines.

(** X14: [action_add_lines] keeps the candidates distinct: when each move
    line is a candidate at most once and the available move lines are
    distinct, each move line is a candidate at most once afterwards; the
    candidates of the wizard are kept, in their places, and those added are
    not assigned. *)
Theorem add_lines_keeps_candidates_distinct
        (self : Wizard.t) (available : list MoveLine.t) :
  Spec.distinct_candidates self ->
  NoDup (map MoveLine.id available) ->
  let after := Actions.action_add_lines self available in
  Spec.distinct_candidates after
  /\ exists added,
       Wizard.line_ids after = Wizard.line_ids self ++ added
       /\ Forall (fun cl => Lines.amount_to_clear cl = 0) added.
Proof.
  intros Hd Ha after. subst after. unfold Spec.distinct_candidates in *.
  rewrite candidate_lines_added.
  set (L := last (map Lines.sequence (Wizard.line_ids self)) 0).
  destruct (add_loop_lines (candidate_lines self) available L) as [H1 H2].
  split; [| eexists; split; [reflexivity | exact H2]].
  rewrite <- (map_map Lines.move_line_id MoveLine.id) in *.
  rewrite map_app, H1, map_app. apply NoDup_app.
  - exact Hd.
  - now apply NoDup_map_filter.
  - intros a Hin Hnew. apply in_map_iff in Hnew. destruct Hnew as [ml [<- Hml]].
    apply filter_In in Hml. destruct Hml as [_ Hml].
    apply negb_true_iff in Hml.
    assert (Hyes : Actions.is_in ml (candidate_lines self) = true)
      by (apply is_in_spec; exact Hin).
    congruence.
Qed.

Lemma add_lines_keeps_candidates_distinct_witness :
  Spec.distinct_candidates scenario_plan
  /\ NoDup (map MoveLine.id [payment_line 3 150; payment_line 7 20])
  /\ Spec.distinct_candidates
       (Actions.action_add_lines scenario_plan
          [payment_line 3 150; payment_line 7 20]).
Proof.
  assert (Hd : Spec.distinct_candidates scenario_plan).
  { unfold Spec.distinct_candidates. simpl. repeat constructor. intros []. }
  assert (Ha : NoDup (map MoveLine.id [payment_line 3 150; payment_line 7 20])).
  { simpl. repeat constructor; simpl; intros H; intuition lia. }
  split; [exact Hd|]. split; [exact Ha|].
  exact (proj1 (add_lines_keeps_candidates_distinct scenario_plan _ Hd Ha)).
Defined.

(** X15: [action_add_lines] is idempotent: once it has run, every available
    move line is a candidate and a second run with the same available move
    lines adds nothing. *)
Theorem add_lines_idempotent (self : Wizard.t) (available : list MoveLine.t) :
  let after := Actions.action_add_lines self available in
  (forall ml, In ml available ->
     In (MoveLine.id ml) (map MoveLine.id (candidate_lines after)))
  /\ Actions.action_add_lines after available = after.
Proof.
  intros after.
  assert (Hall : forall ml, In ml available ->
            In (MoveLine.id ml) (map MoveLine.id (candidate_lines after))).
  { intros ml Hml. subst after. unfold candidate_lines.
    rewrite candidate_lines_added, map_app, map_app, in_app_iff.
    set (L := last (map Lines.sequence (Wizard.line_ids self)) 0).
    destruct (add_loop_lines (candidate_lines self) available L) as [H1 _].
    rewrite H1.
    destruct (Actions.is_in ml (candidate_lines self)) eqn:E.
    - left. now apply is_in_spec.
    - right. apply in_map, filter_In. split; [assumption|]. now rewrite E. }
  split; [exact Hall|].
  unfold Actions.action_add_lines at 1.
  fold (candidate_lines after).
  rewrite add_loop_nothing; [reflexivity|].
  intros ml Hml. apply is_in_spec. now apply Hall.
Qed.

(** X16: [action_add_lines] keeps the candidates in the order of their
    sequences: when the sequences of the candidates go up strictly, so do
    they afterwards, the lines added coming after the last candidate. *)
Theorem add_lines_keeps_sequences_increasing
        (self : Wizard.t) (available : list MoveLine.t) :
  increasing (map Lines.sequence (Wizard.line_ids self)) ->
  increasing (map Lines.sequence
                  (Wizard.line_ids (Actions.action_add_lines self available))).
Proof.
  intros H. rewrite candidate_lines_added, map_app.
  apply increasing_app; [exact H | apply add_loop_sequences].
Qed.

Lemma add_lines_keeps_sequences_increasing_witness :
  increasing (map Lines.sequence (Wizard.line_ids scenario_plan))
  /\ increasing
       (map Lines.sequence
            (Wizard.line_ids
               (Actions.action_add_lines scenario_plan
                  [payment_line 3 150; payment_line 7 20; payment_line 8 30]))).
Proof.
  split; [exact I|].
  apply (add_lines_keeps_sequences_increasing scenario_plan). exact I.
Defined.

Section ResetLines.

Import Actions.

Lemma add_loop_from_nothing (available : list MoveLine.t) (last_sequence : Z) :
  map Lines.move_line_id (add_loop [] available last_sequence []) = available
  /\ map Lines.sequence (add_loop [] available last_sequence [])
     = map (fun i => last_sequence + 1 + 10 * Z.of_nat i)
           (seq 0 (List.length available)).
Proof.
  revert last_sequence.
  induction available as [| ml rest IH]; intros L; [split; reflexivity|].
  change (add_loop [] (ml :: rest) L [])
    with (add_loop [] rest (L + 10) ([] ++ [new_line ml (L + 1)])).
  rewrite add_loop_acc. destruct (IH (L + 10)) as [H1 H2].
  change (([] ++ [new_line ml (L + 1)]) ++ add_loop [] rest (L + 10) [])
    with (new_line ml (L + 1) :: add_loop [] rest (L + 10) []).
  rewrite !map_cons, H1, H2. split; [reflexivity|].
  change (seq 0 (List.length (ml :: rest)))
    with (0%nat :: seq 1 (List.length rest)).
  rewrite map_cons, <- seq_shift, map_map.
  f_equal; [unfold new_line; simpl Lines.sequence; lia|].
  apply map_ext. intros i. lia.
Qed.

Lemma sum_unassigned (lines : list Lines.t) :
  Forall (fun cl => Lines.amount_to_clear cl = 0) lines -> amounts lines = 0.
Proof.
  unfold amounts. induction 1 as [| cl lines H _ IH]; simpl; [reflexivity | lia].
Qed.

End ResetLines.

(** X17: [action_reset_lines] leaves as candidates exactly the available
    move lines, in their order, none of them assigned, with the sequences
    1, 11, 21 and so on; the amount to clear of the wizard is then the
    residual of its source lines. *)
Theorem reset_lines_gives_the_available_lines
        (self : Wizard.t) (available : list MoveLine.t) :
  let after := Actions.action_reset_lines self available in
  candidate_lines after = available
  /\ Forall (fun cl => Lines.amount_to_clear cl = 0) (Wizard.line_ids after)
  /\ map Lines.sequence (Wizard.line_ids after)
     = map (fun i => 1 + 10 * Z.of_nat i) (seq 0 (List.length available))
  /\ Wizard.amount_to_clear after = Spec.source_amount self.
Proof.
  intros after.
  assert (E : Wizard.line_ids after = Actions.add_loop [] available 0 []).
  { subst after. unfold Actions.action_reset_lines.
    rewrite candidate_lines_added. reflexivity. }
  assert (Em : Wizard.move_line_ids after = Wizard.move_line_ids self).
  { subst after. unfold Actions.action_reset_lines, Actions.action_add_lines.
    destruct (Actions.add_loop _ _ _ _); reflexivity. }
  destruct (add_loop_from_nothing available 0) as [H1 H2].
  destruct (add_loop_lines [] available 0) as [_ H3].
  unfold candidate_lines. rewrite E.
  repeat split; try assumption.
  unfold Wizard.amount_to_clear, Spec.source_amount. rewrite Em, E.
  pose proof (sum_unassigned _ H3) as H0. unfold amounts in H0. lia.
Qed.

(* ================================================================= *)
(** ** The constraint on the invoices *)

Section Uniq.

Context {A : Type}.

Variable eqb : A -> A -> bool.

Hypothesis eqb_eq : forall a b, eqb a b = true <-> a = b.

Lemma In_uniq (l : list A) (b : A) :
  In b (Constraints.uniq eqb l) <-> In b l.
Proof.
  induction l as [| a l IH]; simpl; [tauto|].
  rewrite filter_In, IH, negb_true_iff.
  destruct (eqb a b) eqn:E.
  - apply eqb_eq in E. intuition congruence.
  - assert (a <> b) by (intro H; apply eqb_eq in H; congruence).
    intuition congruence.
Qed.

(** At most one item is left when, and only when, all the items are equal. *)
Lemma uniq_single (l : list A) :
  (1 <? List.length (Constraints.uniq eqb l))%nat = false
  <-> forall a b, In a l -> In b l -> a = b.
Proof.
  destruct l as [| a l]; simpl.
  - split; [intros _ ? ? [] | reflexivity].
  - rewrite Nat.ltb_ge. split.
    + intros H.
      assert (E : filter (fun b => negb (eqb a b)) (Constraints.uniq eqb l) = []).
      { destruct (filter _ _); [reflexivity | simpl in H; lia]. }
      assert (Ha : forall b, In b l -> a = b).
      { intros b Hb. destruct (eqb a b) eqn:Eab; [now apply eqb_eq|].
        assert (Hin : In b (filter (fun b => negb (eqb a b)) (Constraints.uniq eqb l))).
        { apply filter_In. split; [now apply In_uniq | now rewrite Eab]. }
        rewrite E in Hin. destruct Hin. }
      intros x y [<- | Hx] [<- | Hy]; auto.
      * symmetry. auto.
      * rewrite <- (Ha x Hx). auto.
    + intros H.
      assert (E : filter (fun b => negb (eqb a b)) (Constraints.uniq eqb l) = []).
      { destruct (filter _ _) as [| b f] eqn:Ef; [reflexivity|].
        assert (Hin : In b (b :: f)) by now left.
        rewrite <- Ef in Hin. apply filter_In in Hin. destruct Hin as [Hb Hn].
        apply (proj1 (In_uniq _ _)) in Hb.
        rewrite (proj2 (eqb_eq a b)) in Hn; [discriminate|].
        apply H; [now left | now right]. }
      rewrite E. simpl. lia.
Qed.

Lemma uniq_idem (l : list A) :
  List.length (Constraints.uniq eqb (Constraints.uniq eqb l))
  = List.length (Constraints.uniq eqb l).
Proof.
  assert (H : forall l, NoDup (Constraints.uniq eqb l)).
  { clear l. induction l as [| a l IH]; simpl; constructor.
    - rewrite filter_In. intros [_ Hn].
      rewrite (proj2 (eqb_eq a a) eq_refl) in Hn. discriminate.
    - now apply NoDup_filter. }
  assert (F : forall l, NoDup l -> Constraints.uniq eqb l = l).
  { clear l. induction 1 as [| a l Ha Hl IH]; simpl; [reflexivity|].
    rewrite IH. f_equal.
    apply forallb_filter_id. apply forallb_forall. intros b Hb.
    destruct (eqb a b) eqn:E; [|reflexivity].
    apply eqb_eq in E. congruence. }
  now rewrite (F _ (H l)).
Qed.

End Uniq.

Section Invoices.

Variable commercial_partner_of : Z -> Z.

Lemma agree_map {A : Type} (f : Invoice.t -> A) (invoices : list Invoice.t) :
  (forall a b, In a (map f invoices) -> In b (map f invoices) -> a = b)
  <-> agree f invoices.
Proof.
  unfold agree. split.
  - intros H a b Ha Hb. apply H; now apply in_map.
  - intros H a b Ha Hb. apply in_map_iff in Ha, Hb.
    destruct Ha as [x [<- Hx]], Hb as [y [<- Hy]]. auto.
Qed.

Lemma partners_single (invoices : list Invoice.t) :
  (1 <? List.length
          (Constraints.uniq Z.eqb
             (Constraints._get_commercial_partners commercial_partner_of invoices)))%nat
  = false
  <-> agree (commercial_partner commercial_partner_of) invoices.
Proof.
  unfold Constraints._get_commercial_partners.
  rewrite (uniq_idem Z.eqb Z.eqb_eq), (uniq_single Z.eqb Z.eqb_eq).
  unfold agree, commercial_partner. split.
  - intros H a b Ha Hb. apply H; apply in_map, (In_uniq Z.eqb Z.eqb_eq);
      now apply in_map.
  - intros H a b Ha Hb. apply in_map_iff in Ha, Hb.
    destruct Ha as [x [<- Hx]], Hb as [y [<- Hy]].
    apply (proj1 (In_uniq Z.eqb Z.eqb_eq _ _)) in Hx, Hy.
    apply in_map_iff in Hx, Hy.
    destruct Hx as [i [<- Hi]], Hy as [j [<- Hj]]. auto.
Qed.

Lemma move_types_single (invoices : list Invoice.t) :
  (1 <? List.length (Constraints._get_move_types invoices))%nat = false
  <-> agree Invoice.move_type invoices.
Proof.
  unfold Constraints._get_move_types.
  rewrite (uniq_single String.eqb String.eqb_eq). apply agree_map.
Qed.

Lemma companies_single (invoices : list Invoice.t) :
  (1 <? List.length (Constraints._get_companies invoices))%nat = false
  <-> agree Invoice.company_id invoices.
Proof.
  unfold Constraints._get_companies.
  rewrite (uniq_single Z.eqb Z.eqb_eq). apply agree_map.
Qed.

Lemma check_invoices_ok (invoices : list Invoice.t) :
  Constraints.check_invoices commercial_partner_of invoices = Ok tt
  <-> agree (commercial_partner commercial_partner_of) invoices
      /\ agree Invoice.move_type invoices
      /\ agree Invoice.company_id invoices.
Proof.
  rewrite <- partners_single, <- move_types_single, <- companies_single.
  unfold Constraints.check_invoices.
  destruct (1 <? _)%nat; [split; [discriminate | intros [? _]; discriminate]|].
  destruct (1 <? _)%nat; [split; [discriminate | intros (_ & ? & _); discriminate]|].
  destruct (1 <? _)%nat; [split; [discriminate | intros (_ & _ & ?); discriminate]|].
  tauto.
Qed.

End Invoices.

(** X18: the constraint on the invoices passes exactly when, in every
    wizard, all the invoices have the same commercial partner (the
    commercial partner of their commercial partner), the same move type and
    the same company; a wizard without invoices passes. *)
Theorem invoices_check_passes_iff (commercial_partner_of : Z -> Z)
        (self : list (list Invoice.t)) :
  Constraints._check_invoices_same_partner commercial_partner_of self = Ok tt
  <-> Forall (fun invoices =>
                agree (commercial_partner commercial_partner_of) invoices
                /\ agree Invoice.move_type invoices
                /\ agree Invoice.company_id invoices) self.
Proof.
  induction self as [| invoices self IH]; simpl.
  - split; [constructor | reflexivity].
  - pose proof (check_invoices_ok commercial_partner_of invoices) as H.
    destruct (Constraints.check_invoices commercial_partner_of invoices) as [[] | e].
    + rewrite IH. split.
      * intros Hs. constructor; [now apply H | assumption].
      * intros Hs. now inversion Hs.
    + split; [discriminate|]. intros Hs. inversion Hs as [| ? ? Hi _]; subst.
      apply H in Hi. discriminate.
Qed.

(** X19: the constraint reports the first difference it looks for: invoices
    of several commercial partners give the message on the partner, whatever
    their types and companies; invoices of one commercial partner and of
    several move types give the message on the type; invoices of one
    commercial partner and one type, and of several companies, the message
    on the company. *)
Theorem invoices_check_message (commercial_partner_of : Z -> Z)
        (invoices : list Invoice.t) :
  (~ agree (commercial_partner commercial_partner_of) invoices ->
   Constraints.check_invoices commercial_partner_of invoices
   = Raise (ValidationError "Invoices must be from the same commercial partner."))
  /\ (agree (commercial_partner commercial_partner_of) invoices ->
      ~ agree Invoice.move_type invoices ->
      Constraints.check_invoices commercial_partner_of invoices
      = Raise (ValidationError "Invoices must be of the same type."))
  /\ (agree (commercial_partner commercial_partner_of) invoices ->
      agree Invoice.move_type invoices ->
      ~ agree Invoice.company_id invoices ->
      Constraints.check_invoices commercial_partner_of invoices
      = Raise (ValidationError "Invoices must belong to the same company.")).
Proof.
  pose proof (partners_single commercial_partner_of invoices) as Hp.
  pose proof (move_types_single invoices) as Ht.
  pose proof (companies_single invoices) as Hc.
  unfold Constraints.check_invoices.
  destruct (1 <? _)%nat.
  - split; [reflexivity|]. split; intros H; apply Hp in H; discriminate.
  - destruct (1 <? _)%nat.
    + split; [intros H; exfalso; apply H, Hp; reflexivity|].
      split; [reflexivity|]. intros _ H. apply Ht in H. discriminate.
    + destruct (1 <? _)%nat.
      * split; [intros H; exfalso; apply H, Hp; reflexivity|].
        split; [intros _ H; exfalso; apply H, Ht; reflexivity|]. reflexivity.
      * split; [intros H; exfalso; apply H, Hp; reflexivity|].
        split; [intros _ H; exfalso; apply H, Ht; reflexivity|].
        intros _ _ H. exfalso. apply H, Hc. reflexivity.
Qed.

(* ================================================================= *)
(** ** Using the whole residual of one clearing line *)

Section Write.

Lemma write_nth_error (lines : list Lines.t) (i : nat) (l l' : Lines.t) :
  nth_error lines i = Some l ->
  nth_error (Wizard.write lines i l') i = Some l'
  /\ (forall j, j <> i -> nth_error (Wizard.write lines i l') j = nth_error lines j)
  /\ amounts (Wizard.write lines i l')
     = amounts lines - Lines.amount_to_clear l + Lines.amount_to_clear l'.
Proof.
  revert i. induction lines as [| x lines IH]; intros [| i] H; simpl in H;
    try discriminate.
  - inversion H; subst. simpl. split; [reflexivity|]. split.
    + intros [| j] Hj; [congruence | reflexivity].
    + unfold amounts. simpl. lia.
  - destruct (IH i H) as (H1 & H2 & H3). simpl. split; [assumption|]. split.
    + intros [| j] Hj; [reflexivity|]. simpl. apply H2. congruence.
    + unfold amounts in *. simpl. lia.
Qed.

End Write.

Section UseAll.

Variable float_is_zero_digits : Z -> Z -> bool.

Variable clearing : Wizard.t.

Variable i : nat.

Variable self : Lines.t.

Hypothesis at_i : nth_error (Wizard.line_ids clearing) i = Some self.

Hypothesis not_zero :
  float_is_zero_digits (Wizard.amount_to_clear clearing)
    (Currency.rounding (Wizard.company_currency_id clearing)) = false.

Local Abbreviation after :=
  (LineActions.action_use_all_amount_residual float_is_zero_digits clearing i).

Local Abbreviation new_amount :=
  (if Wizard.cmp_fnc self (- Wizard.amount_to_clear clearing) (Lines.amount_residual self)
   then Lines.amount_residual self
   else - Wizard.amount_to_clear clearing).

Lemma use_all_lines :
  Wizard.line_ids after
  = Wizard.write (Wizard.line_ids clearing) i
      (Lines.set_amount_to_clear self new_amount).
Proof.
  unfold LineActions.action_use_all_amount_residual.
  rewrite at_i, not_zero. reflexivity.
Qed.

Lemma use_all_total :
  Wizard.amount_to_clear after
  = Wizard.amount_to_clear clearing - Lines.amount_to_clear self + new_amount.
Proof.
  destruct (write_nth_error _ _ _ (Lines.set_amount_to_clear self new_amount) at_i)
    as (_ & _ & H).
  unfold Wizard.amount_to_clear. rewrite use_all_lines.
  unfold amounts in H. rewrite H.
  unfold LineActions.action_use_all_amount_residual.
  rewrite at_i, not_zero.
  cbn [Wizard.move_line_ids Wizard.set_line_ids Lines.amount_to_clear
       Lines.set_amount_to_clear].
  unfold Wizard.amount_to_clear. lia.
Qed.

End UseAll.

(** X20: [action_use_all_amount_residual] on a clearing line, when the
    amount to clear of the wizard is not taken for zero, writes that line
    only; the line gets its whole residual, or else the opposite of the
    wizard's amount to clear, and then the amount to clear of the wizard
    becomes the opposite of what the line held before: zero for a line that
    held nothing, but not for a line that held an amount, which the amount
    to clear it is computed from still counts. *)
Theorem use_all_takes_residual_or_rest
        (float_is_zero_digits : Z -> Z -> bool) (clearing : Wizard.t) (i : nat)
        (self : Lines.t) :
  nth_error (Wizard.line_ids clearing) i = Some self ->
  float_is_zero_digits (Wizard.amount_to_clear clearing)
    (Currency.rounding (Wizard.company_currency_id clearing)) = false ->
  let after :=
    LineActions.action_use_all_amount_residual float_is_zero_digits clearing i in
  exists self',
    nth_error (Wizard.line_ids after) i = Some self'
    /\ Lines.move_line_id self' = Lines.move_line_id self
    /\ Lines.sequence self' = Lines.sequence self
    /\ (forall j, j <> i ->
          nth_error (Wizard.line_ids after) j = nth_error (Wizard.line_ids clearing) j)
    /\ (Lines.amount_to_clear self' = Lines.amount_residual self
        \/ Lines.amount_to_clear self' = - Wizard.amount_to_clear clearing
           /\ Wizard.amount_to_clear after = - Lines.amount_to_clear self).
Proof.
  intros Hi Hz after.
  pose proof (use_all_lines float_is_zero_digits clearing i self Hi Hz) as Hl.
  pose proof (use_all_total float_is_zero_digits clearing i self Hi Hz) as Ht.
  fold after in Hl, Ht.
  destruct (write_nth_error _ _ _
              (Lines.set_amount_to_clear self
                 (if Wizard.cmp_fnc self (- Wizard.amount_to_clear clearing)
                                    (Lines.amount_residual self)
                  then Lines.amount_residual self
                  else - Wizard.amount_to_clear clearing)) Hi)
    as (H1 & H2 & _).
  rewrite <- Hl in H1, H2.
  eexists. split; [exact H1|]. split; [reflexivity|]. split; [reflexivity|].
  split; [exact H2|].
  destruct (Wizard.cmp_fnc self _ _); simpl in *; [now left | right].
  split; [reflexivity | lia].
Qed.

Lemma use_all_takes_residual_or_rest_witness :
  exists self',
    nth_error
      (Wizard.line_ids
         (LineActions.action_use_all_amount_residual
            (fun v _ => v =? 0) scenario_assigned 0)) 0 = Some self'
    /\ Lines.amount_to_clear self' = -50
    /\ Wizard.amount_to_clear
         (LineActions.action_use_all_amount_residual
            (fun v _ => v =? 0) scenario_assigned 0) = -150.
Proof.
  destruct (use_all_takes_residual_or_rest (fun v _ => v =? 0) scenario_assigned 0
              (candidate 3 150 150) eq_refl eq_refl)
    as (self' & H & _).
  exists self'. split; [exact H|].
  vm_compute in H. inversion H. split; reflexivity.
Defined.



(** X27: after [action_use_all_amount_residual] on a clearing line that
    held nothing, when the amount to clear of the wizard is not taken for
    zero, [_compute_can_use_line] gives [False] for that line: it holds its
    whole residual, or the wizard has nothing left to clear. *)
Theorem used_line_cannot_be_used_again
        (float_is_zero_digits : Z -> Z -> bool) (clearing : Wizard.t) (i : nat)
        (self : Lines.t) :
  nth_error (Wizard.line_ids clearing) i = Some self ->
  float_is_zero_digits (Wizard.amount_to_clear clearing)
    (Currency.rounding (Wizard.company_currency_id clearing)) = false ->
  Lines.amount_to_clear self = 0 ->
  let after :=
    LineActions.action_use_all_amount_residual float_is_zero_digits clearing i in
  exists self',
    nth_error (Wizard.line_ids after) i = Some self'
    /\ _compute_can_use_line after self' = false.
Proof.
  intros Hi Hz H0 after.
  pose proof (use_all_lines float_is_zero_digits clearing i self Hi Hz) as Hl.
  pose proof (use_all_total float_is_zero_digits clearing i self Hi Hz) as Ht.
  fold after in Hl, Ht.
  destruct (write_nth_error _ _ _
              (Lines.set_amount_to_clear self
                 (if Wizard.cmp_fnc self (- Wizard.amount_to_clear clearing)
                                    (Lines.amount_residual self)
                  then Lines.amount_residual self
                  else - Wizard.amount_to_clear clearing)) Hi)
    as (H1 & _ & _).
  rewrite <- Hl in H1.
  eexists. split; [exact H1|].
  unfold _compute_can_use_line. rewrite Ht, H0.
  change (Lines.amount_residual (Lines.set_amount_to_clear self ?a))
    with (Lines.amount_residual self).
  cbn [Lines.set_amount_to_clear Lines.amount_to_clear].
  destruct (Wizard.cmp_fnc self _ _).
  - rewrite Z.eqb_refl. now destruct (_ =? 0).
  - replace (Wizard.amount_to_clear clearing - 0 + - Wizard.amount_to_clear clearing)
      with 0 by lia.
    reflexivity.
Qed.

Lemma used_line_cannot_be_used_again_witness :
  exists self',
    nth_error
      (Wizard.line_ids
         (LineActions.action_use_all_amount_residual
            (fun v _ => v =? 0) scenario_plan 0)) 0 = Some self'
    /\ _compute_can_use_line
         (LineActions.action_use_all_amount_residual
            (fun v _ => v =? 0) scenario_plan 0) self' = false.
Proof.
  exact (used_line_cannot_be_used_again (fun v _ => v =? 0) scenario_plan 0
           (candidate 3 150 0) eq_refl eq_refl eq_refl).
Defined.

(* ================================================================= *)
(** ** Sorting the clearing lines *)

Section Sort.

Variable reverse : bool.

Local Abbreviation key := Lines.amount_residual.

Local Abbreviation insert := (LineActions.insert key reverse).

Local Abbreviation sorted := (LineActions.sorted key reverse).

Lemma insert_cases (x y : Lines.t) (l : list Lines.t) :
  (in_order reverse (key x) (key y) /\ insert x (y :: l) = x :: y :: l)
  \/ (in_order reverse (key y) (key x) /\ key x <> key y
      /\ insert x (y :: l) = y :: insert x l).
Proof.
  unfold in_order. simpl. destruct reverse.
  - destruct (Z.leb_spec (key y) (key x)); [left | right]; repeat split; lia.
  - destruct (Z.leb_spec (key x) (key y)); [left | right]; repeat split; lia.
Qed.

Lemma in_order_trans (a b c : Z) :
  in_order reverse a b -> in_order reverse b c -> in_order reverse a c.
Proof. unfold in_order. destruct reverse; lia. Qed.

Lemma insert_Permutation (x : Lines.t) (l : list Lines.t) :
  Permutation (insert x l) (x :: l).
Proof.
  induction l as [| y l IH]; [reflexivity|].
  destruct (insert_cases x y l) as [[_ ->] | (_ & _ & ->)]; [reflexivity|].
  rewrite IH. apply perm_swap.
Qed.

Lemma sorted_Permutation (l : list Lines.t) : Permutation (sorted l) l.
Proof.
  induction l as [| x l IH]; simpl; [reflexivity|].
  rewrite insert_Permutation. now constructor.
Qed.

Lemma insert_in_order (x : Lines.t) (l : list Lines.t) :
  StronglySorted (in_order reverse) (map key l) ->
  StronglySorted (in_order reverse) (map key (insert x l)).
Proof.
  induction l as [| y l IH]; intros Hs.
  - simpl. repeat constructor.
  - inversion Hs as [| ? ? Hl Hy]; subst.
    destruct (insert_cases x y l) as [[Hxy ->] | (Hyx & _ & ->)].
    + simpl. constructor; [exact Hs|]. constructor; [assumption|].
      apply Forall_forall. intros z Hz.
      apply (in_order_trans _ (key y)); [assumption|].
      rewrite Forall_forall in Hy. now apply Hy.
    + simpl. constructor; [now apply IH|].
      apply Forall_forall. intros z Hz.
      apply in_map_iff in Hz. destruct Hz as [c [<- Hc]].
      apply (Permutation_in _ (insert_Permutation x l)) in Hc.
      destruct Hc as [<- | Hc]; [assumption|].
      rewrite Forall_forall in Hy. apply Hy. now apply in_map.
Qed.

Lemma sorted_in_order (l : list Lines.t) :
  StronglySorted (in_order reverse) (map key (sorted l)).
Proof.
  induction l as [| x l IH]; simpl; [constructor | now apply insert_in_order].
Qed.

(** Stability: a record goes in front of the records of its key. *)
Lemma insert_with_residual (v : Z) (x : Lines.t) (l : list Lines.t) :
  with_residual v (insert x l) = with_residual v (x :: l).
Proof.
  induction l as [| y l IH]; [reflexivity|].
  destruct (insert_cases x y l) as [[_ ->] | (_ & Hne & ->)]; [reflexivity|].
  unfold with_residual in *. simpl in *.
  destruct (Z.eqb_spec (key y) v) as [Ey | Ey]; simpl; rewrite IH.
  - destruct (Z.eqb_spec (key x) v); [congruence | reflexivity].
  - reflexivity.
Qed.

Lemma sorted_with_residual (v : Z) (l : list Lines.t) :
  with_residual v (sorted l) = with_residual v l.
Proof.
  induction l as [| x l IH]; [reflexivity|].
  simpl. rewrite insert_with_residual.
  unfold with_residual in *. simpl.
  destruct (key x =? v); simpl; now rewrite IH.
Qed.

End Sort.

Lemma resequence_fields (l : list Lines.t) (s : Z) :
  map Lines.amount_residual (LineActions.resequence s l) = map Lines.amount_residual l
  /\ map unsequenced (LineActions.resequence s l) = map unsequenced l
  /\ (forall v, with_residual v (LineActions.resequence s l) = with_residual v l)
  /\ map Lines.sequence (LineActions.resequence s l)
     = map (fun k => s + Z.of_nat k) (seq 0 (List.length l)).
Proof.
  revert s. induction l as [| x l IH]; intros s; simpl.
  - repeat split; reflexivity.
  - destruct (IH (s + 1)) as (H1 & H2 & H3 & H4).
    split; [now f_equal|]. split; [now f_equal|]. split.
    + intros v. specialize (H3 v). unfold with_residual in *. simpl.
      change (Lines.amount_residual (LineActions.set_sequence x s))
        with (Lines.amount_residual x).
      destruct (Lines.amount_residual x =? v); simpl; now rewrite H3.
    + f_equal; [lia|]. rewrite H4, <- seq_shift, map_map.
      apply map_ext. intros k. lia.
Qed.

Lemma increasing_from (s : Z) (n a : nat) :
  increasing (map (fun k => s + Z.of_nat k) (seq a n)).
Proof.
  revert a. induction n as [| n IH]; intros a; [exact I|].
  specialize (IH (S a)). destruct n as [| n]; [exact I|].
  change (s + Z.of_nat a < s + Z.of_nat (S a)
          /\ increasing (map (fun k => s + Z.of_nat k) (seq (S a) (S n)))).
  split; [lia | exact IH].
Qed.

(** X22: [action_sort_by_residual] leaves the lines of the wizard in the
    order of their residuals, ascending or, reversed, descending, with the
    sequences 10, 11, 12, ..., which increase. *)
Theorem sort_by_residual_orders_the_lines (self : Wizard.t) (reverse : bool) :
  let after := LineActions.action_sort_by_residual self reverse in
  StronglySorted (in_order reverse)
                 (map Lines.amount_residual (Wizard.line_ids after))
  /\ map Lines.sequence (Wizard.line_ids after)
     = map (fun k => 10 + Z.of_nat k)
           (seq 0 (List.length (Wizard.line_ids self)))
  /\ increasing (map Lines.sequence (Wizard.line_ids after)).
Proof.
  intros after. subst after. unfold LineActions.action_sort_by_residual.
  cbn [Wizard.line_ids Wizard.set_line_ids].
  destruct (resequence_fields
              (LineActions.sorted Lines.amount_residual reverse (Wizard.line_ids self))
              10) as (H1 & _ & _ & H4).
  rewrite H1, H4.
  rewrite (Permutation_length (sorted_Permutation reverse (Wizard.line_ids self))).
  split; [apply sorted_in_order|]. split; [reflexivity | apply increasing_from].
Qed.

(** X23: [action_sort_by_residual] keeps the lines of the wizard, each with
    its move line and its amount to clear, and so the wizard's amount to
    clear; it is stable: the lines of one residual keep their order. *)
Theorem sort_by_residual_is_stable (self : Wizard.t) (reverse : bool) :
  let after := LineActions.action_sort_by_residual self reverse in
  Permutation (map unsequenced (Wizard.line_ids after))
              (map unsequenced (Wizard.line_ids self))
  /\ (forall v, with_residual v (Wizard.line_ids after)
                = with_residual v (Wizard.line_ids self))
  /\ Wizard.amount_to_clear after = Wizard.amount_to_clear self.
Proof.
  intros after. subst after. unfold LineActions.action_sort_by_residual.
  unfold Wizard.amount_to_clear.
  cbn [Wizard.line_ids Wizard.move_line_ids Wizard.set_line_ids].
  destruct (resequence_fields
              (LineActions.sorted Lines.amount_residual reverse (Wizard.line_ids self))
              10) as (_ & H2 & H3 & _).
  assert (P : Permutation
                (map unsequenced
                     (LineActions.resequence 10
                        (LineActions.sorted Lines.amount_residual reverse
                           (Wizard.line_ids self))))
                (map unsequenced (Wizard.line_ids self))).
  { rewrite H2. apply Permutation_map, sorted_Permutation. }
  split; [exact P|]. split.
  - intros v. rewrite H3. apply sorted_with_residual.
  - f_equal.
    assert (E : forall l, map Lines.amount_to_clear l = map snd (map unsequenced l)).
    { intros l. rewrite map_map. reflexivity. }
    rewrite !E.
    apply (Permutation_map snd) in P. revert P.
    generalize (map snd (map unsequenced
                  (LineActions.resequence 10
                     (LineActions.sorted Lines.amount_residual reverse
                        (Wizard.line_ids self))))).
    generalize (map snd (map unsequenced (Wizard.line_ids self))).
    intros l2 l1 P. induction P; simpl; lia.
Qed.

(* ================================================================= *)
(** ** When a run gives an entry *)

Section Progress.

Variable self : Wizard.t.

Local Abbreviation r := (Currency.rounding (Wizard.company_currency_id self)).

Hypothesis r_pos : 0 < r.

Variable p : Spec.polarity.

Lemma related_grows (n : nat) (keys : list MoveLine.t) (st : Wizard.loop_state) :
  (n <= List.length (Wizard.related_move_line_vals st))%nat ->
  (n <= List.length (Wizard.related_move_line_vals (Wizard.clear_loop self keys st)))%nat.
Proof.
  apply (clear_loop_invariant self
           (fun st => (n <= List.length (Wizard.related_move_line_vals st))%nat)).
  intros st' k H _ _. destruct (related_step self st' k) as [lv [-> _]].
  rewrite length_app. simpl. lia.
Qed.

(** A transfer is made when there is something to clear and something to
    clear it with. *)
Lemma clear_loop_progress (keys : list MoveLine.t) (st : Wizard.loop_state) :
  Wizard.fiz self (Wizard.ml_amount_residual st) = false ->
  (exists k, In k keys
             /\ Wizard.fiz self (OrderedDict.get (Wizard.availability st) k) = false) ->
  (List.length (Wizard.related_move_line_vals st)
   < List.length (Wizard.related_move_line_vals (Wizard.clear_loop self keys st)))%nat.
Proof.
  intros Em. induction keys as [| k keys IH]; intros (k0 & Hin & Ek0);
    [destruct Hin|].
  simpl. rewrite Em.
  destruct (Wizard.fiz self (OrderedDict.get (Wizard.availability st) k)) eqn:Ek.
  - apply IH. exists k0. split; [|assumption].
    destruct Hin as [<- | Hin]; [congruence | assumption].
  - apply related_grows.
    destruct (related_step self st k) as [lv [-> _]].
    rewrite length_app. simpl. lia.
Qed.

Lemma open_not_fiz (x : Z) : monetary r x -> x <> 0 -> Wizard.fiz self x = false.
Proof.
  intros Hx Hn. rewrite (fiz_monetary self r_pos x Hx). now apply Z.eqb_neq.
Qed.

(** A source line with nothing to clear leaves the ledger as it is and adds
    no journal item. *)
Lemma closed_line_adds_nothing (avail : OrderedDict.t) (ml : MoveLine.t) :
  MoveLine.amount_residual ml = 0 ->
  Wizard.availability (Wizard.clear_move_line self avail ml) = avail
  /\ Wizard.move_line_vals self ml (Wizard.clear_move_line self avail ml) = [].
Proof.
  intros E. unfold Wizard.clear_move_line.
  assert (Hz : Wizard.fiz self 0 = true).
  { rewrite (fiz_monetary self r_pos 0); [reflexivity | exists 0; lia]. }
  rewrite clear_loop_done by (simpl; now rewrite E).
  split; [reflexivity|].
  unfold Wizard.move_line_vals, Wizard.get_debit_credit. simpl.
  rewrite Hz. simpl. now rewrite Hz.
Qed.

(** A source line with something to clear, on a ledger that holds
    something, adds journal items. *)
Lemma open_line_adds_items (avail : OrderedDict.t) (ml : MoveLine.t) :
  ledger_valid r p avail -> source_valid r p ml ->
  open_line ml ->
  (exists k, OrderedDict.get avail k <> 0) ->
  Wizard.move_line_vals self ml (Wizard.clear_move_line self avail ml) <> [].
Proof.
  intros Hd Hml Hopen (k & Hk).
  pose proof (clear_move_line_sided self r_pos p avail ml Hd Hml) as [Hrel Hsum].
  pose proof (clear_move_line_monetary self r_pos avail ml (proj1 Hd) (proj1 Hml))
    as (_ & Hb & _).
  assert (Hlen : (0 < List.length (Wizard.related_move_line_vals
                                     (Wizard.clear_move_line self avail ml)))%nat).
  { unfold Wizard.clear_move_line.
    match goal with
    | |- context [Wizard.clear_loop self ?ks ?s] =>
        pose proof (clear_loop_progress ks s) as H
    end.
    simpl in H. apply H.
    - apply open_not_fiz; [exact (proj1 Hml) | exact Hopen].
    - assert (Ek : Wizard.fiz self (OrderedDict.get avail k) = false).
      { apply open_not_fiz; [|assumption].
        apply (monetary_get self). exact (proj1 Hd). }
      pose proof (not_fiz_has self r_pos avail k Ek) as Hhas.
      unfold OrderedDict.has in Hhas. apply in_map_iff in Hhas.
      destruct Hhas as (k' & Eid & Hin).
      exists k'. split; [assumption|].
      now rewrite (get_same_id avail k' k Eid). }
  set (st := Wizard.clear_move_line self avail ml) in *.
  assert (Hpos : 0 < Wizard.sum (map (clearing_amount_of p)
                                     (Wizard.related_move_line_vals st))).
  { destruct (Wizard.related_move_line_vals st) as [| lv rel]; [simpl in Hlen; lia|].
    inversion Hrel as [| ? ? [_ Hlv] Hrest]; subst.
    assert (0 <= Wizard.sum (map (clearing_amount_of p) rel)).
    { clear - Hrest. induction Hrest as [| x l [_ Hx] _ IH]; simpl; lia. }
    simpl. lia. }
  assert (Hnz : Wizard.cl_balance st <> 0).
  { intros E. rewrite E in Hsum. unfold balance_of in Hsum. destruct p; lia. }
  unfold Wizard.move_line_vals.
  rewrite (get_debit_credit_monetary self r_pos _ Hb).
  assert (Hm0 : monetary r 0) by (exists 0; lia).
  assert (Hmo : monetary r (- Wizard.cl_balance st)).
  { destruct Hb as [q Hq]. exists (- q). lia. }
  destruct (Z.lt_total (Wizard.cl_balance st) 0) as [Hlt | [Heq | Hgt]];
    [| contradiction |].
  - rewrite (Z.max_r _ 0) by lia. rewrite (Z.max_l _ 0) by lia.
    rewrite (open_not_fiz _ Hmo) by lia. rewrite andb_false_r. discriminate.
  - rewrite (Z.max_l _ 0) by lia.
    rewrite (open_not_fiz _ Hb) by lia. simpl. discriminate.
Qed.

Lemma lines_loop_grows (mls : list MoveLine.t) (avail : OrderedDict.t)
      (lv : list line_val) (log : Wizard.run_log) :
  lv <> [] -> snd (fst (Wizard.lines_loop self mls avail lv log)) <> [].
Proof.
  revert avail lv log. induction mls as [| ml mls IH]; intros avail lv log H;
    simpl; [assumption|].
  apply IH. intros E. apply app_eq_nil in E. now destruct E.
Qed.

Lemma lines_loop_closed (mls : list MoveLine.t) (avail : OrderedDict.t)
      (lv : list line_val) (log : Wizard.run_log) :
  Forall (fun ml => MoveLine.amount_residual ml = 0) mls ->
  fst (Wizard.lines_loop self mls avail lv log) = (avail, lv).
Proof.
  intros H. revert avail lv log.
  induction H as [| ml mls Hml _ IH]; intros avail lv log; simpl; [reflexivity|].
  destruct (closed_line_adds_nothing avail ml Hml) as [-> ->].
  rewrite app_nil_r. apply IH.
Qed.

Lemma closed_or_open (mls : list MoveLine.t) :
  Forall (fun ml => MoveLine.amount_residual ml = 0) mls \/ Exists open_line mls.
Proof.
  induction mls as [| ml mls [IH | IH]].
  - left. constructor.
  - destruct (Z.eq_dec (MoveLine.amount_residual ml) 0) as [E | E].
    + left. now constructor.
    + right. now left.
  - right. now right.
Qed.

Lemma lines_loop_open (mls : list MoveLine.t) (avail : OrderedDict.t)
      (lv : list line_val) (log : Wizard.run_log) :
  ledger_valid r p avail -> Forall (source_valid r p) mls ->
  (exists k, OrderedDict.get avail k <> 0) ->
  Exists open_line mls ->
  snd (fst (Wizard.lines_loop self mls avail lv log)) <> [].
Proof.
  intros Hd Hs Hk Hex. revert avail lv log Hd Hk Hs.
  induction Hex as [ml mls Hml | ml mls Hex IH]; intros avail lv log Hd Hk Hs;
    inversion Hs as [| ? ? Hsrc Hrest]; subst; simpl.
  - apply lines_loop_grows. intros E. apply app_eq_nil in E.
    destruct E as [_ E]. revert E. now apply open_line_adds_items.
  - destruct (Z.eq_dec (MoveLine.amount_residual ml) 0) as [E | E].
    + destruct (closed_line_adds_nothing avail ml E) as [-> ->].
      rewrite app_nil_r. now apply IH.
    + apply lines_loop_grows. intros E'. apply app_eq_nil in E'.
      destruct E' as [_ E']. revert E'. now apply open_line_adds_items.
Qed.

Lemma moves_loop_grows (groups : list (Move.t * list MoveLine.t))
      (avail : OrderedDict.t) (mvs : list move_val) (log : Wizard.run_log) :
  mvs <> [] -> snd (fst (Wizard.moves_loop self groups avail mvs log)) <> [].
Proof.
  revert avail mvs log.
  induction groups as [| [move mls] groups IH]; intros avail mvs log H; simpl;
    [assumption|].
  destruct (Wizard.lines_loop self mls avail [] log) as [[a l] g].
  destruct l; apply IH; [assumption|].
  intros E. apply app_eq_nil in E. destruct E as [_ E]. discriminate.
Qed.

Lemma moves_loop_closed (groups : list (Move.t * list MoveLine.t))
      (avail : OrderedDict.t) (mvs : list move_val) (log : Wizard.run_log) :
  Forall (fun grp => Forall (fun ml => MoveLine.amount_residual ml = 0) (snd grp))
         groups ->
  snd (fst (Wizard.moves_loop self groups avail mvs log)) = mvs.
Proof.
  intros H. revert avail mvs log.
  induction H as [| [move mls] groups Hg _ IH]; intros avail mvs log; simpl;
    [reflexivity|].
  pose proof (lines_loop_closed mls avail [] log Hg) as E.
  destruct (Wizard.lines_loop self mls avail [] log) as [[a l] g].
  simpl in E. inversion E; subst. apply IH.
Qed.

Lemma moves_loop_open (groups : list (Move.t * list MoveLine.t))
      (avail : OrderedDict.t) (mvs : list move_val) (log : Wizard.run_log) :
  ledger_valid r p avail ->
  Forall (fun grp => Forall (source_valid r p) (snd grp)) groups ->
  (exists k, OrderedDict.get avail k <> 0) ->
  Exists (fun grp => Exists open_line (snd grp)) groups ->
  snd (fst (Wizard.moves_loop self groups avail mvs log)) <> [].
Proof.
  intros Hd Hs Hk Hex. revert avail mvs log Hd Hk Hs.
  induction Hex as [[move mls] groups Hg | [move mls] groups Hex IH];
    intros avail mvs log Hd Hk Hs;
    inversion Hs as [| ? ? Hsrc Hrest]; subst; simpl in *.
  - pose proof (lines_loop_open mls avail [] log Hd Hsrc Hk Hg) as Hl.
    destruct (Wizard.lines_loop self mls avail [] log) as [[a l] g].
    simpl in Hl. destruct l; [contradiction|].
    apply moves_loop_grows. intros E. apply app_eq_nil in E.
    destruct E as [_ E]. discriminate.
  - destruct (closed_or_open mls) as [Hc | Ho].
    + pose proof (lines_loop_closed mls avail [] log Hc) as E.
      destruct (Wizard.lines_loop self mls avail [] log) as [[a l] g].
      simpl in E. inversion E; subst. now apply IH.
    + pose proof (lines_loop_open mls avail [] log Hd Hsrc Hk Ho) as Hl.
      destruct (Wizard.lines_loop self mls avail [] log) as [[a l] g].
      simpl in Hl. destruct l; [contradiction|].
      apply moves_loop_grows. intros E. apply app_eq_nil in E.
      destruct E as [_ E]. discriminate.
Qed.

End Progress.

(** The ledger holds something as soon as a clearing line has an amount. *)
Lemma fill_availability_holds (lines : list Lines.t) (d : OrderedDict.t) :
  Exists assigned lines \/ (exists k, OrderedDict.get d k <> 0) ->
  exists k, OrderedDict.get (Wizard.fill_availability d lines) k <> 0.
Proof.
  revert d. induction lines as [| cl lines IH]; intros d H; simpl.
  - destruct H as [H | H]; [inversion H | assumption].
  - destruct (Z.eqb_spec (Lines.amount_to_clear cl) 0) as [E | E].
    + apply IH. destruct H as [H | H]; [|now right].
      inversion H as [? ? Hcl | ? ? Hrest]; subst; [contradiction | now left].
    + apply IH. right. exists (Lines.move_line_id cl).
      now rewrite OrderedDictFacts.get_set_same.
Qed.

Lemma Exists_concat {A : Type} (P : A -> Prop) (ls : list (list A)) :
  Exists P (List.concat ls) -> Exists (Exists P) ls.
Proof.
  induction ls as [| l ls IH]; simpl; intros H; [inversion H|].
  apply Exists_app in H. destruct H as [H | H]; [now left | right; auto].
Qed.

Lemma Forall_concat {A : Type} (P : A -> Prop) (ls : list (list A)) :
  Forall P (List.concat ls) -> Forall (Forall P) ls.
Proof.
  induction ls as [| l ls IH]; simpl; intros H; [constructor|].
  apply Forall_app in H. destruct H as [H1 H2]. constructor; auto.
Qed.

(** A run gives no entry when no clearing line has an amount to clear or
    no source line has something to clear. *)
Lemma no_entry (self : Wizard.t) :
  0 < Currency.rounding (Wizard.company_currency_id self) ->
  Forall (fun ml => MoveLine.amount_residual ml = 0) (Wizard.move_line_ids self)
  \/ Forall (fun cl => Lines.amount_to_clear cl = 0) (Wizard.line_ids self) ->
  Wizard._get_move_dict_vals self = [].
Proof.
  intros Hr [H | H]; unfold Wizard._get_move_dict_vals, Wizard.run.
  - apply (moves_loop_closed self Hr).
    rewrite <- (groupby_concat (Wizard.move_line_ids self)) in H.
    apply Forall_concat in H. rewrite Forall_map in H. exact H.
  - unfold Wizard.clear_lines_availability.
    rewrite (fill_availability_unassigned _ [] H).
    apply (moves_loop_empty_ledger self Hr).
Qed.

Lemma some_entry (self : Wizard.t) (p : Spec.polarity) :
  Spec.valid_run p self ->
  Exists open_line (Wizard.move_line_ids self) ->
  Exists assigned (Wizard.line_ids self) ->
  Wizard._get_move_dict_vals self <> [].
Proof.
  intros [(Hr & Hms & Hmc) [Hps Hpc]] Hopen Hassigned.
  unfold Wizard._get_move_dict_vals, Wizard.run.
  apply (moves_loop_open self Hr p).
  - split.
    + apply (fill_availability_Forall (monetary _)); [assumption | constructor].
    + apply (fill_availability_Forall (Spec.clearing_side p));
        [assumption | constructor].
  - apply groupby_Forall. apply Forall_forall. intros ml Hml. split.
    + exact (proj1 (Forall_forall _ _) Hms ml Hml).
    + exact (proj1 (Forall_forall _ _) Hps ml Hml).
  - apply fill_availability_holds. now left.
  - rewrite <- (groupby_concat (Wizard.move_line_ids self)) in Hopen.
    apply Exists_concat in Hopen. rewrite Exists_map in Hopen. exact Hopen.
Qed.

(** X24: a valid allocation run gives an entry exactly when a source line
    has something left to clear and a clearing line has an amount to
    clear. *)
Theorem entry_iff_something_to_clear (self : Wizard.t) (p : Spec.polarity) :
  Spec.valid_run p self ->
  Wizard._get_move_dict_vals self <> []
  <-> Exists open_line (Wizard.move_line_ids self)
      /\ Exists assigned (Wizard.line_ids self).
Proof.
  intros Hv. split.
  - intros Hne.
    assert (Hr : 0 < Currency.rounding (Wizard.company_currency_id self))
      by exact (proj1 (proj1 Hv)).
    split.
    + destruct (closed_or_open (Wizard.move_line_ids self)) as [H | H];
        [|assumption].
      exfalso. apply Hne, (no_entry self Hr). now left.
    + assert (H : Forall (fun cl => Lines.amount_to_clear cl = 0) (Wizard.line_ids self)
                  \/ Exists assigned (Wizard.line_ids self)).
      { induction (Wizard.line_ids self) as [| cl l [IH | IH]].
        - left. constructor.
        - destruct (Z.eq_dec (Lines.amount_to_clear cl) 0) as [E | E].
          + left. now constructor.
          + right. now left.
        - right. now right. }
      destruct H as [H | H]; [|assumption].
      exfalso. apply Hne, (no_entry self Hr). now right.
  - intros [Ho Ha]. now apply (some_entry self p).
Qed.

Lemma entry_iff_something_to_clear_witness :
  Spec.valid_run Spec.SourceNegative scenario_split
  /\ (Wizard._get_move_dict_vals scenario_split <> []
      <-> Exists open_line (Wizard.move_line_ids scenario_split)
          /\ Exists assigned (Wizard.line_ids scenario_split)).
Proof.
  assert (H : Spec.valid_run Spec.SourceNegative scenario_split).
  { split; [split; [reflexivity | split] | split];
      repeat constructor; try (exists (-60); reflexivity);
      try (exists (-40); reflexivity); try (exists 100; reflexivity);
      try (simpl; lia); try discriminate. }
  split; [exact H|]. exact (entry_iff_something_to_clear scenario_split _ H).
Defined.

(* ================================================================= *)
(** ** Confirming the wizard *)

Section Confirming.

Variable database : Type.

Variable create : database -> Confirm.entry_vals -> Confirm.created * database.

Variable action_post : database -> Z -> database.

Variable reconcile : database -> Z -> Z -> database.

Local Abbreviation reconcile_loop := (Confirm.reconcile_loop database reconcile).

Local Abbreviation moves_loop :=
  (Confirm.moves_loop database create action_post reconcile).

Local Abbreviation button_confirm :=
  (Confirm.button_confirm database create action_post reconcile).

(** The journal items of a move are reconciled when each has a line to be
    reconciled with. *)
Lemma reconcile_loop_returns (line_ids to_concile_lines : list Z) (idx : nat)
      (db : database) :
  (idx + List.length line_ids <= List.length to_concile_lines)%nat ->
  exists db', reconcile_loop db line_ids to_concile_lines idx = inr db'.
Proof.
  revert idx db. induction line_ids as [| ml line_ids IH]; intros idx db H; simpl.
  - now exists db.
  - simpl in H.
    destruct (nth_error to_concile_lines idx) as [line |] eqn:E.
    + apply IH. lia.
    + apply nth_error_None in E. lia.
Qed.

Hypothesis create_lines : creates_the_lines create.

Lemma moves_loop_returns (moves_data : list move_val) (db : database)
      (res_ids : list Z) :
  exists db' ids,
    moves_loop db moves_data res_ids = inr (db', res_ids ++ ids)
    /\ List.length ids = List.length moves_data.
Proof.
  revert db res_ids.
  induction moves_data as [| move_data rest IH]; intros db res_ids; simpl.
  - exists db, []. now rewrite app_nil_r.
  - pose proof (create_lines db (Confirm.clean_move move_data)) as Hc.
    destruct (create db (Confirm.clean_move move_data)) as [move db1].
    simpl in Hc. rewrite length_map in Hc.
    destruct (reconcile_loop_returns (Confirm.line_ids move)
                (map move_line_id_to_reconcile (mv_line_ids move_data)) 0
                (action_post db1 (Confirm.id move))) as [db2 ->].
    { rewrite length_map. lia. }
    destruct (IH db2 (res_ids ++ [Confirm.id move])) as (db' & ids & -> & Hlen).
    exists db', (Confirm.id move :: ids). rewrite <- app_assoc. simpl.
    split; [reflexivity | now f_equal].
Qed.

End Confirming.

(** X25: [button_confirm] on a wizard none of whose clearing lines has an
    amount to clear, or none of whose source lines has something left to
    clear, raises [IndexError]: no move is created, and the action reads the
    first of no ids. *)
Theorem confirm_without_entries_raises
        (database : Type)
        (create : database -> Confirm.entry_vals -> Confirm.created * database)
        (action_post : database -> Z -> database)
        (reconcile : database -> Z -> Z -> database)
        (db : database) (self : Wizard.t) :
  0 < Currency.rounding (Wizard.company_currency_id self) ->
  Forall (fun ml => MoveLine.amount_residual ml = 0) (Wizard.move_line_ids self)
  \/ Forall (fun cl => Lines.amount_to_clear cl = 0) (Wizard.line_ids self) ->
  Confirm.button_confirm database create action_post reconcile db self
  = inl Confirm.IndexError.
Proof.
  intros Hr H. unfold Confirm.button_confirm.
  rewrite (no_entry self Hr H). reflexivity.
Qed.

Lemma confirm_without_entries_raises_witness :
  Confirm.button_confirm Z counter_create (fun db _ => db) (fun db _ _ => db)
    1000 scenario_plan
  = inl Confirm.IndexError.
Proof.
  apply (confirm_without_entries_raises Z counter_create (fun db _ => db)
           (fun db _ _ => db) 1000 scenario_plan); [reflexivity|].
  right. repeat constructor.
Defined.

(** X26: in a valid allocation run in which a source line has something
    left to clear and a clearing line has an amount to clear, on a database
    that gives a move one journal item for each of its values,
    [button_confirm] raises no error: it creates one move for each entry of
    the run and returns an action on the one move created, or on the list of
    the moves created when they are several. *)
Theorem confirm_with_entries_returns
        (database : Type)
        (create : database -> Confirm.entry_vals -> Confirm.created * database)
        (action_post : database -> Z -> database)
        (reconcile : database -> Z -> Z -> database)
        (db : database) (self : Wizard.t) (p : Spec.polarity) :
  creates_the_lines create ->
  Spec.valid_run p self ->
  Exists open_line (Wizard.move_line_ids self) ->
  Exists assigned (Wizard.line_ids self) ->
  exists db' res_ids action,
    Confirm.moves_loop database create action_post reconcile db
      (Wizard._get_move_dict_vals self) [] = inr (db', res_ids)
    /\ Confirm.button_confirm database create action_post reconcile db self
       = inr (db', action)
    /\ List.length res_ids = List.length (Wizard._get_move_dict_vals self)
    /\ res_ids <> []
    /\ match res_ids with
       | [first] =>
           Confirm.res_id action = Some first
           /\ Confirm.domain action = None
           /\ Confirm.view_mode action = "form"
       | _ =>
           Confirm.res_id action = None
           /\ Confirm.domain action = Some res_ids
           /\ Confirm.view_mode action = "tree,form"
       end.
Proof.
  intros Hc Hv Ho Ha.
  pose proof (some_entry self p Hv Ho Ha) as Hne.
  destruct (moves_loop_returns database create action_post reconcile Hc
              (Wizard._get_move_dict_vals self) db [])
    as (db' & ids & E & Hlen).
  simpl in E. unfold Confirm.button_confirm. rewrite E.
  destruct ids as [| first [| second ids]].
  - destruct (Wizard._get_move_dict_vals self); [contradiction | discriminate].
  - eexists _, _, _. split; [reflexivity|]. simpl. split; [reflexivity|].
    split; [assumption|]. split; [discriminate|]. repeat split.
  - eexists _, _, _. split; [reflexivity|]. simpl. split; [reflexivity|].
    split; [assumption|]. split; [discriminate|]. repeat split.
Qed.

Lemma confirm_with_entries_returns_witness :
  exists db' res_ids action,
    Confirm.moves_loop Z counter_create (fun db _ => db) (fun db _ _ => db) 1000
      (Wizard._get_move_dict_vals scenario_split) [] = inr (db', res_ids)
    /\ Confirm.button_confirm Z counter_create (fun db _ => db) (fun db _ _ => db)
         1000 scenario_split = inr (db', action)
    /\ res_ids = [1000]
    /\ Confirm.res_id action = Some 1000.
Proof.
  destruct (confirm_with_entries_returns Z counter_create (fun db _ => db)
              (fun db _ _ => db) 1000 scenario_split Spec.SourceNegative)
    as (db' & res_ids & action & E1 & E2 & _).
  - intros db vals. unfold counter_create. simpl.
    now rewrite length_map, length_seq.
  - split; [split; [reflexivity | split] | split];
      repeat constructor; try (exists (-60); reflexivity);
      try (exists (-40); reflexivity); try (exists 100; reflexivity);
      try (simpl; lia); try discriminate.
  - left. discriminate.
  - left. discriminate.
  - exists db', res_ids, action. split; [exact E1|]. split; [exact E2|].
    vm_compute in E1, E2. inversion E1; subst. inversion E2; subst.
    split; reflexivity.
Defined.
